(** * scratch: the remote-sensor client of [scratch/__init__.py]

    A shallow embedding of class [Scratch]: the frame writer [_send], the
    frame reader [receive], the encoders [sensorupdate] and [broadcast]
    and the parser [_parse_message], with the parts of the Python runtime
    they call
    ([str.encode], [struct.pack], [struct.unpack], [repr] of [bytes],
    [re.search], [re.findall], [str.replace], [str.strip], [str.split]).

    Python 3 semantics are followed throughout: [recv] yields [bytes],
    [len(sensorlist)/2] is true division, dictionaries keep insertion
    order. *)

From Stdlib Require Import ZArith List Bool Lia Arith String Ascii.
From Stdlib.Strings Require Import Byte.
From Stdlib Require Import DecimalString.
Import ListNotations.

Local Open Scope Z_scope.

(* ================================================================== *)
(** ** Text and bytes *)

(** A Python [str] is a sequence of Unicode code points. *)
Definition pystr := list Z.

(** A Python [bytes] / [bytearray] value. *)
Definition bytes := list byte.

Definition code_of_ascii (a : ascii) : Z := Z.of_N (N_of_ascii a).

(** [lit s]: the Python string written with the characters of [s]. *)
Fixpoint lit (s : string) : pystr :=
  match s with
  | EmptyString => []
  | String a s' => code_of_ascii a :: lit s'
  end.

(** The double quote, the space and the characters the code names. *)
Definition dq : Z := 34.
Definition sp : Z := 32.
Definition nl : Z := 10.

(** [name] between double quotes. *)
Definition quoted (name : pystr) : pystr := dq :: name ++ [dq].

Definition byte_of (z : Z) : byte :=
  match Byte.of_N (Z.to_N z) with
  | Some b => b
  | None => x00
  end.

Definition byte_val (b : byte) : Z := Z.of_N (Byte.to_N b).

Fixpoint pystr_eqb (a b : pystr) : bool :=
  match a, b with
  | [], [] => true
  | x :: a', y :: b' => (x =? y) && pystr_eqb a' b'
  | _, _ => false
  end.

Definition mem (c : Z) (cs : list Z) : bool := existsb (Z.eqb c) cs.

(* ================================================================== *)
(** ** Values and exceptions *)

(** The scalar values a caller hands to the encoders or a socket error
    carries in its [args]. *)
Inductive atom :=
| ANone
| ABool (b : bool)
| AInt (n : Z)
| AStr (s : pystr).

(** The argument of [sensorupdate]: any of these may be passed, only
    [PyDict] passes [isinstance(data, dict)].  A dictionary is kept in
    insertion order, as [data.items()] yields it. *)
Inductive pyval :=
| PyAtom (a : atom)
| PyList (l : list atom)
| PyDict (d : list (atom * atom)).

(** The exceptions that leave the methods.  [SocketError] is
    [socket.error] with its [args]; [StructError] is [struct.error];
    [ValueError] is what unpacking [exc.args] into two names raises when
    there are not exactly two. *)
Inductive exn :=
| TypeError (msg : pystr)
| IndexError
| ValueError
| StructError
| UnicodeEncodeError
| SocketError (args : list atom)
| ScratchConnectionError (args : list atom).

Inductive outcome (A : Type) :=
| Return (a : A)
| Raise (e : exn).
Arguments Return {A} a.
Arguments Raise {A} e.

Definition bind {A B} (m : outcome A) (k : A -> outcome B) : outcome B :=
  match m with
  | Return a => k a
  | Raise e => Raise e
  end.

Notation "x <- m ;; k" := (bind m (fun x => k))
  (at level 61, m at next level, right associativity).

(* ================================================================== *)
(** ** [str.encode()] and [bytes.decode()]: UTF-8 *)

Definition is_surrogate (c : Z) : bool := (55296 <=? c) && (c <=? 57343).

(** The UTF-8 bytes of one code point; [None] where Python raises
    [UnicodeEncodeError] (a lone surrogate; other values are not code
    points of a [str]). *)
Definition utf8_char (c : Z) : option bytes :=
  if c <? 0 then None
  else if c <? 128 then Some [byte_of c]
  else if c <? 2048 then
    Some [byte_of (192 + c / 64); byte_of (128 + c mod 64)]
  else if c <? 65536 then
    if is_surrogate c then None
    else Some [byte_of (224 + c / 4096);
               byte_of (128 + (c / 64) mod 64);
               byte_of (128 + c mod 64)]
  else if c <? 1114112 then
    Some [byte_of (240 + c / 262144);
          byte_of (128 + (c / 4096) mod 64);
          byte_of (128 + (c / 64) mod 64);
          byte_of (128 + c mod 64)]
  else None.

Fixpoint encode (s : pystr) : option bytes :=
  match s with
  | [] => Some []
  | c :: s' =>
    match utf8_char c, encode s' with
    | Some bs, Some rest => Some (bs ++ rest)
    | _, _ => None
    end
  end.

Definition is_cont (b : byte) : bool :=
  (128 <=? byte_val b) && (byte_val b <? 192).

(** Strict UTF-8 decoding: overlong forms, surrogates and values above
    U+10FFFF are refused, as [bytes.decode()] does. *)
Fixpoint decode_fuel (fuel : nat) (bs : bytes) : option pystr :=
  match fuel with
  | O => match bs with [] => Some [] | _ => None end
  | S fuel' =>
    match bs with
    | [] => Some []
    | b0 :: r0 =>
      let v0 := byte_val b0 in
      if v0 <? 128 then option_map (cons v0) (decode_fuel fuel' r0)
      else if v0 <? 192 then None
      else if v0 <? 224 then
        match r0 with
        | b1 :: r1 =>
          let c := (v0 - 192) * 64 + (byte_val b1 - 128) in
          if is_cont b1 && (128 <=? c)
          then option_map (cons c) (decode_fuel fuel' r1) else None
        | _ => None
        end
      else if v0 <? 240 then
        match r0 with
        | b1 :: b2 :: r2 =>
          let c := (v0 - 224) * 4096 + (byte_val b1 - 128) * 64
                   + (byte_val b2 - 128) in
          if is_cont b1 && is_cont b2 && (2048 <=? c)
             && negb (is_surrogate c)
          then option_map (cons c) (decode_fuel fuel' r2) else None
        | _ => None
        end
      else if v0 <? 248 then
        match r0 with
        | b1 :: b2 :: b3 :: r3 =>
          let c := (v0 - 240) * 262144 + (byte_val b1 - 128) * 4096
                   + (byte_val b2 - 128) * 64 + (byte_val b3 - 128) in
          if is_cont b1 && is_cont b2 && is_cont b3
             && (65536 <=? c) && (c <? 1114112)
          then option_map (cons c) (decode_fuel fuel' r3) else None
        | _ => None
        end
      else None
    end
  end.

(** Each step consumes at least one byte, so [length bs] steps suffice. *)
Definition decode (bs : bytes) : option pystr :=
  decode_fuel (List.length bs) bs.

(* ================================================================== *)
(** ** [struct.pack('!I', n)] and [struct.unpack('!I', b)] *)

Definition two32 : Z := 4294967296.

Definition struct_pack (n : Z) : outcome bytes :=
  if (0 <=? n) && (n <? two32) then
    Return [byte_of (n / 16777216);
            byte_of ((n / 65536) mod 256);
            byte_of ((n / 256) mod 256);
            byte_of (n mod 256)]
  else Raise StructError.

Definition struct_unpack (b : bytes) : outcome Z :=
  match b with
  | [b0; b1; b2; b3] =>
    Return (byte_val b0 * 16777216 + byte_val b1 * 65536
            + byte_val b2 * 256 + byte_val b3)
  | _ => Raise StructError
  end.

(* ================================================================== *)
(** ** [repr] of a [bytes] value and [str] of a scalar *)

Definition hex_digit (n : Z) : Z :=
  if n <? 10 then 48 + n else 87 + n.

(** [repr(b)]: the quote is the apostrophe unless [b] holds an apostrophe
    and no double quote; the quote and the backslash are escaped with a
    backslash, tab, newline and carriage return are written as backslash
    t, n, r, other bytes outside [0x20 .. 0x7e] as backslash x and two
    hexadecimal digits. *)
Definition repr_quote (b : bytes) : Z :=
  if existsb (fun x => byte_val x =? 39) b
     && negb (existsb (fun x => byte_val x =? 34) b)
  then 34 else 39.

Definition repr_byte (quote : Z) (x : byte) : pystr :=
  let v := byte_val x in
  if (v =? quote) || (v =? 92) then [92; v]
  else if v =? 9 then [92; 116]
  else if v =? 10 then [92; 110]
  else if v =? 13 then [92; 114]
  else if (v <? 32) || (127 <=? v) then
    [92; 120; hex_digit (v / 16); hex_digit (v mod 16)]
  else [v].

Definition repr (b : bytes) : pystr :=
  let quote := repr_quote b in
  98 :: quote :: flat_map (repr_byte quote) b ++ [quote].

(** [str(x)], as the [%s] conversion applies it. *)
Definition py_str (a : atom) : pystr :=
  match a with
  | ANone => lit "None"
  | ABool true => lit "True"
  | ABool false => lit "False"
  | AInt n => lit (NilZero.string_of_int (Z.to_int n))
  | AStr s => s
  end.

(* ================================================================== *)
(** ** The string methods the parser calls *)

Fixpoint strip_prefix (p s : pystr) : option pystr :=
  match p, s with
  | [], _ => Some s
  | x :: p', y :: s' => if x =? y then strip_prefix p' s' else None
  | _ :: _, [] => None
  end.

(** [s.replace(old, new)]: every occurrence of [old] met in a scan from
    the left, each scan resuming after the occurrence just replaced.
    [skip] counts the characters of an occurrence still to pass. *)
Fixpoint replace_go (old new : pystr) (skip : nat) (s : pystr) : pystr :=
  match s with
  | [] => []
  | c :: s' =>
    match skip with
    | S k => replace_go old new k s'
    | O =>
      match strip_prefix old s with
      | Some _ => new ++ replace_go old new (Nat.pred (List.length old)) s'
      | None => c :: replace_go old new O s'
      end
    end
  end.

Definition replace (old new s : pystr) : pystr :=
  match old with
  | [] => new ++ flat_map (fun c => c :: new) s
  | _ => replace_go old new O s
  end.

(** The characters [str.isspace] accepts: what [split()] splits on and
    [strip()] removes. *)
Definition is_space (c : Z) : bool :=
  ((9 <=? c) && (c <=? 13)) || ((28 <=? c) && (c <=? 32))
  || (c =? 133) || (c =? 160) || (c =? 5760)
  || ((8192 <=? c) && (c <=? 8202))
  || (c =? 8232) || (c =? 8233) || (c =? 8239) || (c =? 8287)
  || (c =? 12288).

Fixpoint lstrip_by (drop : Z -> bool) (s : pystr) : pystr :=
  match s with
  | c :: s' => if drop c then lstrip_by drop s' else s
  | [] => []
  end.

Definition strip_by (drop : Z -> bool) (s : pystr) : pystr :=
  rev (lstrip_by drop (rev (lstrip_by drop s))).

(** [s.strip()] *)
Definition strip (s : pystr) : pystr := strip_by is_space s.

(** [s.strip(chars)] *)
Definition strip_chars (chars : pystr) (s : pystr) : pystr :=
  strip_by (fun c => mem c chars) s.

(** [s.split()]: the maximal runs of non-space characters; [cur] is the
    run being read. *)
Fixpoint split_go (s : pystr) (cur : pystr) : list pystr :=
  match s with
  | [] => match cur with [] => [] | _ => [cur] end
  | c :: s' =>
    if is_space c then
      match cur with
      | [] => split_go s' []
      | _ => cur :: split_go s' []
      end
    else split_go s' (cur ++ [c])
  end.

Definition split (s : pystr) : list pystr := split_go s [].

(* ================================================================== *)
(** ** Regular expressions: the fragment of [re] the two patterns use *)

Inductive regex :=
| RLit (l : pystr)       (* literal text *)
| RDot                   (* [.]: any character but the newline *)
| RSet (cs : list Z)     (* [[...]] *)
| RNotSet (cs : list Z)  (* [[^...]] *)
| REmpty                 (* the empty alternative *)
| RGroup (a : regex)     (* [(...)] and [(?:...)] *)
| RSeq (a b : regex)
| RAlt (a b : regex)     (* [a|b], [a] tried first *)
| RStar (a : regex).     (* [a*], greedy *)

(** [a+], greedy: one [a], then [a*]. *)
Definition RPlus (a : regex) : regex := RSeq a (RStar a).

Fixpoint rseq (rs : list regex) : regex :=
  match rs with
  | [] => REmpty
  | [r] => r
  | r :: rs' => RSeq r (rseq rs')
  end.

(** The iterations of [a*] from [s0] on, [m] matching one [a]: another
    iteration first, which has to consume a character, then what follows
    the repetition.  [n] bounds the iterations left; [length s0] is never
    exceeded. *)
Fixpoint star_loop (m : pystr -> (pystr -> option pystr) -> option pystr)
  (k : pystr -> option pystr) (n : nat) (s0 : pystr) : option pystr :=
  match n with
  | O => k s0
  | S n' =>
    match m s0 (fun s1 => if (List.length s1 <? List.length s0)%nat
                          then star_loop m k n' s1 else None) with
    | Some rest => Some rest
    | None => k s0
    end
  end.

(** Backtracking match of [r] at the head of [s]; [k] is what must match
    after it and returns what the whole match leaves unread.  The first
    success in the order of [re] is kept: alternatives from the left,
    repetitions longest first. *)
Fixpoint rmatch (r : regex) (s : pystr) (k : pystr -> option pystr)
  {struct r} : option pystr :=
  match r with
  | RLit l =>
    match strip_prefix l s with
    | Some s' => k s'
    | None => None
    end
  | RDot =>
    match s with
    | c :: s' => if c =? nl then None else k s'
    | [] => None
    end
  | RSet cs =>
    match s with
    | c :: s' => if mem c cs then k s' else None
    | [] => None
    end
  | RNotSet cs =>
    match s with
    | c :: s' => if mem c cs then None else k s'
    | [] => None
    end
  | REmpty => k s
  | RGroup a => rmatch a s k
  | RSeq a b => rmatch a s (fun s1 => rmatch b s1 k)
  | RAlt a b =>
    match rmatch a s k with
    | Some rest => Some rest
    | None => rmatch b s k
    end
  | RStar a => star_loop (rmatch a) k (List.length s) s
  end.

(** The match of [r] that starts at the head of [s], if any: what it
    leaves unread. *)
Definition match_here (r : regex) (s : pystr) : option pystr :=
  rmatch r s (fun rest => Some rest).

Definition matched (s rest : pystr) : pystr :=
  firstn (List.length s - List.length rest) s.

(** [re.search(r, s).group()]: the text of the leftmost match. *)
Fixpoint search (r : regex) (s : pystr) : option pystr :=
  match match_here r s with
  | Some rest => Some (matched s rest)
  | None =>
    match s with
    | [] => None
    | _ :: s' => search r s'
    end
  end.

(** [re.findall(r, s)] for a pattern whose whole match is reported: the
    matches from left to right, each search resuming where the previous
    match ended (one character further after an empty match). *)
Fixpoint findall_go (r : regex) (skip : nat) (s : pystr) : list pystr :=
  match skip with
  | S k =>
    match s with
    | [] => []
    | _ :: s' => findall_go r k s'
    end
  | O =>
    match match_here r s with
    | Some rest =>
      matched s rest ::
      match s with
      | [] => []
      | _ :: s' =>
        findall_go r (Nat.pred (List.length s - List.length rest)) s'
      end
    | None =>
      match s with
      | [] => []
      | _ :: s' => findall_go r O s'
      end
    end
  end.

Definition findall (r : regex) (s : pystr) : list pystr := findall_go r O s.

(* ================================================================== *)
(** ** [_parse_message] *)

(** One group of [sensorupdate_re]: a quoted name, a space, a value
    between optional quotes, and a space. *)
Definition name_value_re : regex :=
  RGroup (rseq
    [RGroup (rseq [RGroup (RLit [dq]); RDot; RStar (RNotSet [dq]);
                   RGroup (RLit [dq])]);
     RSet [sp];
     RGroup (RAlt (RLit [dq]) REmpty);
     RGroup (RSeq RDot (RStar (RNotSet [dq])));
     RGroup (RAlt (RLit [dq]) REmpty);
     RSet [sp]]).

(** [sensorupdate_re]: the keyword and a space, then one or more
    groups. *)
Definition sensorupdate_re : regex :=
  rseq [RLit (lit "sensor-update"); RSet [sp]; RPlus name_value_re].

(** [broadcast_re]: the keyword, a space and a quoted name. *)
Definition broadcast_re : regex :=
  rseq [RLit (lit "broadcast"); RSet [sp]; RLit [dq]; RDot;
        RStar (RNotSet [dq]); RLit [dq]].

(** A [dict] with [str] keys and values, in insertion order. *)
Definition pydict := list (pystr * pystr).

(** [d[k] = v]: the value of a key already present is replaced where the
    key stands, a new key goes last. *)
Fixpoint dict_set (d : pydict) (k v : pystr) : pydict :=
  match d with
  | [] => [(k, v)]
  | (k', v') :: d' =>
    if pystr_eqb k' k then (k', v) :: d' else (k', v') :: dict_set d' k v
  end.

Fixpoint dict_get (d : pydict) (k : pystr) : option pystr :=
  match d with
  | [] => None
  | (k', v') :: d' => if pystr_eqb k' k then Some v' else dict_get d' k
  end.

(** The value [_parse_message] returns for a message that is not empty:
    [dict([('sensor-update', sensors), ('broadcast', broadcast)])]. *)
Record parsed := {
  sensor_update : pydict;
  broadcast : list pystr
}.

(** [f[0]] and [f[-1]] *)
Definition first_char (f : pystr) : outcome Z :=
  match f with
  | c :: _ => Return c
  | [] => Raise IndexError
  end.

Definition last_char (f : pystr) : outcome Z :=
  match rev f with
  | c :: _ => Return c
  | [] => Raise IndexError
  end.

(** The loop over [sensorupdates] that builds [sensorlist].  The list
    argument is [sensorupdates[i:]].  [multisense] is [Some m] while the
    inner loop runs: [i] and [j] advance together there, so the inner
    loop reads the same fragments in the same order; it ends at a
    fragment whose last character is the quote or with the list. *)
Fixpoint reassemble (sensorupdates : list pystr) (multisense : option pystr)
  (sensorlist : list pystr) : outcome (list pystr) :=
  match sensorupdates with
  | [] =>
    match multisense with
    | Some m => Return (sensorlist ++ [strip_chars [sp; dq] m])
    | None => Return sensorlist
    end
  | f :: rest =>
    match multisense with
    | Some m =>
      let m' := m ++ [sp] ++ f in
      l <- last_char f ;;
      if l =? dq
      then reassemble rest None (sensorlist ++ [strip_chars [sp; dq] m'])
      else reassemble rest (Some m') sensorlist
    | None =>
      c <- first_char f ;;
      if c =? dq then
        l <- last_char f ;;
        if negb (l =? dq)
        then reassemble rest (Some ([] ++ [sp] ++ f)) sensorlist
        else reassemble rest None (sensorlist ++ [strip_chars [sp; dq] f])
      else reassemble rest None (sensorlist ++ [f])
    end
  end.

(** The loop that fills [sensors].  The list argument is
    [sensorlist[i:]]; [total] is [len(sensorlist)].  The test
    [len(sensors) < len(sensorlist)/2] compares with a float: it holds
    when twice the size is below the length.  Reading [sensorlist[i+1]]
    or [sensorlist[i]] past the end raises [IndexError]. *)
Fixpoint pair_loop (total : nat) (rest : list pystr) (sensors : pydict)
  : outcome pydict :=
  if (2 * List.length sensors <? total)%nat then
    match rest with
    | name :: value :: rest' =>
      pair_loop total rest' (dict_set sensors name value)
    | _ => Raise IndexError
    end
  else Return sensors.

Definition pair_up (sensorlist : list pystr) : outcome pydict :=
  pair_loop (List.length sensorlist) sensorlist [].

(** The fragments of a match of [sensorupdate_re]. *)
Definition fragments (m : pystr) : list pystr :=
  split (strip (replace (lit "sensor-update") [] m)).

(** A name that [broadcast_re] takes between its quotes: not empty, not
    starting with a newline, without a quote. *)
Definition plain_name (name : pystr) : bool :=
  match name with
  | [] => false
  | c :: _ => negb (c =? nl) && negb (mem dq name)
  end.

(** The text of one frame that holds a broadcast for each of [names],
    a space between two of them. *)
Fixpoint broadcasts_text (names : list pystr) : pystr :=
  match names with
  | [] => []
  | [name] => lit "broadcast " ++ quoted name
  | name :: rest =>
    lit "broadcast " ++ quoted name ++ sp :: broadcasts_text rest
  end.

(** The name between the quotes of a match of [broadcast_re]: the match
    without its first eleven characters, the keyword, the space and the
    quote, and without its last character, the closing quote. *)
Definition name_of_match (m : pystr) : pystr := removelast (skipn 11 m).

(** [mess.replace('broadcast','').strip(...)] *)
Definition event_name (mess : pystr) : pystr :=
  strip_chars [dq; sp] (replace (lit "broadcast") [] mess).

(** The broadcast list: the event name of every match of
    [broadcast_re]. *)
Definition broadcast_names (message : pystr) : list pystr :=
  match findall broadcast_re message with
  | [] => []
  | broadcasts => map event_name broadcasts
  end.

Definition _parse_message (message : pystr) : outcome (option parsed) :=
  match message with
  | [] => Return None
  | _ =>
    sensors <-
      match search sensorupdate_re message with
      | Some m =>
        sensorlist <- reassemble (fragments m) None [] ;;
        pair_up sensorlist
      | None => Return []
      end ;;
    Return (Some {| sensor_update := sensors;
                    broadcast := broadcast_names message |})
  end.

(* ================================================================== *)
(** ** The connection *)

(** What one call of [recv] meets: the transport hands over at most [k]
    bytes (at least one while bytes remain), or fails with
    [socket.error]. *)
Inductive recv_event :=
| Deliver (k : nat)
| RecvFails (args : list atom).

(** What one call of [sendall] meets: every byte is written, or
    [written] bytes are and then the transport fails. *)
Inductive send_event :=
| SendOk
| SendFails (written : nat) (args : list atom).

(** A connected stream socket.  [incoming] holds the bytes of the peer
    that are not read yet; the peer has closed its side after them, so
    [recv] on an empty [incoming] returns no byte.  The scripts say what
    the successive calls meet; past their end every call succeeds in
    full. *)
Record connection := {
  incoming : bytes;
  recv_script : list recv_event;
  outgoing : bytes;
  send_script : list send_event
}.

Definition recv (n : nat) (c : connection) : outcome bytes * connection :=
  match recv_script c with
  | RecvFails args :: script =>
    (Raise (SocketError args),
     {| incoming := incoming c; recv_script := script;
        outgoing := outgoing c; send_script := send_script c |})
  | Deliver k :: script =>
    let m := Nat.min n (Nat.max 1 k) in
    (Return (firstn m (incoming c)),
     {| incoming := skipn m (incoming c); recv_script := script;
        outgoing := outgoing c; send_script := send_script c |})
  | [] =>
    (Return (firstn n (incoming c)),
     {| incoming := skipn n (incoming c); recv_script := [];
        outgoing := outgoing c; send_script := send_script c |})
  end.

Definition sendall (data : bytes) (c : connection)
  : outcome unit * connection :=
  match send_script c with
  | SendFails written args :: script =>
    (Raise (SocketError args),
     {| incoming := incoming c; recv_script := recv_script c;
        outgoing := outgoing c ++ firstn written data;
        send_script := script |})
  | SendOk :: script =>
    (Return tt,
     {| incoming := incoming c; recv_script := recv_script c;
        outgoing := outgoing c ++ data; send_script := script |})
  | [] =>
    (Return tt,
     {| incoming := incoming c; recv_script := recv_script c;
        outgoing := outgoing c ++ data; send_script := [] |})
  end.

(* ================================================================== *)
(** ** [_send], [receive] and [sensorupdate] *)

(** [messlen + message.encode()]: the length of the payload packed on
    four bytes, then the payload. *)
Definition frame (payload : bytes) : outcome bytes :=
  messlen <- struct_pack (Z.of_nat (List.length payload)) ;;
  Return (messlen ++ payload).

(** [_send(message)].  Encoding and packing happen before the [try]; a
    [socket.error] of [sendall] becomes
    [ScratchConnectionError(message)]. *)
Definition _send (message : pystr) (c : connection)
  : outcome unit * connection :=
  match encode message with
  | None => (Raise UnicodeEncodeError, c)
  | Some payload =>
    match frame payload with
    | Raise e => (Raise e, c)
    | Return data =>
      match sendall data c with
      | (Raise (SocketError args), c') =>
        (match args with
         | [err; msg] => Raise (ScratchConnectionError [msg])
         | _ => Raise ValueError
         end, c')
      | r => r
      end
    end
  end.

(** What [receive] returns: [None], the parsed message, the [repr]
    string, or the bytes as read. *)
Inductive received :=
| RNone
| RParsed (p : option parsed)
| RRepr (s : pystr)
| RRaw (mess : bytes).

(** [while len(mess) < messlen: mess += recv(messlen-len(mess))].  The
    loop has no bound of its own: [fuel] counts its iterations and [None]
    says that [fuel] iterations did not end it. *)
Fixpoint recv_loop (fuel : nat) (messlen : Z) (mess : bytes) (c : connection)
  : option (outcome bytes * connection) :=
  if Z.of_nat (List.length mess) <? messlen then
    match fuel with
    | O => None
    | S fuel' =>
      match recv (Z.to_nat (messlen - Z.of_nat (List.length mess))) c with
      | (Return chunk, c') => recv_loop fuel' messlen (mess ++ chunk) c'
      | (Raise e, c') => Some (Raise e, c')
      end
    end
  else Some (Return mess, c).

(** The body of the [try]: [Return None] is the [return None] on an
    empty first read, [Return (Some mess)] the bytes held when the loop
    ends. *)
Definition read_frame (fuel : nat) (c : connection)
  : option (outcome (option bytes) * connection) :=
  match recv 4 c with
  | (Raise e, c1) => Some (Raise e, c1)
  | (Return mess, c1) =>
    match mess with
    | [] => Some (Return None, c1)
    | _ =>
      match struct_unpack mess with
      | Raise e => Some (Raise e, c1)
      | Return n =>
        match recv_loop fuel (n + 4) mess c1 with
        | None => None
        | Some (Return mess', c2) => Some (Return (Some mess'), c2)
        | Some (Raise e, c2) => Some (Raise e, c2)
        end
      end
    end
  end.

(** [except socket.error as exc]: only [socket.error] is caught. *)
Definition receive_handler (e : exn) : exn :=
  match e with
  | SocketError [errno; message] => ScratchConnectionError [errno; message]
  | SocketError _ => ValueError
  | _ => e
  end.

Definition deliver (noparse : Z) (mess : bytes) : outcome received :=
  match mess with
  | [] => Return RNone
  | _ =>
    if noparse =? 0 then
      p <- _parse_message (repr mess) ;; Return (RParsed p)
    else if noparse =? 1 then Return (RRepr (repr mess))
    else if noparse =? 2 then Return (RRaw mess)
    else p <- _parse_message (repr mess) ;; Return (RParsed p)
  end.

Definition receive (fuel : nat) (noparse : Z) (c : connection)
  : option (outcome received * connection) :=
  match read_frame fuel c with
  | None => None
  | Some (Raise e, c') => Some (Raise (receive_handler e), c')
  | Some (Return None, c') => Some (Return RNone, c')
  | Some (Return (Some mess), c') => Some (deliver noparse mess, c')
  end.

(** [sensorupdate(data)] *)
Definition sensorupdate (data : pyval) (c : connection)
  : outcome unit * connection :=
  match data with
  | PyDict d =>
    _send (fold_left
             (fun message kv =>
                message ++ [sp] ++ quoted (py_str (fst kv)) ++ [sp]
                        ++ py_str (snd kv))
             d (lit "sensor-update")) c
  | _ => (Raise (TypeError (lit "Expected a dict")), c)
  end.

Definition is_dict (data : pyval) : bool :=
  match data with
  | PyDict _ => true
  | _ => false
  end.

(** No call that [script] describes fails. *)
Definition delivers (e : recv_event) : bool :=
  match e with
  | Deliver _ => true
  | RecvFails _ => false
  end.

Definition all_deliver (script : list recv_event) : bool :=
  forallb delivers script.

(** The first call hands over the four bytes of a prefix together. *)
Definition prefix_at_once (script : list recv_event) : bool :=
  match script with
  | [] => true
  | Deliver k :: _ => (4 <=? k)%nat
  | RecvFails _ :: _ => false
  end.

(** A connection on which nothing was exchanged yet, whose peer sends
    [input] and closes, and whose calls meet [script]. *)
Definition peer_sends (input : bytes) (script : list recv_event)
  : connection :=
  {| incoming := input; recv_script := script;
     outgoing := []; send_script := [] |}.

(** The peer end of a connection: what was written is what it reads. *)
Definition loopback (c : connection) (script : list recv_event)
  : connection :=
  peer_sends (outgoing c) script.


(* ================================================================== *)
(** ** [broadcast] *)

(** The method [broadcast] of the class.  Its argument is a list, which
    passes [isinstance(data, list)], or a scalar, which [%s] formats
    with [str]; the messages of a list are scalars.  The method stands
    in a module named after the class: [broadcast] is also the field of
    [parsed]. *)
Module Scratch.

Definition broadcast (data : list atom + atom) (c : connection)
  : outcome unit * connection :=
  match data with
  | inl l =>
    _send (fold_left
             (fun message mess => message ++ [sp] ++ quoted (py_str mess))
             l (lit "broadcast")) c
  | inr a => _send (lit "broadcast " ++ quoted (py_str a)) c
  end.

End Scratch.

(** The text that [sensorupdate] builds for the entries of a mapping
    and the text that [broadcast] builds for a list, written without
    the loop. *)
Definition sensorupdate_message (d : list (atom * atom)) : pystr :=
  lit "sensor-update"
  ++ flat_map (fun kv => sp :: quoted (py_str (fst kv))
                            ++ sp :: py_str (snd kv)) d.

Definition broadcast_message (l : list atom) : pystr :=
  lit "broadcast" ++ flat_map (fun mess => sp :: quoted (py_str mess)) l.

(* ================================================================== *)
(** ** Well-formed sensor updates *)

(** Words with one space between two of them. *)
Fixpoint join_sp (words : list pystr) : pystr :=
  match words with
  | [] => []
  | [w] => w
  | w :: rest => w ++ sp :: join_sp rest
  end.

Definition word_char (c : Z) : bool := negb (is_space c) && negb (c =? dq).

(** A word: not empty, without white space and without quote. *)
Definition plain_word (w : pystr) : bool :=
  match w with
  | [] => false
  | _ => forallb word_char w
  end.

(** A sensor name, as its words, and its value. *)
Definition sensor := (list pystr * pystr)%type.

Definition sensor_name (p : sensor) : pystr := join_sp (fst p).

Definition plain_sensor (p : sensor) : bool :=
  match fst p with
  | [] => false
  | words => forallb plain_word words
  end && plain_word (snd p).

(** The quoted name, a space, the value and a space: what one group of
    [sensorupdate_re] is written for. *)
Definition group_text (p : sensor) : pystr :=
  quoted (sensor_name p) ++ sp :: snd p ++ [sp].

(** The text of a sensor update with a space after every value. *)
Definition sensor_update_text (pairs : list sensor) : pystr :=
  lit "sensor-update " ++ List.concat (map group_text pairs).

(** No two of the strings are equal. *)
Fixpoint distinct (l : list pystr) : bool :=
  match l with
  | [] => true
  | x :: rest => negb (existsb (pystr_eqb x) rest) && distinct rest
  end.

(** Where a group may end: at the end of the text, or before a quote
    that a character other than the space follows. *)
Definition group_boundary (rest : pystr) : bool :=
  match rest with
  | [] => true
  | q :: c :: _ => (q =? dq) && negb (c =? sp)
  | _ => false
  end.

(** The fragments [split()] cuts a quoted name into: the quotes stay on
    the first and on the last word. *)
Fixpoint close_quote (words : list pystr) : list pystr :=
  match words with
  | [] => []
  | [w] => [w ++ [dq]]
  | w :: rest => w :: close_quote rest
  end.

Definition name_fragments (words : list pystr) : list pystr :=
  match words with
  | [] => []
  | w :: rest => close_quote ((dq :: w) :: rest)
  end.

Definition sensor_fragments (p : sensor) : list pystr :=
  name_fragments (fst p) ++ [snd p].

(** A fragment that [strip] leaves whole: not empty and without a
    character that [drop] removes. *)
Definition kept (drop : Z -> bool) (f : pystr) : bool :=
  match f with
  | [] => false
  | _ => forallb (fun c => negb (drop c)) f
  end.

(** A fragment of [split()]: not empty and without white space. *)
Definition solid (f : pystr) : bool := kept is_space f.

(** The tokens of a sensor: its name and its value. *)
Definition sensor_tokens (p : sensor) : list pystr := [sensor_name p; snd p].

Definition sensor_entry (p : sensor) : pystr * pystr :=
  (sensor_name p, snd p).

(** The text that [sensorupdate] writes for sensors: no space follows
    the last value. *)
Definition sensors_message (pairs : list sensor) : pystr :=
  lit "sensor-update"
  ++ flat_map (fun p => sp :: quoted (sensor_name p) ++ sp :: snd p) pairs.

(** The name and the value of a sensor, with nothing after the value. *)
Definition unclosed_text (p : sensor) : pystr :=
  quoted (sensor_name p) ++ sp :: snd p.

(** The tokens taken two by two, a name and its value; a last token
    alone is left out. *)
Fixpoint pairs_of (sensorlist : list pystr) : pydict :=
  match sensorlist with
  | name :: value :: rest => (name, value) :: pairs_of rest
  | _ => []
  end.

(** A character that [encode] writes as the byte of its code and that
    [repr] writes as it is between apostrophes: printable ASCII but the
    apostrophe and the backslash. *)
Definition wire_char (c : Z) : bool :=
  (32 <=? c) && (c <=? 126) && negb (c =? 39) && negb (c =? 92).

(* ================================================================== *)
(** ** The language of a pattern *)

(** What a pattern matches, as a relation between the pattern and the
    matched text. *)
Inductive matches : regex -> pystr -> Prop :=
| MLit (l : pystr) : matches (RLit l) l
| MDot (c : Z) : (c =? nl) = false -> matches RDot [c]
| MSet (cs : list Z) (c : Z) : mem c cs = true -> matches (RSet cs) [c]
| MNotSet (cs : list Z) (c : Z) :
    mem c cs = false -> matches (RNotSet cs) [c]
| MEmpty : matches REmpty []
| MGroup (a : regex) (w : pystr) : matches a w -> matches (RGroup a) w
| MSeq (a b : regex) (w1 w2 : pystr) :
    matches a w1 -> matches b w2 -> matches (RSeq a b) (w1 ++ w2)
| MAltL (a b : regex) (w : pystr) : matches a w -> matches (RAlt a b) w
| MAltR (a b : regex) (w : pystr) : matches b w -> matches (RAlt a b) w
| MStarNil (a : regex) : matches (RStar a) []
| MStarApp (a : regex) (w1 w2 : pystr) :
    matches a w1 -> matches (RStar a) w2 -> matches (RStar a) (w1 ++ w2).

(* ================================================================== *)
(** ** Tactics *)

(** Linear arithmetic over quotients and remainders by constants. *)
Ltac div_lia := Z.div_mod_to_equations; lia.

(** Settles the comparisons of a goal that linear arithmetic decides. *)
Ltac decide_cmp :=
  repeat match goal with
  | |- context [?a <? ?b] =>
    first [ replace (a <? b) with true by (symmetry; apply Z.ltb_lt; div_lia)
          | replace (a <? b) with false by (symmetry; apply Z.ltb_ge; div_lia) ]
  | |- context [?a <=? ?b] =>
    first [ replace (a <=? b) with true by (symmetry; apply Z.leb_le; div_lia)
          | replace (a <=? b) with false by (symmetry; apply Z.leb_gt; div_lia) ]
  end.

(* ================================================================== *)
(** * Properties *)

(** ** Bytes *)

Lemma byte_val_range (b : byte) : 0 <= byte_val b < 256.
Proof.
  unfold byte_val. pose proof (Byte.to_N_bounded b). lia.
Qed.

Lemma byte_val_of (z : Z) : 0 <= z < 256 -> byte_val (byte_of z) = z.
Proof.
  intros Hz. unfold byte_val, byte_of.
  destruct (Byte.of_N (Z.to_N z)) as [b|] eqn:E.
  - apply Byte.to_of_N in E. rewrite E. lia.
  - apply Byte.of_N_None_iff in E. lia.
Qed.

Lemma byte_of_val (b : byte) : byte_of (byte_val b) = b.
Proof.
  unfold byte_of, byte_val. rewrite N2Z.id, Byte.of_to_N. reflexivity.
Qed.

Lemma byte_of_eq (z : Z) (b : byte) : z = byte_val b -> byte_of z = b.
Proof. intros ->. apply byte_of_val. Qed.

(** ** [struct.pack] and [struct.unpack] are inverse on four bytes *)

Lemma struct_pack_length (n : Z) (b : bytes) :
  struct_pack n = Return b -> List.length b = 4%nat.
Proof.
  unfold struct_pack. destruct ((0 <=? n) && (n <? two32)); intros H.
  - injection H as <-. reflexivity.
  - discriminate.
Qed.

Lemma struct_pack_range (n : Z) (b : bytes) :
  struct_pack n = Return b -> 0 <= n < two32.
Proof.
  unfold struct_pack.
  destruct ((0 <=? n) && (n <? two32)) eqn:E; intros H; [|discriminate].
  apply andb_true_iff in E. lia.
Qed.

Lemma struct_pack_ok (n : Z) :
  0 <= n < two32 -> exists b, struct_pack n = Return b.
Proof.
  intros Hn. unfold struct_pack.
  replace ((0 <=? n) && (n <? two32)) with true; [eauto|].
  symmetry. apply andb_true_iff. lia.
Qed.

Lemma struct_unpack_pack (n : Z) (b : bytes) :
  struct_pack n = Return b -> struct_unpack b = Return n.
Proof.
  intros H. pose proof (struct_pack_range _ _ H) as Hn.
  unfold two32 in Hn. unfold struct_pack in H.
  destruct ((0 <=? n) && (n <? two32)); [|discriminate].
  injection H as <-. unfold struct_unpack.
  rewrite !byte_val_of by (Z.div_mod_to_equations; lia).
  f_equal. Z.div_mod_to_equations. lia.
Qed.

Lemma struct_pack_unpack (b : bytes) (n : Z) :
  struct_unpack b = Return n -> struct_pack n = Return b.
Proof.
  destruct b as [|b0 [|b1 [|b2 [|b3 [|]]]]]; try discriminate.
  unfold struct_unpack. intros H. injection H as <-.
  pose proof (byte_val_range b0). pose proof (byte_val_range b1).
  pose proof (byte_val_range b2). pose proof (byte_val_range b3).
  unfold struct_pack, two32.
  replace ((0 <=? _) && (_ <? _)) with true
    by (symmetry; apply andb_true_iff; lia).
  rewrite (byte_of_eq _ b0), (byte_of_eq _ b1), (byte_of_eq _ b2),
    (byte_of_eq _ b3); [reflexivity | ..]; Z.div_mod_to_equations; lia.
Qed.

(** ** UTF-8: decoding undoes encoding *)

Lemma utf8_char_length (c : Z) (bs : bytes) :
  utf8_char c = Some bs -> (1 <= List.length bs <= 4)%nat.
Proof.
  unfold utf8_char.
  repeat match goal with
  | |- context [if ?b then _ else _] => destruct b
  end; intros H; try discriminate; injection H as <-; simpl; lia.
Qed.

Lemma Some_eq {A : Type} (a b : A) : Some a = Some b -> a = b.
Proof. congruence. Qed.

Lemma decode_fuel_step (fuel : nat) (b0 : byte) (r0 : bytes) :
  decode_fuel (S fuel) (b0 :: r0) =
  let v0 := byte_val b0 in
  if v0 <? 128 then option_map (cons v0) (decode_fuel fuel r0)
  else if v0 <? 192 then None
  else if v0 <? 224 then
    match r0 with
    | b1 :: r1 =>
      let c := (v0 - 192) * 64 + (byte_val b1 - 128) in
      if is_cont b1 && (128 <=? c)
      then option_map (cons c) (decode_fuel fuel r1) else None
    | _ => None
    end
  else if v0 <? 240 then
    match r0 with
    | b1 :: b2 :: r2 =>
      let c := (v0 - 224) * 4096 + (byte_val b1 - 128) * 64
               + (byte_val b2 - 128) in
      if is_cont b1 && is_cont b2 && (2048 <=? c) && negb (is_surrogate c)
      then option_map (cons c) (decode_fuel fuel r2) else None
    | _ => None
    end
  else if v0 <? 248 then
    match r0 with
    | b1 :: b2 :: b3 :: r3 =>
      let c := (v0 - 240) * 262144 + (byte_val b1 - 128) * 4096
               + (byte_val b2 - 128) * 64 + (byte_val b3 - 128) in
      if is_cont b1 && is_cont b2 && is_cont b3
         && (65536 <=? c) && (c <? 1114112)
      then option_map (cons c) (decode_fuel fuel r3) else None
    | _ => None
    end
  else None.
Proof. reflexivity. Qed.

Lemma decode_utf8_char (c : Z) (bs rest : bytes) (fuel : nat) :
  utf8_char c = Some bs ->
  decode_fuel (S fuel) (bs ++ rest) = option_map (cons c) (decode_fuel fuel rest).
Proof.
  unfold utf8_char.
  destruct (Z.ltb_spec c 0); [discriminate|].
  destruct (Z.ltb_spec c 128).
  { intros H1. apply Some_eq in H1. subst bs.
    rewrite <- !app_comm_cons, app_nil_l, decode_fuel_step; cbv zeta. rewrite !byte_val_of by lia.
    decide_cmp. reflexivity. }
  destruct (Z.ltb_spec c 2048).
  { intros H2. apply Some_eq in H2. subst bs.
    rewrite <- !app_comm_cons, app_nil_l, decode_fuel_step; cbv zeta. unfold is_cont.
    rewrite !byte_val_of by div_lia.
    replace ((192 + c / 64 - 192) * 64 + (128 + c mod 64 - 128)) with c
      by div_lia.
    decide_cmp. reflexivity. }
  destruct (Z.ltb_spec c 65536).
  { destruct (is_surrogate c) eqn:Hs; [discriminate|].
    intros H3. apply Some_eq in H3. subst bs.
    rewrite <- !app_comm_cons, app_nil_l, decode_fuel_step; cbv zeta. unfold is_cont.
    rewrite !byte_val_of by div_lia.
    replace ((224 + c / 4096 - 224) * 4096
             + (128 + (c / 64) mod 64 - 128) * 64
             + (128 + c mod 64 - 128)) with c by div_lia.
    rewrite Hs. decide_cmp. reflexivity. }
  destruct (Z.ltb_spec c 1114112); [|discriminate].
  intros H4. apply Some_eq in H4. subst bs.
  rewrite <- !app_comm_cons, app_nil_l, decode_fuel_step; cbv zeta. unfold is_cont.
  rewrite !byte_val_of by div_lia.
  replace ((240 + c / 262144 - 240) * 262144
           + (128 + (c / 4096) mod 64 - 128) * 4096
           + (128 + (c / 64) mod 64 - 128) * 64
           + (128 + c mod 64 - 128)) with c by div_lia.
  decide_cmp. reflexivity.
Qed.

Lemma encode_length (s : pystr) (bs : bytes) :
  encode s = Some bs -> (List.length s <= List.length bs)%nat.
Proof.
  revert bs. induction s as [|c s IH]; intros bs H.
  - simpl. lia.
  - simpl in H. destruct (utf8_char c) as [b|] eqn:Hc; [|discriminate].
    destruct (encode s) as [r|]; [|discriminate].
    injection H as <-. apply utf8_char_length in Hc.
    specialize (IH r eq_refl). rewrite length_app. simpl. lia.
Qed.

Lemma decode_fuel_encode (s : pystr) (bs : bytes) (fuel : nat) :
  encode s = Some bs -> (List.length s <= fuel)%nat ->
  decode_fuel fuel bs = Some s.
Proof.
  revert bs fuel. induction s as [|c s IH]; intros bs fuel H Hf.
  - injection H as <-. destruct fuel; reflexivity.
  - simpl in H. destruct (utf8_char c) as [b|] eqn:Hc; [|discriminate].
    destruct (encode s) as [r|] eqn:Hr; [|discriminate].
    injection H as <-. destruct fuel as [|fuel]; [simpl in Hf; lia|].
    rewrite (decode_utf8_char _ _ _ _ Hc).
    rewrite (IH r fuel eq_refl) by (simpl in Hf; lia). reflexivity.
Qed.

Lemma decode_encode (s : pystr) (bs : bytes) :
  encode s = Some bs -> decode bs = Some s.
Proof.
  intros H. apply decode_fuel_encode; [assumption|].
  now apply encode_length.
Qed.

(** ** The transport *)

Lemma recv_delivers (n : nat) (c : connection) :
  all_deliver (recv_script c) = true -> (1 <= n)%nat ->
  exists m c',
    recv n c = (Return (firstn m (incoming c)), c')
    /\ (1 <= m <= n)%nat
    /\ incoming c' = skipn m (incoming c)
    /\ all_deliver (recv_script c') = true
    /\ outgoing c' = outgoing c
    /\ send_script c' = send_script c.
Proof.
  intros Hs Hn. unfold recv, all_deliver in *.
  destruct (recv_script c) as [|[k|args] script] eqn:E; simpl in Hs.
  - exists n. eexists. repeat split; cbn [incoming recv_script outgoing send_script]; auto; lia.
  - exists (Nat.min n (Nat.max 1 k)). eexists.
    repeat split; cbn [incoming recv_script outgoing send_script]; auto; lia.
  - discriminate.
Qed.

Lemma recv_loop_done (fuel : nat) (messlen : Z) (mess : bytes)
  (c : connection) :
  messlen <= Z.of_nat (List.length mess) ->
  recv_loop fuel messlen mess c = Some (Return mess, c).
Proof.
  intros H. apply Z.ltb_ge in H. destruct fuel; simpl; now rewrite H.
Qed.

Lemma recv_loop_more (fuel : nat) (messlen : Z) (mess : bytes)
  (c : connection) :
  Z.of_nat (List.length mess) < messlen ->
  recv_loop (S fuel) messlen mess c =
  match recv (Z.to_nat (messlen - Z.of_nat (List.length mess))) c with
  | (Return chunk, c') => recv_loop fuel messlen (mess ++ chunk) c'
  | (Raise e, c') => Some (Raise e, c')
  end.
Proof.
  intros H. apply Z.ltb_lt in H. simpl. now rewrite H.
Qed.

(** The loop reads what is missing and nothing more, however the
    transport cuts it, once every call delivers. *)
Lemma recv_loop_complete (fuel : nat) :
  forall (rest more mess : bytes) (c : connection),
    all_deliver (recv_script c) = true ->
    incoming c = rest ++ more ->
    (List.length rest <= fuel)%nat ->
    exists c',
      recv_loop fuel (Z.of_nat (List.length mess + List.length rest)) mess c
      = Some (Return (mess ++ rest), c')
      /\ incoming c' = more
      /\ all_deliver (recv_script c') = true
      /\ outgoing c' = outgoing c
      /\ send_script c' = send_script c.
Proof.
  induction fuel as [|fuel IH]; intros rest more mess c Hs Hin Hf.
  - destruct rest; [|simpl in Hf; lia].
    exists c. rewrite recv_loop_done by (simpl; lia).
    rewrite app_nil_r. auto.
  - destruct rest as [|b rest'] eqn:Er.
    { exists c. rewrite recv_loop_done by (simpl; lia).
      rewrite app_nil_r. auto. }
    rewrite <- Er in *. assert (Hpos : (1 <= List.length rest)%nat)
      by (rewrite Er; simpl; lia).
    rewrite recv_loop_more by lia.
    replace (Z.to_nat _) with (List.length rest) by lia.
    destruct (recv_delivers (List.length rest) c Hs Hpos)
      as (m & c1 & Hr & Hm & Hi & Hs1 & Ho & Hss).
    rewrite Hr. rewrite Hin in *.
    rewrite firstn_app, skipn_app in *.
    replace (m - List.length rest)%nat with 0%nat in * by lia.
    rewrite firstn_O, skipn_O, app_nil_r in *.
    destruct (IH (skipn m rest) more (mess ++ firstn m rest) c1 Hs1 Hi)
      as (c' & Hl & Hi' & Hs' & Ho' & Hss').
    { rewrite length_skipn. lia. }
    exists c'. rewrite length_app, length_firstn, length_skipn in Hl.
    replace (List.length mess + Nat.min m (List.length rest)
             + (List.length rest - m))%nat
      with (List.length mess + List.length rest)%nat in Hl by lia.
    rewrite Hl, <- app_assoc, firstn_skipn.
    repeat split; congruence.
Qed.

(** The loop never ends when the peer has closed before the announced
    length is there: every further read is empty. *)
Lemma recv_loop_starved (fuel : nat) :
  forall (messlen : Z) (mess : bytes) (c : connection),
    all_deliver (recv_script c) = true ->
    Z.of_nat (List.length mess + List.length (incoming c)) < messlen ->
    recv_loop fuel messlen mess c = None.
Proof.
  induction fuel as [|fuel IH]; intros messlen mess c Hs Hlt.
  - simpl. replace (_ <? _) with true; [reflexivity|].
    symmetry. apply Z.ltb_lt. lia.
  - rewrite recv_loop_more by lia.
    assert (Hn : (1 <= Z.to_nat (messlen - Z.of_nat (List.length mess)))%nat)
      by lia.
    destruct (recv_delivers _ c Hs Hn)
      as (m & c1 & Hr & Hm & Hi & Hs1 & Ho & Hss).
    rewrite Hr. apply IH; [assumption|].
    rewrite Hi, length_app, length_firstn, length_skipn. lia.
Qed.

Lemma recv_prefix (c : connection) (prefix rest : bytes) :
  prefix_at_once (recv_script c) = true ->
  all_deliver (recv_script c) = true ->
  incoming c = prefix ++ rest -> List.length prefix = 4%nat ->
  exists c1,
    recv 4 c = (Return prefix, c1)
    /\ incoming c1 = rest
    /\ all_deliver (recv_script c1) = true
    /\ outgoing c1 = outgoing c
    /\ send_script c1 = send_script c.
Proof.
  intros Hp Hs Hin Hl. unfold recv.
  assert (F : firstn 4 (incoming c) = prefix /\ skipn 4 (incoming c) = rest).
  { rewrite Hin.
    destruct prefix as [|p0 [|p1 [|p2 [|p3 [|]]]]]; try discriminate.
    split; reflexivity. }
  destruct F as [F K].
  unfold all_deliver in *.
  destruct (recv_script c) as [|[k|args] script];
    cbn [prefix_at_once forallb delivers andb] in Hp, Hs.
  - eexists. rewrite F. repeat split; cbn [incoming recv_script outgoing send_script]; auto.
  - apply Nat.leb_le in Hp.
    replace (Nat.min 4 (Nat.max 1 k)) with 4%nat by lia.
    eexists. rewrite F. repeat split; cbn [incoming recv_script outgoing send_script]; auto.
  - discriminate.
Qed.

(** A whole frame is read back as it was laid out, prefix included, and
    what follows it stays unread. *)
Lemma read_frame_complete (fuel : nat) (c : connection)
  (payload data more : bytes) :
  frame payload = Return data ->
  prefix_at_once (recv_script c) = true ->
  all_deliver (recv_script c) = true ->
  incoming c = data ++ more ->
  (List.length payload <= fuel)%nat ->
  exists c',
    read_frame fuel c = Some (Return (Some data), c')
    /\ incoming c' = more
    /\ outgoing c' = outgoing c.
Proof.
  unfold frame. intros Hfr Hp Hs Hin Hf.
  destruct (struct_pack (Z.of_nat (List.length payload)))
    as [prefix|] eqn:Hpk; [|discriminate].
  simpl in Hfr. injection Hfr as <-.
  pose proof (struct_pack_length _ _ Hpk) as Hl.
  pose proof (struct_unpack_pack _ _ Hpk) as Hu.
  rewrite <- app_assoc in Hin.
  destruct (recv_prefix c prefix (payload ++ more) Hp Hs Hin Hl)
    as (c1 & Hr & Hi1 & Hs1 & Ho1 & _).
  unfold read_frame. rewrite Hr.
  destruct prefix as [|p0 prefix']; [discriminate|].
  rewrite Hu.
  destruct (recv_loop_complete fuel payload more (p0 :: prefix') c1 Hs1 Hi1 Hf)
    as (c' & Hloop & Hi' & _ & Ho' & _).
  replace (Z.of_nat (List.length payload) + 4)
    with (Z.of_nat (List.length (p0 :: prefix') + List.length payload))
    by lia.
  rewrite Hloop. exists c'. repeat split; congruence.
Qed.

(** A first read of one, two or three bytes ends in [struct.error]. *)
Lemma read_frame_short_prefix (fuel : nat) (c c1 : connection)
  (chunk : bytes) :
  recv 4 c = (Return chunk, c1) ->
  (0 < List.length chunk < 4)%nat ->
  read_frame fuel c = Some (Raise StructError, c1).
Proof.
  intros Hr Hl. unfold read_frame. rewrite Hr.
  destruct chunk as [|b0 [|b1 [|b2 [|b3 chunk]]]];
    simpl in Hl; try lia; reflexivity.
Qed.

(** ** [_send] *)

Lemma frame_inv (payload data : bytes) :
  frame payload = Return data ->
  exists prefix,
    struct_pack (Z.of_nat (List.length payload)) = Return prefix
    /\ data = prefix ++ payload.
Proof.
  unfold frame. destruct (struct_pack _) as [prefix|]; [|discriminate].
  simpl. intros H. injection H as <-. eauto.
Qed.

(** A [_send] that returns has written one frame, whole, after what was
    written before, and has not touched the reading side. *)
Lemma _send_inv (message : pystr) (c c' : connection) :
  _send message c = (Return tt, c') ->
  exists payload data,
    encode message = Some payload
    /\ frame payload = Return data
    /\ outgoing c' = outgoing c ++ data
    /\ incoming c' = incoming c
    /\ recv_script c' = recv_script c.
Proof.
  unfold _send.
  destruct (encode message) as [payload|]; [|discriminate].
  destruct (frame payload) as [data|] eqn:Hfr; [|discriminate].
  unfold sendall.
  destruct (send_script c) as [|[|written args] script].
  - intros H. injection H as <-. exists payload, data. auto.
  - intros H. injection H as <-. exists payload, data. auto.
  - destruct args as [|a0 [|a1 [|a2 args]]]; discriminate.
Qed.

(** With text that encodes on fewer than [2^32] bytes and a transport
    that accepts the write, [_send] returns. *)
Lemma _send_returns (message : pystr) (payload : bytes) (c : connection) :
  encode message = Some payload ->
  Z.of_nat (List.length payload) < two32 ->
  send_script c = [] ->
  exists c', _send message c = (Return tt, c').
Proof.
  intros He Hl Hs. unfold _send, frame. rewrite He.
  destruct (struct_pack_ok (Z.of_nat (List.length payload))) as [b Hb];
    [lia|].
  rewrite Hb. simpl. unfold sendall. rewrite Hs. eauto.
Qed.

(** C7: for every text message sent, the four-byte big-endian prefix
    written on the wire equals the byte length of the UTF-8 encoding of
    the payload that follows it, not the number of characters. *)
Theorem send_prefix_is_byte_length (message : pystr) (c c' : connection) :
  _send message c = (Return tt, c') ->
  exists prefix payload,
    encode message = Some payload
    /\ outgoing c' = outgoing c ++ prefix ++ payload
    /\ List.length prefix = 4%nat
    /\ struct_unpack prefix = Return (Z.of_nat (List.length payload)).
Proof.
  intros H. destruct (_send_inv _ _ _ H) as (payload & data & He & Hfr & Ho & _).
  destruct (frame_inv _ _ Hfr) as (prefix & Hpk & ->).
  exists prefix, payload. repeat split; auto.
  - eapply struct_pack_length; eassumption.
  - now apply struct_unpack_pack.
Qed.

(** The text is one character long and its payload three bytes: the
    prefix says three. *)
Lemma send_prefix_is_byte_length_witness :
  exists prefix payload,
    encode [8364] = Some payload
    /\ outgoing (snd (_send [8364] (peer_sends [] [])))
       = outgoing (peer_sends [] []) ++ prefix ++ payload
    /\ List.length prefix = 4%nat
    /\ struct_unpack prefix = Return (Z.of_nat (List.length payload)).
Proof.
  apply (send_prefix_is_byte_length [8364] (peer_sends [] [])).
  reflexivity.
Defined.

(** ** [sensorupdate] *)

(** C9: for every argument that is not a mapping, [sensorupdate] raises
    [TypeError] at once and sends nothing: the connection is left as it
    was. *)
Theorem sensorupdate_type_guard (data : pyval) (c : connection) :
  is_dict data = false ->
  sensorupdate data c = (Raise (TypeError (lit "Expected a dict")), c).
Proof.
  destruct data; simpl; intros H; [reflexivity | reflexivity | discriminate].
Qed.

Lemma sensorupdate_type_guard_witness :
  sensorupdate (PyList [AStr (lit "x"); AInt 5]) (peer_sends [] [])
  = (Raise (TypeError (lit "Expected a dict")), peer_sends [] []).
Proof.
  apply (sensorupdate_type_guard (PyList [AStr (lit "x"); AInt 5])).
  reflexivity.
Defined.

(** ** [receive] *)

Lemma receive_raw (fuel : nat) (c c' : connection) (mess : bytes) :
  read_frame fuel c = Some (Return (Some mess), c') ->
  mess <> [] ->
  receive fuel 2 c = Some (Return (RRaw mess), c').
Proof.
  intros H Hne. unfold receive. rewrite H. unfold deliver.
  destruct mess; [congruence|reflexivity].
Qed.

(** C1, as the code has it: for every text that [_send] sends, [receive]
    in raw mode on the peer end returns the whole frame, the four-byte
    length of the payload followed by the UTF-8 bytes of the text, once
    the first read hands over the prefix together and no read fails; the
    prefix is part of the result, and the bytes after it decode to the
    text. *)
Theorem send_receive_roundtrip (P : pystr) (c0 c : connection)
  (script : list recv_event) (fuel : nat) :
  outgoing c0 = [] ->
  _send P c0 = (Return tt, c) ->
  prefix_at_once script = true ->
  all_deliver script = true ->
  (List.length (outgoing c) <= fuel)%nat ->
  exists prefix payload c',
    encode P = Some payload
    /\ struct_pack (Z.of_nat (List.length payload)) = Return prefix
    /\ receive fuel 2 (loopback c script)
       = Some (Return (RRaw (prefix ++ payload)), c')
    /\ incoming c' = []
    /\ decode (skipn 4 (prefix ++ payload)) = Some P.
Proof.
  intros H0 Hs Hp Ha Hf.
  destruct (_send_inv _ _ _ Hs) as (payload & data & He & Hfr & Ho & _).
  destruct (frame_inv _ _ Hfr) as (prefix & Hpk & Hd).
  pose proof (struct_pack_length _ _ Hpk) as Hl.
  rewrite H0 in Ho. simpl in Ho.
  assert (Hf' : (List.length payload <= fuel)%nat).
  { rewrite Ho, Hd, length_app in Hf. lia. }
  destruct (read_frame_complete fuel (loopback c script) payload data []
              Hfr Hp Ha) as (c' & Hr & Hi & _); [|assumption|].
  { unfold loopback, peer_sends. cbn [incoming].
    rewrite Ho. symmetry. apply app_nil_r. }
  exists prefix, payload, c'. subst data.
  rewrite ?Hd in Hr. repeat split; auto.
  - apply receive_raw; [assumption|].
    destruct prefix; [discriminate|]. discriminate.
  - destruct prefix as [|p0 [|p1 [|p2 [|p3 [|]]]]]; try discriminate.
    cbn [skipn app]. now apply decode_encode.
Qed.

Lemma send_receive_roundtrip_witness :
  exists prefix payload c',
    encode (lit "hi" ++ [8364]) = Some payload
    /\ struct_pack (Z.of_nat (List.length payload)) = Return prefix
    /\ receive 9 2
         (loopback (snd (_send (lit "hi" ++ [8364]) (peer_sends [] [])))
                   [Deliver 4; Deliver 1; Deliver 3])
       = Some (Return (RRaw (prefix ++ payload)), c')
    /\ incoming c' = []
    /\ decode (skipn 4 (prefix ++ payload)) = Some (lit "hi" ++ [8364]).
Proof.
  apply (send_receive_roundtrip (lit "hi" ++ [8364]) (peer_sends [] []));
    reflexivity || (vm_compute; lia).
Defined.

(** C1 as the specification words it fails already on [hi]: what
    [receive] returns is not the payload, and does not decode to the
    text. *)
Lemma receive_returns_prefix_too :
  exists c mess c',
    _send (lit "hi") (peer_sends [] []) = (Return tt, c)
    /\ receive 2 2 (loopback c []) = Some (Return (RRaw mess), c')
    /\ Some mess <> encode (lit "hi")
    /\ decode mess <> Some (lit "hi").
Proof.
  eexists. eexists. eexists.
  split; [reflexivity|]. split; [vm_compute; reflexivity|].
  split; vm_compute; discriminate.
Qed.

Lemma all_deliver_map (ks : list nat) : all_deliver (map Deliver ks) = true.
Proof. induction ks; simpl; auto. Qed.

(** X7: when the first read hands over the four bytes of the prefix,
    [receive] returns the whole frame in raw mode however the later
    reads are cut, short reads included, and leaves the bytes that
    follow the frame unread; as many iterations as the payload has
    bytes are enough. *)
Lemma receive_loops_on_short_reads (fuel : nat) (c : connection)
  (payload data more : bytes) :
  frame payload = Return data ->
  prefix_at_once (recv_script c) = true ->
  all_deliver (recv_script c) = true ->
  incoming c = data ++ more ->
  (List.length payload <= fuel)%nat ->
  exists c',
    receive fuel 2 c = Some (Return (RRaw data), c') /\ incoming c' = more.
Proof.
  intros Hfr Hp Ha Hin Hf.
  destruct (read_frame_complete fuel c payload data more Hfr Hp Ha Hin Hf)
    as (c' & Hr & Hi & _).
  exists c'. split; [|assumption].
  apply receive_raw; [assumption|].
  destruct (frame_inv _ _ Hfr) as (prefix & Hpk & ->).
  apply struct_pack_length in Hpk. destruct prefix; discriminate.
Qed.

Lemma receive_loops_on_short_reads_witness :
  exists c',
    receive 2 2
      (peer_sends [x00; x00; x00; x02; x68; x69; x00; x00]
         [Deliver 4; Deliver 1; Deliver 1])
    = Some (Return (RRaw [x00; x00; x00; x02; x68; x69]), c')
    /\ incoming c' = [x00; x00].
Proof.
  apply (receive_loops_on_short_reads 2
           (peer_sends [x00; x00; x00; x02; x68; x69; x00; x00]
              [Deliver 4; Deliver 1; Deliver 1])
           [x68; x69] [x00; x00; x00; x02; x68; x69] [x00; x00]);
    reflexivity.
Defined.

(** The peer closed before any byte: [None], in every mode. *)
Lemma receive_end_of_stream (fuel : nat) (noparse : Z) (c : connection) :
  all_deliver (recv_script c) = true ->
  incoming c = [] ->
  exists c', receive fuel noparse c = Some (Return RNone, c').
Proof.
  intros Ha Hin.
  destruct (recv_delivers 4 c Ha) as (m & c1 & Hr & _); [lia|].
  rewrite Hin, firstn_nil in Hr.
  exists c1. unfold receive, read_frame. now rewrite Hr.
Qed.

(** The peer closed inside the prefix, or the first read is short:
    [struct.error], which the handler does not catch. *)
Lemma receive_short_prefix (fuel : nat) (noparse : Z) (c : connection) :
  all_deliver (recv_script c) = true ->
  (0 < List.length (incoming c) < 4)%nat ->
  exists c', receive fuel noparse c = Some (Raise StructError, c').
Proof.
  intros Ha Hl.
  destruct (recv_delivers 4 c Ha) as (m & c1 & Hr & Hm & _); [lia|].
  exists c1. unfold receive.
  rewrite (read_frame_short_prefix fuel c c1 _ Hr); [reflexivity|].
  rewrite length_firstn. lia.
Qed.

Lemma receive_short_first_read (fuel : nat) (noparse : Z) (k : nat)
  (c : connection) (script : list recv_event) :
  recv_script c = Deliver k :: script ->
  (k < 4)%nat -> incoming c <> [] ->
  exists c', receive fuel noparse c = Some (Raise StructError, c').
Proof.
  intros Hs Hk Hne.
  eexists. unfold receive.
  erewrite read_frame_short_prefix; [reflexivity | |].
  - unfold recv. rewrite Hs. reflexivity.
  - rewrite length_firstn. destruct (incoming c); [congruence|].
    simpl List.length. lia.
Qed.

(** The peer closed inside the payload: the loop reads nothing for ever;
    no number of iterations ends it, and nothing is raised. *)
Lemma receive_starved (fuel : nat) (noparse : Z) (c : connection)
  (prefix part : bytes) (n : Z) :
  prefix_at_once (recv_script c) = true ->
  all_deliver (recv_script c) = true ->
  incoming c = prefix ++ part ->
  struct_unpack prefix = Return n ->
  Z.of_nat (List.length part) < n ->
  receive fuel noparse c = None.
Proof.
  intros Hp Ha Hin Hu Hl.
  assert (H4 : List.length prefix = 4%nat).
  { destruct prefix as [|p0 [|p1 [|p2 [|p3 [|]]]]]; try discriminate.
    reflexivity. }
  destruct (recv_prefix c prefix part Hp Ha Hin H4)
    as (c1 & Hr & Hi1 & Ha1 & _).
  unfold receive, read_frame. rewrite Hr.
  destruct prefix as [|p0 prefix']; [discriminate|].
  rewrite Hu, recv_loop_starved; [reflexivity|assumption|].
  rewrite Hi1, H4. lia.
Qed.

(** C3, as the code behaves: on a connection closed before any byte
    [receive] returns [None]; closed after two of the four prefix bytes
    it raises [struct.error], which is not the connection error; closed
    after two of five announced payload bytes it never returns. *)
Theorem receive_on_closed_connection (fuel : nat) (noparse : Z)
  (ks : list nat) (b0 b1 : byte) :
  (exists c',
     receive fuel noparse (peer_sends [] (map Deliver ks))
     = Some (Return RNone, c'))
  /\ (exists c',
        receive fuel noparse (peer_sends [b0; b1] (map Deliver ks))
        = Some (Raise StructError, c'))
  /\ receive fuel noparse
       (peer_sends [x00; x00; x00; x05; b0; b1] (map Deliver (4%nat :: ks)))
     = None.
Proof.
  split; [|split].
  - apply receive_end_of_stream; [apply all_deliver_map | reflexivity].
  - apply receive_short_prefix; [apply all_deliver_map | simpl; lia].
  - apply (receive_starved fuel noparse _ [x00; x00; x00; x05] [b0; b1] 5).
    + reflexivity.
    + apply (all_deliver_map (4%nat :: ks)).
    + reflexivity.
    + reflexivity.
    + simpl. lia.
Qed.

(** C4, as the code behaves: when the transport hands over one byte per
    read, the first read holds one byte of the prefix and [receive]
    raises [struct.error], whatever frame follows; so it is for the frame
    of ten thousand bytes. *)
Theorem receive_one_byte_per_read (fuel : nat) (noparse : Z) (b : byte)
  (input : bytes) (script : list recv_event) :
  receive fuel noparse (peer_sends (b :: input) (Deliver 1 :: script))
  = Some (Raise StructError, peer_sends input script)
  /\ exists data c',
       frame (repeat x61 (Z.to_nat 10000)) = Return data
       /\ Z.of_nat (List.length data) = 10004
       /\ receive fuel noparse
            (peer_sends data (repeat (Deliver 1) (Z.to_nat 10004)))
          = Some (Raise StructError, c').
Proof.
  split.
  - unfold receive.
    rewrite (read_frame_short_prefix fuel _ (peer_sends input script) [b]);
      [reflexivity | reflexivity | simpl; lia].
  - eexists. eexists. split; [reflexivity|]. split; [reflexivity|].
    unfold receive. erewrite read_frame_short_prefix;
      [reflexivity | reflexivity | simpl; lia].
Qed.

(** ** The string methods *)

Lemma strip_prefix_self (l s : pystr) : strip_prefix l (l ++ s) = Some s.
Proof.
  induction l as [|x l IH]; simpl; [reflexivity|].
  now rewrite Z.eqb_refl.
Qed.

Lemma strip_prefix_app (p s r : pystr) :
  strip_prefix p s = Some r -> s = p ++ r.
Proof.
  revert s. induction p as [|x p IH]; intros s H; simpl in *.
  - congruence.
  - destruct s as [|y s]; [discriminate|].
    destruct (Z.eqb_spec x y); [|discriminate].
    subst y. f_equal. now apply IH.
Qed.

(** A character that [old] does not hold, put after [s], changes nothing
    to whether [old] starts [s]. *)
Lemma strip_prefix_snoc (old s : pystr) (q : Z) :
  old <> [] -> mem q old = false ->
  strip_prefix old (s ++ [q])
  = option_map (fun r => r ++ [q]) (strip_prefix old s).
Proof.
  revert s. induction old as [|x old IH]; intros s Hne Hq; [congruence|].
  simpl in Hq. apply orb_false_iff in Hq. destruct Hq as [Hx Hq].
  destruct s as [|y s]; simpl.
  - rewrite Z.eqb_sym, Hx. reflexivity.
  - destruct (x =? y); [|reflexivity].
    destruct old as [|x' old']; [reflexivity|].
    apply IH; [discriminate | assumption].
Qed.

Lemma replace_go_skip (old new t s : pystr) :
  replace_go old new (List.length t) (t ++ s) = replace_go old new O s.
Proof. induction t as [|c t IH]; simpl; auto. Qed.

Lemma replace_go_match (old new s : pystr) (x : Z) :
  replace_go (x :: old) new O ((x :: old) ++ s)
  = new ++ replace_go (x :: old) new O s.
Proof.
  cbn [replace_go app].
  change (x :: old ++ s) with ((x :: old) ++ s).
  rewrite strip_prefix_self. cbn [List.length Nat.pred].
  now rewrite replace_go_skip.
Qed.

Lemma replace_go_nomatch (old new s : pystr) (c : Z) :
  strip_prefix old (c :: s) = None ->
  replace_go old new O (c :: s) = c :: replace_go old new O s.
Proof. intros H. cbn [replace_go]. now rewrite H. Qed.

(** [replace] and a last character that [old] does not hold. *)
Lemma replace_go_snoc (old new : pystr) (q : Z) :
  old <> [] -> mem q old = false ->
  forall (s : pystr) (skip : nat),
    (skip <= List.length s)%nat ->
    replace_go old new skip (s ++ [q]) = replace_go old new skip s ++ [q].
Proof.
  intros Hne Hq. induction s as [|c s IH]; intros skip Hs.
  - destruct skip; [|simpl in Hs; lia].
    cbn [app replace_go].
    change [q] with ([] ++ [q]) at 1.
    rewrite (strip_prefix_snoc old [] q Hne Hq).
    destruct old; [congruence|]. reflexivity.
  - destruct skip as [|k].
    + cbn [app replace_go].
      change (c :: s ++ [q]) with ((c :: s) ++ [q]).
      rewrite (strip_prefix_snoc old (c :: s) q Hne Hq).
      destruct (strip_prefix old (c :: s)) as [r|] eqn:E; cbn [option_map].
      * rewrite IH, app_assoc; [reflexivity|].
        apply strip_prefix_app in E.
        apply (f_equal (@List.length Z)) in E.
        rewrite length_app in E. simpl in E.
        destruct old; [congruence|]. simpl in *. lia.
      * rewrite IH by lia. reflexivity.
    + cbn [app replace_go]. apply IH. simpl in Hs. lia.
Qed.

Lemma strip_by_cons (drop : Z -> bool) (a : Z) (s : pystr) :
  drop a = true -> strip_by drop (a :: s) = strip_by drop s.
Proof. intros H. unfold strip_by. simpl. now rewrite H. Qed.

Lemma lstrip_by_snoc (drop : Z -> bool) (a : Z) (s : pystr) :
  drop a = true ->
  lstrip_by drop (s ++ [a])
  = match lstrip_by drop s with
    | [] => []
    | l => l ++ [a]
    end.
Proof.
  intros H. induction s as [|c s IH]; simpl.
  - now rewrite H.
  - destruct (drop c); [assumption | reflexivity].
Qed.

Lemma strip_by_snoc (drop : Z -> bool) (a : Z) (s : pystr) :
  drop a = true -> strip_by drop (s ++ [a]) = strip_by drop s.
Proof.
  intros H. unfold strip_by. rewrite (lstrip_by_snoc drop a s H).
  destruct (lstrip_by drop s) as [|x l]; [reflexivity|].
  rewrite rev_app_distr. simpl rev at 2. cbn [app lstrip_by].
  now rewrite H.
Qed.

(** ** The matcher *)

Lemma rmatch_seq (a b : regex) (s : pystr) (k : pystr -> option pystr) :
  rmatch (RSeq a b) s k = rmatch a s (fun s1 => rmatch b s1 k).
Proof. reflexivity. Qed.

Lemma rmatch_lit (l s : pystr) (k : pystr -> option pystr) :
  rmatch (RLit l) (l ++ s) k = k s.
Proof. cbn [rmatch]. now rewrite strip_prefix_self. Qed.

Lemma rmatch_set (cs : list Z) (c : Z) (s : pystr)
  (k : pystr -> option pystr) :
  mem c cs = true -> rmatch (RSet cs) (c :: s) k = k s.
Proof. intros H. cbn [rmatch]. now rewrite H. Qed.

Lemma rmatch_dot (c : Z) (s : pystr) (k : pystr -> option pystr) :
  (c =? nl) = false -> rmatch RDot (c :: s) k = k s.
Proof. intros H. cbn [rmatch]. now rewrite H. Qed.

(** [[^...]*] takes every character up to the first excluded one when
    what follows matches there. *)
Lemma star_loop_notset (cs : list Z) (q : Z) (rest : pystr)
  (k : pystr -> option pystr) (r : pystr) :
  mem q cs = true -> k (q :: rest) = Some r ->
  forall (t : pystr) (n : nat),
    forallb (fun c => negb (mem c cs)) t = true ->
    (List.length t <= n)%nat ->
    star_loop (rmatch (RNotSet cs)) k n (t ++ q :: rest) = Some r.
Proof.
  intros Hq Hk. induction t as [|c t IH]; intros n Ht Hn.
  - destruct n; cbn [app star_loop rmatch]; [assumption|].
    now rewrite Hq.
  - destruct n as [|n]; [simpl in Hn; lia|].
    cbn [forallb] in Ht. apply andb_true_iff in Ht. destruct Ht as [Hc Ht].
    apply negb_true_iff in Hc.
    cbn [app star_loop rmatch]. rewrite Hc.
    replace (_ <? _)%nat with true
      by (symmetry; apply Nat.ltb_lt; simpl; lia).
    rewrite IH; [reflexivity | assumption | simpl in Hn; lia].
Qed.

Lemma rmatch_star_notset (cs : list Z) (q : Z) (t rest : pystr)
  (k : pystr -> option pystr) (r : pystr) :
  mem q cs = true -> k (q :: rest) = Some r ->
  forallb (fun c => negb (mem c cs)) t = true ->
  rmatch (RStar (RNotSet cs)) (t ++ q :: rest) k = Some r.
Proof.
  intros Hq Hk Ht. cbn [rmatch].
  apply star_loop_notset; auto. rewrite length_app. lia.
Qed.

Lemma search_skip (r : regex) (c : Z) (s : pystr) :
  match_here r (c :: s) = None -> search r (c :: s) = search r s.
Proof. intros H. cbn [search]. now rewrite H. Qed.

Lemma findall_go_skip (r : regex) (t s : pystr) :
  findall_go r (List.length t) (t ++ s) = findall_go r O s.
Proof. induction t as [|c t IH]; simpl; auto. Qed.

(** A match that is not empty is reported and the search resumes at its
    end. *)
Lemma findall_go_match (r : regex) (m rest : pystr) (c : Z) :
  match_here r ((c :: m) ++ rest) = Some rest ->
  findall_go r O ((c :: m) ++ rest) = (c :: m) :: findall_go r O rest.
Proof.
  intros H. cbn [findall_go app] in *. rewrite H.
  unfold matched. cbn [List.length]. rewrite length_app.
  replace (S (List.length m + List.length rest) - List.length rest)%nat
    with (S (List.length m)) by lia.
  cbn [Nat.pred firstn]. rewrite findall_go_skip.
  now rewrite firstn_app, firstn_all, Nat.sub_diag, firstn_O, app_nil_r.
Qed.

Lemma findall_go_nomatch (r : regex) (c : Z) (s : pystr) :
  match_here r (c :: s) = None ->
  findall_go r O (c :: s) = findall_go r O s.
Proof. intros H. cbn [findall_go]. now rewrite H. Qed.

Lemma rmatch_lit_eq (l s : pystr) (k : pystr -> option pystr) :
  rmatch (RLit l) s k
  = match strip_prefix l s with
    | Some s' => k s'
    | None => None
    end.
Proof. reflexivity. Qed.

Lemma mem_app (c : Z) (a b : list Z) : mem c (a ++ b) = mem c a || mem c b.
Proof. unfold mem. apply existsb_app. Qed.

Lemma mem_cons_false (q c : Z) (t : list Z) :
  mem q (c :: t) = false -> (q =? c) = false /\ mem q t = false.
Proof. unfold mem. simpl. apply orb_false_iff. Qed.

Lemma forallb_not_quote (q : Z) (t : pystr) :
  mem q t = false -> forallb (fun c => negb (mem c [q])) t = true.
Proof.
  induction t as [|c t IH]; intros H; [reflexivity|].
  apply mem_cons_false in H. destruct H as [Hc Ht].
  cbn [forallb]. rewrite (IH Ht). unfold mem. simpl.
  now rewrite Z.eqb_sym, Hc.
Qed.

Lemma replace_nonempty (old new s : pystr) :
  old <> [] -> replace old new s = replace_go old new O s.
Proof. destruct old; [congruence | reflexivity]. Qed.

Lemma replace_go_match_app (old new s : pystr) :
  old <> [] ->
  replace_go old new O (old ++ s) = new ++ replace_go old new O s.
Proof. destruct old; [congruence|]. intros _. apply replace_go_match. Qed.

Lemma findall_go_match_app (r : regex) (s m rest : pystr) :
  s = m ++ rest -> m <> [] -> match_here r s = Some rest ->
  findall_go r O s = m :: findall_go r O rest.
Proof.
  intros -> Hm H. destruct m as [|c m]; [congruence|].
  now apply findall_go_match.
Qed.

(** ** The matcher on one group of [sensorupdate_re] *)

Lemma rmatch_notset (cs : list Z) (c : Z) (s : pystr)
  (k : pystr -> option pystr) :
  rmatch (RNotSet cs) (c :: s) k = if mem c cs then None else k s.
Proof. reflexivity. Qed.

Lemma rmatch_notset_nil (cs : list Z) (k : pystr -> option pystr) :
  rmatch (RNotSet cs) [] k = None.
Proof. reflexivity. Qed.

(** [[^...]*] gives back the last character it took when what follows
    does not match after it and matches before it. *)
Lemma star_loop_notset_backoff (cs : list Z) (b : Z) (rest : pystr)
  (k : pystr -> option pystr) (x : pystr) :
  mem b cs = false ->
  match rest with [] => true | q :: _ => mem q cs end = true ->
  k rest = None ->
  k (b :: rest) = Some x ->
  forall (t : pystr) (n : nat),
    forallb (fun c => negb (mem c cs)) t = true ->
    (List.length t <= n)%nat ->
    star_loop (rmatch (RNotSet cs)) k n (t ++ b :: rest) = Some x.
Proof.
  intros Hb Hrest Hk0 Hk1. induction t as [|c t IH]; intros n Ht Hn.
  - destruct n as [|n]; cbn [app star_loop]; [assumption|].
    rewrite rmatch_notset, Hb.
    replace (_ <? _)%nat with true
      by (symmetry; apply Nat.ltb_lt; simpl; lia).
    assert (E : star_loop (rmatch (RNotSet cs)) k n rest = None).
    { destruct n as [|n]; cbn [star_loop]; [assumption|].
      destruct rest as [|q rest'].
      - now rewrite rmatch_notset_nil.
      - now rewrite rmatch_notset, Hrest. }
    now rewrite E.
  - destruct n as [|n]; [simpl in Hn; lia|].
    cbn [forallb] in Ht. apply andb_true_iff in Ht. destruct Ht as [Hc Ht].
    apply negb_true_iff in Hc.
    cbn [app star_loop]. rewrite rmatch_notset, Hc.
    replace (_ <? _)%nat with true
      by (symmetry; apply Nat.ltb_lt; simpl; lia).
    rewrite IH; [reflexivity | assumption | simpl in Hn; lia].
Qed.

Lemma rmatch_star_notset_backoff (cs : list Z) (b : Z) (t rest : pystr)
  (k : pystr -> option pystr) (x : pystr) :
  mem b cs = false ->
  match rest with [] => true | q :: _ => mem q cs end = true ->
  k rest = None ->
  k (b :: rest) = Some x ->
  forallb (fun c => negb (mem c cs)) t = true ->
  rmatch (RStar (RNotSet cs)) (t ++ b :: rest) k = Some x.
Proof.
  intros. cbn [rmatch]. apply star_loop_notset_backoff; auto.
  rewrite length_app. lia.
Qed.

Lemma rmatch_group (a : regex) (s : pystr) (k : pystr -> option pystr) :
  rmatch (RGroup a) s k = rmatch a s k.
Proof. reflexivity. Qed.

Lemma rmatch_alt (a b : regex) (s : pystr) (k : pystr -> option pystr) :
  rmatch (RAlt a b) s k
  = match rmatch a s k with
    | Some rest => Some rest
    | None => rmatch b s k
    end.
Proof. reflexivity. Qed.

Lemma rmatch_empty (s : pystr) (k : pystr -> option pystr) :
  rmatch REmpty s k = k s.
Proof. reflexivity. Qed.

Lemma rmatch_lit_cons (q c : Z) (s : pystr) (k : pystr -> option pystr) :
  rmatch (RLit [q]) (c :: s) k = if q =? c then k s else None.
Proof. cbn [rmatch strip_prefix]. now destruct (q =? c). Qed.

Lemma rmatch_set_cons (cs : list Z) (c : Z) (s : pystr)
  (k : pystr -> option pystr) :
  rmatch (RSet cs) (c :: s) k = if mem c cs then k s else None.
Proof. reflexivity. Qed.

Lemma mem_sp_sp (c : Z) : mem c [sp] = (c =? sp).
Proof. unfold mem. simpl. apply orb_false_r. Qed.

(** The optional quote and the space that close a group do not match
    where the next group starts or where the text ends. *)
Lemma group_end_none (rest : pystr) (k : pystr -> option pystr) :
  group_boundary rest = true ->
  rmatch (RGroup (RAlt (RLit [dq]) REmpty)) rest
         (fun s => rmatch (RSet [sp]) s k) = None.
Proof.
  intros H. rewrite rmatch_group, rmatch_alt, rmatch_empty.
  destruct rest as [|q [|c rest]]; try discriminate.
  - reflexivity.
  - cbn [group_boundary] in H. apply andb_true_iff in H.
    destruct H as [Hq Hc]. apply Z.eqb_eq in Hq. subst q.
    apply negb_true_iff in Hc.
    rewrite rmatch_lit_cons, Z.eqb_refl, !rmatch_set_cons, !mem_sp_sp, Hc.
    reflexivity.
Qed.

Lemma group_end_some (rest : pystr) (k : pystr -> option pystr) :
  rmatch (RGroup (RAlt (RLit [dq]) REmpty)) (sp :: rest)
         (fun s => rmatch (RSet [sp]) s k) = k rest.
Proof.
  rewrite rmatch_group, rmatch_alt, rmatch_empty, rmatch_lit_cons.
  reflexivity.
Qed.

Lemma name_value_match (c d : Z) (nt vt rest : pystr)
  (k : pystr -> option pystr) (x : pystr) :
  (c =? nl) = false ->
  forallb (fun a => negb (mem a [dq])) nt = true ->
  (d =? dq) = false -> (d =? nl) = false ->
  forallb (fun a => negb (mem a [dq])) vt = true ->
  group_boundary rest = true ->
  k rest = Some x ->
  rmatch name_value_re
    (dq :: c :: nt ++ dq :: sp :: d :: vt ++ sp :: rest) k = Some x.
Proof.
  intros Hc Hnt Hd Hdn Hvt Hb Hk.
  unfold name_value_re. cbn [rseq].
  rewrite rmatch_group, rmatch_seq, rmatch_group, rmatch_seq, rmatch_group.
  rewrite rmatch_lit_cons, Z.eqb_refl, rmatch_seq, rmatch_dot by assumption.
  rewrite rmatch_seq.
  apply rmatch_star_notset; [reflexivity | | assumption].
  rewrite rmatch_group, rmatch_lit_cons, Z.eqb_refl.
  rewrite rmatch_seq, rmatch_set_cons. cbn [mem existsb orb].
  rewrite Z.eqb_refl. cbn [orb].
  rewrite rmatch_seq, rmatch_group, rmatch_alt, rmatch_lit_cons.
  rewrite (Z.eqb_sym dq d), Hd, rmatch_empty.
  rewrite rmatch_seq, rmatch_group, rmatch_seq, rmatch_dot by assumption.
  apply rmatch_star_notset_backoff.
  - reflexivity.
  - destruct rest as [|q [|c' rest']]; try discriminate; [reflexivity|].
    cbn [group_boundary] in Hb. apply andb_true_iff in Hb.
    destruct Hb as [Hq _]. unfold mem. simpl. now rewrite Hq.
  - rewrite rmatch_seq. now apply group_end_none.
  - rewrite rmatch_seq, group_end_some. assumption.
  - assumption.
Qed.

(** ** What the matcher returns is a match *)

Lemma star_loop_sound (a : regex)
  (IH : forall s k x, rmatch a s k = Some x ->
        exists w s1, s = w ++ s1 /\ matches a w /\ k s1 = Some x)
  (k : pystr -> option pystr) (x : pystr) (n : nat) :
  forall s0, star_loop (rmatch a) k n s0 = Some x ->
  exists w s1, s0 = w ++ s1 /\ matches (RStar a) w /\ k s1 = Some x.
Proof.
  induction n as [|n IHn]; intros s0 H; cbn [star_loop] in H.
  - exists [], s0. repeat split; [constructor | assumption].
  - destruct (rmatch a s0 _) as [y|] eqn:E.
    + injection H as ->. apply IH in E.
      destruct E as (w1 & s1 & -> & Hw1 & Hk).
      destruct (_ <? _)%nat; [|discriminate].
      apply IHn in Hk. destruct Hk as (w2 & s2 & -> & Hw2 & Hk).
      exists (w1 ++ w2), s2. rewrite <- app_assoc.
      repeat split; [now constructor | assumption].
    + exists [], s0. repeat split; [constructor | assumption].
Qed.

Lemma rmatch_sound (r : regex) :
  forall (s : pystr) (k : pystr -> option pystr) (x : pystr),
    rmatch r s k = Some x ->
    exists w s1, s = w ++ s1 /\ matches r w /\ k s1 = Some x.
Proof.
  induction r as [l| |cs|cs| |a IHa|a IHa b IHb|a IHa b IHb|a IHa];
    intros s k x H; cbn [rmatch] in H.
  - destruct (strip_prefix l s) as [s'|] eqn:E; [|discriminate].
    apply strip_prefix_app in E. exists l, s'.
    repeat split; [assumption | constructor | assumption].
  - destruct s as [|c s]; [discriminate|].
    destruct (c =? nl) eqn:E; [discriminate|].
    exists [c], s. repeat split; [now constructor | assumption].
  - destruct s as [|c s]; [discriminate|].
    destruct (mem c cs) eqn:E; [|discriminate].
    exists [c], s. repeat split; [now constructor | assumption].
  - destruct s as [|c s]; [discriminate|].
    destruct (mem c cs) eqn:E; [discriminate|].
    exists [c], s. repeat split; [now constructor | assumption].
  - exists [], s. repeat split; [constructor | assumption].
  - apply IHa in H. destruct H as (w & s1 & -> & Hw & Hk).
    exists w, s1. repeat split; [now constructor | assumption].
  - apply IHa in H. destruct H as (w1 & s1 & -> & Hw1 & Hk).
    apply IHb in Hk. destruct Hk as (w2 & s2 & -> & Hw2 & Hk).
    exists (w1 ++ w2), s2. rewrite <- app_assoc.
    repeat split; [now constructor | assumption].
  - destruct (rmatch a s k) as [y|] eqn:E.
    + injection H as ->. apply IHa in E.
      destruct E as (w & s1 & -> & Hw & Hk).
      exists w, s1. repeat split; [now apply MAltL | assumption].
    + apply IHb in H. destruct H as (w & s1 & -> & Hw & Hk).
      exists w, s1. repeat split; [now apply MAltR | assumption].
  - now apply (star_loop_sound a IHa) in H.
Qed.

Lemma match_here_sound (r : regex) (s rest : pystr) :
  match_here r s = Some rest ->
  exists w, s = w ++ rest /\ matches r w /\ matched s rest = w.
Proof.
  unfold match_here. intros H. apply rmatch_sound in H.
  destruct H as (w & s1 & -> & Hw & Hk). injection Hk as ->.
  exists w. repeat split; [assumption|]. unfold matched.
  rewrite length_app, Nat.add_sub, firstn_app, firstn_all, Nat.sub_diag.
  cbn [firstn]. apply app_nil_r.
Qed.

(** The text [re.search] returns is matched by the pattern. *)
Lemma search_sound (r : regex) (s m : pystr) :
  search r s = Some m -> matches r m.
Proof.
  induction s as [|c s IH]; cbn [search];
    destruct (match_here r _) as [rest|] eqn:E; intros H;
    try discriminate; try (now apply IH).
  - injection H as <-. apply match_here_sound in E.
    destruct E as (w & _ & Hw & ->). assumption.
  - injection H as <-. apply match_here_sound in E.
    destruct E as (w & _ & Hw & ->). assumption.
Qed.

(** ** Every match of [sensorupdate_re] ends with a space *)

Lemma matches_set_sp (w : pystr) : matches (RSet [sp]) w -> w = [sp].
Proof.
  intros H. inversion H as [| |cs c Hc| | | | | | | |]; subst.
  unfold mem in Hc. simpl in Hc. rewrite orb_false_r in Hc.
  apply Z.eqb_eq in Hc. now subst c.
Qed.

Lemma name_value_ends_with_space (w : pystr) :
  matches name_value_re w -> exists w', w = w' ++ [sp].
Proof.
  unfold name_value_re. cbn [rseq]. intros H.
  inversion H as [| | | | |a0 w0 H1| | | | |]; subst. clear H.
  repeat match goal with
  | H : matches (RSeq _ _) _ |- _ =>
    inversion H; subst; clear H
  end.
  match goal with
  | H : matches (RSet [sp]) ?v |- exists w', _ ++ _ ++ _ ++ _ ++ _ ++ ?v = _ =>
    apply matches_set_sp in H; subst v
  end.
  eexists. rewrite !app_assoc. reflexivity.
Qed.

Lemma star_name_value_ends_with_space (r : regex) (w : pystr) :
  matches r w -> r = RStar name_value_re ->
  w = [] \/ exists w', w = w' ++ [sp].
Proof.
  induction 1 as [| | | | | | | | | |a w1 w2 H1 _ H2 IH2]; intros E;
    try discriminate; [now left|].
  injection E as ->. right.
  destruct (IH2 eq_refl) as [->|[w' ->]].
  - rewrite app_nil_r. now apply name_value_ends_with_space.
  - exists (w1 ++ w'). now rewrite app_assoc.
Qed.

(** X4: on any text, what [sensorupdate_re] matches ends with a space:
    the pattern gives up a value that nothing follows, so the sensor
    text that [_parse_message] works on always ends with the space
    after the last value it took. *)
Lemma sensorupdate_match_ends_with_space (message m : pystr) :
  search sensorupdate_re message = Some m -> exists m', m = m' ++ [sp].
Proof.
  intros H. apply search_sound in H.
  unfold sensorupdate_re, RPlus in H. cbn [rseq] in H.
  inversion H as [| | | | | |a b w1 w2 _ H2| | | |]; subst. clear H.
  inversion H2 as [| | | | | |a b w3 w4 _ H4| | | |]; subst. clear H2.
  inversion H4 as [| | | | | |a b w5 w6 H5 H6| | | |]; subst. clear H4.
  destruct (star_name_value_ends_with_space _ _ H6 eq_refl) as [->|[w' ->]].
  - rewrite app_nil_r. apply name_value_ends_with_space in H5.
    destruct H5 as [w' ->]. exists (w1 ++ w3 ++ w').
    now rewrite !app_assoc.
  - exists (w1 ++ w3 ++ w5 ++ w'). now rewrite !app_assoc.
Qed.

Lemma sensorupdate_match_ends_with_space_witness :
  exists m',
    lit "sensor-update " ++ quoted (lit "x") ++ lit " 5 " = m' ++ [sp].
Proof.
  apply (sensorupdate_match_ends_with_space
           (lit "sensor-update " ++ quoted (lit "x") ++ lit " 5 "
            ++ quoted (lit "y") ++ lit " 10")).
  vm_compute. reflexivity.
Defined.

(** ** [broadcast_re] on one broadcast *)

(** The pattern matches a broadcast of a plain name whole, whatever
    follows it. *)
Lemma match_broadcast (name rest : pystr) :
  plain_name name = true ->
  match_here broadcast_re (lit "broadcast" ++ sp :: quoted name ++ rest)
  = Some rest.
Proof.
  destruct name as [|c t]; [discriminate|].
  unfold plain_name. intros H. apply andb_true_iff in H.
  destruct H as [Hc Hq]. apply negb_true_iff in Hc, Hq.
  apply mem_cons_false in Hq. destruct Hq as [_ Hq].
  unfold match_here, broadcast_re, quoted. cbn [rseq].
  rewrite rmatch_seq, rmatch_lit, rmatch_seq, rmatch_set by reflexivity.
  cbn [app]. rewrite <- app_assoc. cbn [app].
  change (dq :: c :: t ++ dq :: rest) with ([dq] ++ c :: t ++ dq :: rest).
  rewrite rmatch_seq, rmatch_lit, rmatch_seq, rmatch_dot by assumption.
  rewrite rmatch_seq.
  apply rmatch_star_notset;
    [reflexivity | reflexivity | now apply forallb_not_quote].
Qed.

Lemma findall_one_broadcast (name : pystr) :
  plain_name name = true ->
  findall broadcast_re (lit "broadcast " ++ quoted name)
  = [lit "broadcast " ++ quoted name].
Proof.
  intros H. unfold findall.
  rewrite (findall_go_match_app broadcast_re _
             (lit "broadcast " ++ quoted name) []).
  - reflexivity.
  - now rewrite app_nil_r.
  - discriminate.
  - rewrite <- (match_broadcast name [] H). now rewrite app_nil_r.
Qed.

(** The name of a broadcast: the keyword in front goes, and so does
    every occurrence of the keyword inside the name; then the quotes and
    spaces at both ends. *)
Lemma event_name_broadcast (name : pystr) :
  event_name (lit "broadcast " ++ quoted name)
  = strip_chars [dq; sp] (replace (lit "broadcast") [] name).
Proof.
  unfold event_name, quoted.
  rewrite !replace_nonempty by discriminate.
  change (lit "broadcast " ++ dq :: name ++ [dq])
    with (lit "broadcast" ++ sp :: dq :: name ++ [dq]).
  rewrite replace_go_match_app by discriminate.
  rewrite !replace_go_nomatch by reflexivity.
  rewrite replace_go_snoc;
    [| discriminate | reflexivity | lia].
  unfold strip_chars. cbn [app].
  rewrite !strip_by_cons by reflexivity.
  now rewrite strip_by_snoc by reflexivity.
Qed.

(** ** [sensorupdate_re] where no quote opens a name *)

Lemma name_value_needs_quote (u : pystr) (k : pystr -> option pystr) :
  mem dq u = false -> rmatch name_value_re (u ++ [dq]) k = None.
Proof.
  intros H. unfold name_value_re. cbn [rseq rmatch].
  destruct u as [|c u]; [reflexivity|].
  apply mem_cons_false in H. destruct H as [Hc _].
  cbn [app strip_prefix]. now rewrite Hc.
Qed.

Lemma match_sensorupdate_none (t : pystr) :
  mem dq t = false -> match_here sensorupdate_re (t ++ [dq]) = None.
Proof.
  intros H. unfold match_here, sensorupdate_re. cbn [rseq].
  rewrite rmatch_seq, rmatch_lit_eq.
  rewrite strip_prefix_snoc by (discriminate || reflexivity).
  destruct (strip_prefix (lit "sensor-update") t) as [r|] eqn:E;
    cbn [option_map]; [|reflexivity].
  apply strip_prefix_app in E. subst t.
  rewrite mem_app in H. apply orb_false_iff in H. destruct H as [_ H].
  destruct r as [|c r]; [reflexivity|].
  apply mem_cons_false in H. destruct H as [_ H].
  rewrite rmatch_seq. cbn [rmatch app].
  destruct (mem c [sp]); [|reflexivity].
  unfold RPlus. rewrite rmatch_seq. now apply name_value_needs_quote.
Qed.

Lemma search_sensorupdate_none (t : pystr) :
  mem dq t = false -> search sensorupdate_re (t ++ [dq]) = None.
Proof.
  induction t as [|c t IH]; intros H; [reflexivity|].
  cbn [app]. rewrite search_skip.
  - apply IH. now apply mem_cons_false in H.
  - apply (match_sensorupdate_none (c :: t) H).
Qed.

Lemma search_sensorupdate_broadcast (name : pystr) :
  mem dq name = false ->
  search sensorupdate_re (lit "broadcast " ++ quoted name) = None.
Proof.
  intros H. unfold quoted.
  change (lit "broadcast " ++ dq :: name ++ [dq])
    with (98 :: 114 :: 111 :: 97 :: 100 :: 99 :: 97 :: 115 :: 116 :: 32
          :: 34 :: name ++ [dq]).
  rewrite !search_skip by reflexivity.
  now apply search_sensorupdate_none.
Qed.

Lemma plain_name_no_quote (name : pystr) :
  plain_name name = true -> mem dq name = false.
Proof.
  destruct name; [discriminate|]. unfold plain_name. intros H.
  apply andb_true_iff in H. destruct H as [_ H].
  now apply negb_true_iff in H.
Qed.

(** ** [_parse_message] on one broadcast *)

(** One broadcast of a plain name: no sensor, and the name without the
    keyword, stripped. *)
Lemma parse_one_broadcast (name : pystr) :
  plain_name name = true ->
  _parse_message (lit "broadcast " ++ quoted name)
  = Return (Some {| sensor_update := [];
                    broadcast :=
                      [strip_chars [dq; sp]
                         (replace (lit "broadcast") [] name)] |}).
Proof.
  intros H. pose proof (plain_name_no_quote name H) as Hq.
  change (lit "broadcast " ++ quoted name)
    with (98 :: lit "roadcast " ++ quoted name).
  cbn [_parse_message].
  change (98 :: lit "roadcast " ++ quoted name)
    with (lit "broadcast " ++ quoted name).
  rewrite (search_sensorupdate_broadcast name Hq). cbn [bind].
  unfold broadcast_names. rewrite (findall_one_broadcast name H).
  cbn [map]. now rewrite event_name_broadcast.
Qed.

(** ** The event names of any frame *)

Lemma findall_go_sound (r : regex) (s : pystr) :
  forall (skip : nat) (m : pystr),
    In m (findall_go r skip s) -> matches r m.
Proof.
  induction s as [|c s IH]; intros skip m H.
  - destruct skip; cbn [findall_go] in H; [|contradiction].
    destruct (match_here r []) as [rest|] eqn:E; [|contradiction].
    destruct H as [<-|[]]. apply match_here_sound in E.
    destruct E as (w & _ & Hw & ->). assumption.
  - destruct skip as [|k]; cbn [findall_go] in H; [|now apply IH in H].
    destruct (match_here r (c :: s)) as [rest|] eqn:E;
      [|now apply IH in H].
    destruct H as [<-|H]; [|now apply IH in H].
    apply match_here_sound in E. destruct E as (w & _ & Hw & ->).
    assumption.
Qed.

Lemma matches_lit (l w : pystr) : matches (RLit l) w -> w = l.
Proof. intros H. now inversion H. Qed.

Lemma matches_dot (w : pystr) : matches RDot w -> exists c, w = [c].
Proof. intros H. inversion H. eauto. Qed.

(** Every match of [broadcast_re] is the keyword, a space and a quoted
    name. *)
Lemma matches_broadcast_shape (m : pystr) :
  matches broadcast_re m -> exists name, m = lit "broadcast " ++ quoted name.
Proof.
  unfold broadcast_re. cbn [rseq]. intros H.
  repeat match goal with
  | H : matches (RSeq _ _) _ |- _ => inversion H; subst; clear H
  end.
  repeat match goal with
  | H : matches (RLit _) _ |- _ => apply matches_lit in H; subst
  | H : matches (RSet [sp]) _ |- _ => apply matches_set_sp in H; subst
  | H : matches RDot _ |- _ => apply matches_dot in H; destruct H as [c ->]
  end.
  match goal with
  | |- exists name, _ ++ _ ++ _ ++ [?c] ++ ?t ++ _ = _ => exists (c :: t)
  end.
  reflexivity.
Qed.

Lemma name_of_match_broadcast (name : pystr) :
  name_of_match (lit "broadcast " ++ quoted name) = name.
Proof.
  unfold name_of_match, quoted.
  change (skipn 11 (lit "broadcast " ++ dq :: name ++ [dq]))
    with (name ++ [dq]).
  apply removelast_last.
Qed.

(** C10: for every parsed frame, the event names are, in the order of
    the matches, the names between the quotes with every occurrence of
    the keyword deleted from the name itself, and then the quotes and
    spaces at both ends stripped.  The name [rebroadcast] becomes
    [re]. *)
Theorem broadcast_name_loses_keyword (message : pystr) (p : parsed) :
  _parse_message message = Return (Some p) ->
  broadcast p
  = map (fun m =>
           strip_chars [dq; sp]
             (replace (lit "broadcast") [] (name_of_match m)))
        (findall broadcast_re message).
Proof.
  intros H. unfold _parse_message in H.
  destruct message as [|c message']; [discriminate|].
  destruct (match search sensorupdate_re (c :: message') with
            | Some m => _
            | None => _
            end) as [sensors|e]; [|discriminate].
  cbn [bind] in H. injection H as <-. cbn [broadcast].
  unfold broadcast_names.
  assert (E : forall l,
             (forall m, In m l -> matches broadcast_re m) ->
             map event_name l
             = map (fun m =>
                      strip_chars [dq; sp]
                        (replace (lit "broadcast") [] (name_of_match m)))
                   l).
  { intros l Hl. apply map_ext_in. intros m Hm.
    destruct (matches_broadcast_shape m (Hl m Hm)) as [name ->].
    now rewrite name_of_match_broadcast, event_name_broadcast. }
  destruct (findall broadcast_re (c :: message')) as [|m l] eqn:Ef;
    [reflexivity|].
  apply E. intros m' Hm'. apply (findall_go_sound broadcast_re
                                   (c :: message') O).
  unfold findall in Ef. now rewrite Ef.
Qed.

Lemma broadcast_name_loses_keyword_witness :
  _parse_message (lit "broadcast " ++ quoted (lit "rebroadcast"))
  = Return (Some {| sensor_update := []; broadcast := [lit "re"] |})
  /\ [lit "re"]
     = map (fun m =>
              strip_chars [dq; sp]
                (replace (lit "broadcast") [] (name_of_match m)))
           (findall broadcast_re
              (lit "broadcast " ++ quoted (lit "rebroadcast"))).
Proof.
  split; [vm_compute; reflexivity|].
  apply (broadcast_name_loses_keyword
           (lit "broadcast " ++ quoted (lit "rebroadcast"))
           {| sensor_update := []; broadcast := [lit "re"] |}).
  vm_compute. reflexivity.
Defined.

(** ** [broadcast_re] on several broadcasts *)

Lemma broadcasts_text_cons (name name' : pystr) (rest : list pystr) :
  broadcasts_text (name :: name' :: rest)
  = lit "broadcast " ++ quoted name
    ++ sp :: broadcasts_text (name' :: rest).
Proof. reflexivity. Qed.

Lemma findall_broadcasts (names : list pystr) :
  forallb plain_name names = true ->
  findall broadcast_re (broadcasts_text names)
  = map (fun name => lit "broadcast " ++ quoted name) names.
Proof.
  unfold findall. induction names as [|name rest IH]; intros H.
  - reflexivity.
  - cbn [forallb] in H. apply andb_true_iff in H. destruct H as [Hn Hr].
    destruct rest as [|name' rest'].
    + apply (findall_one_broadcast name Hn).
    + rewrite broadcasts_text_cons.
      rewrite (findall_go_match_app broadcast_re _
                 (lit "broadcast " ++ quoted name)
                 (sp :: broadcasts_text (name' :: rest'))).
      * rewrite findall_go_nomatch by reflexivity.
        cbn [map]. f_equal. apply (IH Hr).
      * now rewrite <- app_assoc.
      * discriminate.
      * exact (match_broadcast name _ Hn).
Qed.

Lemma broadcast_names_of_text (names : list pystr) :
  forallb plain_name names = true ->
  broadcast_names (broadcasts_text names)
  = map (fun name =>
           strip_chars [dq; sp] (replace (lit "broadcast") [] name)) names.
Proof.
  intros H. unfold broadcast_names. rewrite (findall_broadcasts names H).
  destruct names as [|name rest]; [reflexivity|].
  change (map event_name
            (map (fun n => lit "broadcast " ++ quoted n) (name :: rest))
          = map (fun n =>
                   strip_chars [dq; sp] (replace (lit "broadcast") [] n))
                (name :: rest)).
  rewrite map_map. apply map_ext. intros n.
  apply event_name_broadcast.
Qed.

(** ** [_parse_message] on several broadcasts *)

(** C8: every broadcast of one frame is collected, from left to right,
    keyword and surrounding quotes stripped, and the sensor mapping is
    empty when the text holds no sensor update; the text with the
    broadcasts [go] and [stop] gives the list of [go] and [stop]. *)
Theorem parse_broadcasts (names : list pystr) :
  names <> [] ->
  forallb plain_name names = true ->
  search sensorupdate_re (broadcasts_text names) = None ->
  _parse_message (broadcasts_text names)
  = Return (Some {| sensor_update := [];
                    broadcast :=
                      map (fun name =>
                             strip_chars [dq; sp]
                               (replace (lit "broadcast") [] name))
                          names |}).
Proof.
  intros Hne Hp Hs.
  rewrite <- (broadcast_names_of_text names Hp).
  unfold _parse_message. rewrite Hs. cbn [bind].
  destruct (broadcasts_text names) as [|c text] eqn:E; [|reflexivity].
  destruct names as [|n [|n' rest]]; [congruence | discriminate..].
Qed.

Lemma parse_broadcasts_witness :
  _parse_message (lit "broadcast " ++ quoted (lit "go") ++ lit " broadcast "
                  ++ quoted (lit "stop"))
  = Return (Some {| sensor_update := [];
                    broadcast := [lit "go"; lit "stop"] |}).
Proof.
  refine (parse_broadcasts [lit "go"; lit "stop"] _ eq_refl _).
  - discriminate.
  - vm_compute. reflexivity.
Defined.

(** ** Plain words and names *)

Lemma word_char_facts (c : Z) :
  word_char c = true ->
  is_space c = false /\ (c =? dq) = false /\ (c =? sp) = false
  /\ (c =? nl) = false.
Proof.
  unfold word_char. intros H. apply andb_true_iff in H.
  destruct H as [Hs Hq]. apply negb_true_iff in Hs, Hq.
  repeat split; auto.
  - destruct (Z.eqb_spec c sp); [subst; discriminate | reflexivity].
  - destruct (Z.eqb_spec c nl); [subst; discriminate | reflexivity].
Qed.

Lemma plain_word_inv (w : pystr) :
  plain_word w = true ->
  exists c t, w = c :: t /\ word_char c = true /\ forallb word_char t = true.
Proof.
  destruct w as [|c t]; [discriminate|]. cbn [plain_word forallb].
  intros H. apply andb_true_iff in H. destruct H. eauto.
Qed.

Lemma plain_word_chars (w : pystr) :
  plain_word w = true -> forallb word_char w = true.
Proof. destruct w; [discriminate | auto]. Qed.

Lemma no_quote_word (w : pystr) :
  forallb word_char w = true ->
  forallb (fun a => negb (mem a [dq])) w = true.
Proof.
  induction w as [|c w IH]; [reflexivity|]. cbn [forallb]. intros H.
  apply andb_true_iff in H. destruct H as [Hc Hw].
  apply word_char_facts in Hc. destruct Hc as (_ & Hq & _).
  unfold mem at 1. simpl. rewrite Hq. simpl. now apply IH.
Qed.

Lemma join_sp_cons (w w' : pystr) (rest : list pystr) :
  join_sp (w :: w' :: rest) = w ++ sp :: join_sp (w' :: rest).
Proof. reflexivity. Qed.

Lemma no_quote_name (words : list pystr) :
  forallb plain_word words = true ->
  forallb (fun a => negb (mem a [dq])) (join_sp words) = true.
Proof.
  induction words as [|w [|w' rest] IH]; intros H.
  - reflexivity.
  - cbn [forallb] in H. apply andb_true_iff in H. destruct H as [Hw _].
    now apply no_quote_word, plain_word_chars.
  - rewrite join_sp_cons, forallb_app.
    cbn [forallb] in H. apply andb_true_iff in H. destruct H as [Hw Hr].
    apply andb_true_iff. split.
    + now apply no_quote_word, plain_word_chars.
    + cbn [forallb]. apply andb_true_iff. split; [reflexivity|].
      now apply IH.
Qed.

Lemma name_head (words : list pystr) :
  words <> [] -> forallb plain_word words = true ->
  exists c t, join_sp words = c :: t /\ word_char c = true.
Proof.
  destruct words as [|w rest]; [congruence|]. intros _ H.
  cbn [forallb] in H. apply andb_true_iff in H. destruct H as [Hw _].
  apply plain_word_inv in Hw. destruct Hw as (c & t & -> & Hc & _).
  destruct rest; [now exists c, t|].
  rewrite join_sp_cons. cbn [app]. eauto.
Qed.

Lemma plain_sensor_inv (p : sensor) :
  plain_sensor p = true ->
  fst p <> [] /\ forallb plain_word (fst p) = true
  /\ plain_word (snd p) = true.
Proof.
  unfold plain_sensor. intros H. apply andb_true_iff in H.
  destruct H as [Hn Hv]. destruct (fst p); [discriminate|].
  repeat split; auto. discriminate.
Qed.

(** The text of a group, laid out as the pattern reads it. *)
Lemma group_text_shape (p : sensor) :
  plain_sensor p = true ->
  exists c nt d vt,
    group_text p = dq :: c :: nt ++ dq :: sp :: d :: vt ++ [sp]
    /\ (c =? nl) = false /\ (c =? sp) = false
    /\ forallb (fun a => negb (mem a [dq])) nt = true
    /\ (d =? dq) = false /\ (d =? nl) = false
    /\ forallb (fun a => negb (mem a [dq])) vt = true.
Proof.
  intros H. apply plain_sensor_inv in H. destruct H as (Hne & Hn & Hv).
  destruct (name_head _ Hne Hn) as (c & nt & En & Hc).
  pose proof (no_quote_name _ Hn) as Hq. unfold sensor_name in *.
  rewrite En in Hq. cbn [forallb] in Hq. apply andb_true_iff in Hq.
  destruct Hq as [_ Hq].
  destruct (plain_word_inv _ Hv) as (d & vt & Ev & Hd & Hvt).
  apply word_char_facts in Hc, Hd.
  destruct Hc as (_ & _ & Hcs & Hcn). destruct Hd as (_ & Hdq & _ & Hdn).
  exists c, nt, d, vt. unfold group_text, quoted, sensor_name.
  rewrite En, Ev. cbn [app]. rewrite <- app_assoc. cbn [app].
  repeat split; auto. now apply no_quote_word.
Qed.

Lemma groups_boundary (ps : list sensor) :
  forallb plain_sensor ps = true ->
  group_boundary (List.concat (map group_text ps)) = true.
Proof.
  destruct ps as [|p ps]; [reflexivity|]. cbn [forallb map List.concat].
  intros H. apply andb_true_iff in H. destruct H as [Hp _].
  destruct (group_text_shape p Hp) as (c & nt & d & vt & -> & _ & Hc & _).
  cbn [app group_boundary]. now rewrite Z.eqb_refl, Hc.
Qed.

Lemma group_text_length (p : sensor) : (1 <= List.length (group_text p))%nat.
Proof. unfold group_text, quoted. simpl. lia. Qed.

Lemma groups_length (ps : list sensor) :
  (List.length ps <= List.length (List.concat (map group_text ps)))%nat.
Proof.
  induction ps as [|p ps IH]; [simpl; lia|].
  cbn [map List.concat]. rewrite length_app.
  pose proof (group_text_length p). simpl. lia.
Qed.

(** ** [sensorupdate_re] on a well-formed sensor update *)

Lemma name_value_match_group (p : sensor) (rest : pystr)
  (k : pystr -> option pystr) (x : pystr) :
  plain_sensor p = true ->
  group_boundary rest = true ->
  k rest = Some x ->
  rmatch name_value_re (group_text p ++ rest) k = Some x.
Proof.
  intros Hp Hb Hk.
  destruct (group_text_shape p Hp)
    as (c & nt & d & vt & -> & Hc & _ & Hnt & Hd & Hdn & Hvt).
  replace ((dq :: c :: nt ++ dq :: sp :: d :: vt ++ [sp]) ++ rest)
    with (dq :: c :: nt ++ dq :: sp :: d :: vt ++ sp :: rest).
  - now apply name_value_match.
  - cbn [app]. rewrite <- app_assoc. cbn [app].
    rewrite <- app_assoc. reflexivity.
Qed.

Lemma star_groups (ps : list sensor) :
  forallb plain_sensor ps = true ->
  forall n, (List.length ps <= n)%nat ->
  star_loop (rmatch name_value_re) (fun rest => Some rest) n
            (List.concat (map group_text ps)) = Some [].
Proof.
  induction ps as [|p ps IH]; intros H n Hn.
  - destruct n; reflexivity.
  - destruct n as [|n]; [simpl in Hn; lia|].
    cbn [forallb] in H. apply andb_true_iff in H. destruct H as [Hp Hps].
    cbn [map List.concat star_loop].
    rewrite (name_value_match_group p _ _ [] Hp (groups_boundary ps Hps)).
    + reflexivity.
    + replace (_ <? _)%nat with true.
      * apply IH; [assumption | simpl in Hn; lia].
      * symmetry. apply Nat.ltb_lt. rewrite length_app.
        pose proof (group_text_length p). lia.
Qed.

Lemma matched_all (s : pystr) : matched s [] = s.
Proof.
  unfold matched. simpl. rewrite Nat.sub_0_r. apply firstn_all.
Qed.

Lemma search_here (r : regex) (s rest : pystr) :
  match_here r s = Some rest -> search r s = Some (matched s rest).
Proof. intros H. destruct s; cbn [search]; now rewrite H. Qed.

(** The pattern takes a well-formed sensor update whole. *)
Lemma search_sensor_update_text (ps : list sensor) :
  ps <> [] -> forallb plain_sensor ps = true ->
  search sensorupdate_re (sensor_update_text ps)
  = Some (sensor_update_text ps).
Proof.
  intros Hne H.
  rewrite (search_here _ _ []); [now rewrite matched_all|].
  unfold match_here, sensorupdate_re, sensor_update_text, RPlus.
  cbn [rseq].
  change (lit "sensor-update " ++ List.concat (map group_text ps))
    with (lit "sensor-update" ++ sp :: List.concat (map group_text ps)).
  rewrite rmatch_seq, rmatch_lit, rmatch_seq, rmatch_set by reflexivity.
  rewrite rmatch_seq.
  destruct ps as [|p ps]; [congruence|].
  cbn [forallb] in H. apply andb_true_iff in H. destruct H as [Hp Hps].
  cbn [map List.concat].
  apply name_value_match_group;
    [assumption | now apply groups_boundary |].
  cbn [rmatch]. apply star_groups; [assumption | apply groups_length].
Qed.

(** ** [split()] and [strip()] on space-joined fragments *)

Lemma join_sp_app (a b : list pystr) :
  a <> [] -> b <> [] -> join_sp (a ++ b) = join_sp a ++ sp :: join_sp b.
Proof.
  intros Ha Hb. induction a as [|w [|w' a] IH]; [congruence| |].
  - destruct b; [congruence | reflexivity].
  - cbn [app] in *. rewrite !join_sp_cons, IH by discriminate.
    now rewrite <- app_assoc.
Qed.

Lemma split_go_word (w rest cur : pystr) :
  forallb (fun c => negb (is_space c)) w = true ->
  split_go (w ++ rest) cur = split_go rest (cur ++ w).
Proof.
  revert cur. induction w as [|c w IH]; intros cur H.
  - now rewrite app_nil_r.
  - cbn [forallb] in H. apply andb_true_iff in H. destruct H as [Hc Hw].
    apply negb_true_iff in Hc. cbn [app split_go]. rewrite Hc.
    rewrite IH by assumption. now rewrite <- app_assoc.
Qed.

Lemma kept_inv (drop : Z -> bool) (f : pystr) :
  kept drop f = true ->
  f <> [] /\ forallb (fun c => negb (drop c)) f = true.
Proof. destruct f; [discriminate|]. intros H. split; [discriminate|auto]. Qed.

Lemma solid_inv (f : pystr) :
  solid f = true ->
  f <> [] /\ forallb (fun c => negb (is_space c)) f = true.
Proof. apply kept_inv. Qed.

Lemma split_join (frs : list pystr) :
  forallb solid frs = true -> split (join_sp frs) = frs.
Proof.
  unfold split. induction frs as [|f [|f' frs] IH]; intros H.
  - reflexivity.
  - cbn [forallb] in H. apply andb_true_iff in H. destruct H as [Hf _].
    apply solid_inv in Hf. destruct Hf as [Hne Hf].
    cbn [join_sp]. rewrite <- (app_nil_r f) at 1.
    rewrite split_go_word by assumption. cbn [app split_go].
    destruct f; [congruence | reflexivity].
  - cbn [forallb] in H. apply andb_true_iff in H. destruct H as [Hf Hr].
    apply solid_inv in Hf. destruct Hf as [Hne Hf].
    rewrite join_sp_cons, split_go_word by assumption.
    cbn [app split_go]. change (is_space sp) with true. cbn iota.
    rewrite (IH Hr). destruct f; [congruence | reflexivity].
Qed.

Lemma lstrip_by_keep (drop : Z -> bool) (c : Z) (s : pystr) :
  drop c = false -> lstrip_by drop (c :: s) = c :: s.
Proof. intros H. cbn [lstrip_by]. now rewrite H. Qed.

Lemma kept_head (drop : Z -> bool) (f : pystr) :
  kept drop f = true -> exists c t, f = c :: t /\ drop c = false.
Proof.
  destruct f as [|c t]; [discriminate|]. cbn [kept forallb]. intros H.
  apply andb_true_iff in H. destruct H as [Hc _].
  apply negb_true_iff in Hc. eauto.
Qed.

Lemma join_sp_head (drop : Z -> bool) (frs : list pystr) :
  frs <> [] -> forallb (kept drop) frs = true ->
  exists c t, join_sp frs = c :: t /\ drop c = false.
Proof.
  destruct frs as [|f rest]; [congruence|]. intros _ H.
  cbn [forallb] in H. apply andb_true_iff in H. destruct H as [Hf _].
  apply kept_head in Hf. destruct Hf as (c & t & -> & Hc).
  destruct rest; [now exists c, t|].
  rewrite join_sp_cons. cbn [app]. eauto.
Qed.

Lemma rev_join_sp (frs : list pystr) :
  rev (join_sp frs) = join_sp (map (@rev Z) (rev frs)).
Proof.
  induction frs as [|f frs IH]; [reflexivity|].
  destruct frs as [|f' frs']; [reflexivity|].
  rewrite join_sp_cons, rev_app_distr.
  change (rev (sp :: join_sp (f' :: frs')))
    with (rev (join_sp (f' :: frs')) ++ [sp]).
  rewrite IH.
  change (rev (f :: f' :: frs')) with (rev (f' :: frs') ++ [f]).
  rewrite map_app. cbn [map].
  rewrite join_sp_app; [now rewrite <- app_assoc | | discriminate].
  cbn [rev]. destruct (rev frs'); discriminate.
Qed.

Lemma kept_rev (drop : Z -> bool) (f : pystr) :
  kept drop f = true -> kept drop (rev f) = true.
Proof.
  intros H. apply kept_inv in H. destruct H as [Hne Hf].
  assert (H : forallb (fun c => negb (drop c)) (rev f) = true).
  { rewrite forallb_forall in *. intros c Hc. apply Hf.
    now apply in_rev. }
  destruct (rev f) eqn:E; [|exact H].
  apply (f_equal (@rev Z)) in E. rewrite rev_involutive in E.
  simpl in E. congruence.
Qed.

(** [strip] leaves joined fragments whole when it removes none of their
    characters: the spaces it could remove are all inside. *)
Lemma strip_by_join (drop : Z -> bool) (frs : list pystr) :
  forallb (kept drop) frs = true ->
  strip_by drop (join_sp frs) = join_sp frs.
Proof.
  intros H. destruct frs as [|f rest] eqn:E; [reflexivity|].
  rewrite <- E in *. assert (Hne : frs <> []) by (rewrite E; discriminate).
  unfold strip_by.
  destruct (join_sp_head drop frs Hne H) as (c & t & Ej & Hc).
  rewrite Ej, (lstrip_by_keep _ c t Hc), <- Ej, rev_join_sp.
  destruct (join_sp_head drop (map (@rev Z) (rev frs)))
    as (c' & t' & Er & Hc').
  - destruct (rev frs) eqn:Erev; [|discriminate].
    apply (f_equal (@rev pystr)) in Erev. rewrite rev_involutive in Erev.
    simpl in Erev. congruence.
  - rewrite forallb_forall in *. intros x Hx.
    apply in_map_iff in Hx. destruct Hx as (y & <- & Hy).
    apply kept_rev, H. now apply in_rev.
  - rewrite Er, (lstrip_by_keep _ c' t' Hc'), <- Er, <- rev_join_sp.
    apply rev_involutive.
Qed.

Lemma strip_join (frs : list pystr) :
  forallb solid frs = true -> strip (join_sp frs) = join_sp frs.
Proof. apply strip_by_join. Qed.

(** ** The fragments of a well-formed sensor update *)

Lemma join_sp_cons_ne (w : pystr) (rest : list pystr) :
  rest <> [] -> join_sp (w :: rest) = w ++ sp :: join_sp rest.
Proof. destruct rest; [congruence | reflexivity]. Qed.

Lemma close_quote_nonempty (ws : list pystr) :
  ws <> [] -> close_quote ws <> [].
Proof. destruct ws as [|w [|w' ws]]; [congruence | discriminate..]. Qed.

Lemma join_close_quote (ws : list pystr) :
  ws <> [] -> join_sp (close_quote ws) = join_sp ws ++ [dq].
Proof.
  induction ws as [|w ws IH]; intros H; [congruence|].
  destruct ws as [|w' ws']; [reflexivity|].
  change (close_quote (w :: w' :: ws')) with (w :: close_quote (w' :: ws')).
  rewrite join_sp_cons_ne by (apply close_quote_nonempty; discriminate).
  rewrite IH by discriminate.
  rewrite join_sp_cons, <- app_assoc. reflexivity.
Qed.

Lemma join_name_fragments (ws : list pystr) :
  ws <> [] -> join_sp (name_fragments ws) = quoted (join_sp ws).
Proof.
  destruct ws as [|w rest]; [congruence|]. intros _.
  unfold name_fragments. rewrite join_close_quote by discriminate.
  unfold quoted. destruct rest; reflexivity.
Qed.

Lemma name_fragments_nonempty (ws : list pystr) :
  ws <> [] -> name_fragments ws <> [].
Proof.
  destruct ws as [|w [|w' rest]]; [congruence | discriminate | discriminate].
Qed.

Lemma join_sensor_fragments (p : sensor) :
  fst p <> [] ->
  join_sp (sensor_fragments p) ++ [sp] = group_text p.
Proof.
  intros H. unfold sensor_fragments, group_text, sensor_name.
  rewrite join_sp_app;
    [| now apply name_fragments_nonempty | discriminate].
  rewrite join_name_fragments by assumption. cbn [join_sp].
  rewrite <- app_assoc. reflexivity.
Qed.

Lemma sensor_fragments_nonempty (p : sensor) : sensor_fragments p <> [].
Proof. unfold sensor_fragments. destruct (name_fragments (fst p)); discriminate. Qed.

Lemma groups_as_join (ps : list sensor) :
  ps <> [] -> forallb plain_sensor ps = true ->
  List.concat (map group_text ps)
  = join_sp (List.concat (map sensor_fragments ps)) ++ [sp].
Proof.
  induction ps as [|p [|p' ps] IH]; intros Hne H; [congruence| |].
  - cbn [forallb] in H. apply andb_true_iff in H. destruct H as [Hp _].
    apply plain_sensor_inv in Hp. destruct Hp as (Hn & _).
    cbn [map List.concat]. rewrite !app_nil_r.
    symmetry. now apply join_sensor_fragments.
  - cbn [forallb] in H. apply andb_true_iff in H. destruct H as [Hp Hr].
    apply plain_sensor_inv in Hp. destruct Hp as (Hn & _).
    change (List.concat (map group_text (p :: p' :: ps)))
      with (group_text p ++ List.concat (map group_text (p' :: ps))).
    change (List.concat (map sensor_fragments (p :: p' :: ps)))
      with (sensor_fragments p
            ++ List.concat (map sensor_fragments (p' :: ps))).
    rewrite IH by (discriminate || assumption).
    rewrite join_sp_app.
    + rewrite <- (join_sensor_fragments p Hn), <- !app_assoc. reflexivity.
    + apply sensor_fragments_nonempty.
    + cbn [map List.concat].
      pose proof (sensor_fragments_nonempty p').
      destruct (sensor_fragments p'); [congruence | discriminate].
Qed.

Lemma word_kept (drop : Z -> bool) (w : pystr) :
  (forall c, word_char c = true -> drop c = false) ->
  plain_word w = true -> kept drop w = true.
Proof.
  intros Hd H. destruct w as [|c t]; [discriminate|].
  cbn [plain_word] in H. cbn [kept].
  rewrite forallb_forall in *. intros x Hx.
  apply negb_true_iff, Hd, H, Hx.
Qed.

Lemma word_char_not_space (c : Z) : word_char c = true -> is_space c = false.
Proof. intros H. now apply word_char_facts in H. Qed.

Lemma word_char_not_stripped (c : Z) :
  word_char c = true -> mem c [sp; dq] = false.
Proof.
  intros H. apply word_char_facts in H. destruct H as (_ & Hq & Hs & _).
  unfold mem. simpl. now rewrite Hq, Hs.
Qed.

Lemma kept_cons (drop : Z -> bool) (c : Z) (f : pystr) :
  drop c = false -> kept drop f = true -> kept drop (c :: f) = true.
Proof.
  intros Hc Hf. apply kept_inv in Hf. destruct Hf as [_ Hf].
  cbn [kept forallb]. now rewrite Hc, Hf.
Qed.

Lemma kept_snoc (drop : Z -> bool) (c : Z) (f : pystr) :
  drop c = false -> kept drop f = true -> kept drop (f ++ [c]) = true.
Proof.
  intros Hc Hf. apply kept_inv in Hf. destruct Hf as [Hne Hf].
  assert (H : forallb (fun a => negb (drop a)) (f ++ [c]) = true).
  { rewrite forallb_app, Hf. cbn [forallb]. now rewrite Hc. }
  destruct f; [congruence | exact H].
Qed.

Lemma close_quote_solid (ws : list pystr) :
  forallb solid ws = true -> forallb solid (close_quote ws) = true.
Proof.
  induction ws as [|w ws IH]; [reflexivity|].
  destruct ws as [|w' ws']; cbn [forallb] in *; intros H;
    apply andb_true_iff in H; destruct H as [Hw Hr].
  - cbn [close_quote forallb]. rewrite andb_true_r.
    now apply kept_snoc.
  - change (close_quote (w :: w' :: ws'))
      with (w :: close_quote (w' :: ws')).
    cbn [forallb]. rewrite Hw. now apply IH.
Qed.

Lemma words_solid (ws : list pystr) :
  forallb plain_word ws = true -> forallb solid ws = true.
Proof.
  rewrite !forallb_forall. intros H w Hw.
  apply word_kept; [apply word_char_not_space | now apply H].
Qed.

Lemma sensor_fragments_solid (p : sensor) :
  plain_sensor p = true -> forallb solid (sensor_fragments p) = true.
Proof.
  intros H. apply plain_sensor_inv in H. destruct H as (Hne & Hn & Hv).
  unfold sensor_fragments. rewrite forallb_app. apply andb_true_iff. split.
  - destruct (fst p) as [|w rest]; [congruence|].
    unfold name_fragments. apply close_quote_solid.
    apply words_solid in Hn. cbn [forallb] in *.
    apply andb_true_iff in Hn. destruct Hn as [Hw Hr].
    rewrite Hr, andb_true_r. now apply kept_cons.
  - cbn [forallb]. rewrite andb_true_r.
    apply word_kept; [apply word_char_not_space | assumption].
Qed.

Lemma all_fragments_solid (ps : list sensor) :
  forallb plain_sensor ps = true ->
  forallb solid (List.concat (map sensor_fragments ps)) = true.
Proof.
  induction ps as [|p ps IH]; [reflexivity|]. cbn [forallb]. intros H.
  apply andb_true_iff in H. destruct H as [Hp Hr].
  cbn [map List.concat]. rewrite forallb_app.
  now rewrite (sensor_fragments_solid p Hp), (IH Hr).
Qed.

(** The fragments that the code cuts a well-formed sensor update into,
    when the keyword occurs nowhere in the pairs. *)
Lemma fragments_sensor_update_text (ps : list sensor) :
  ps <> [] -> forallb plain_sensor ps = true ->
  replace (lit "sensor-update") [] (List.concat (map group_text ps))
  = List.concat (map group_text ps) ->
  fragments (sensor_update_text ps)
  = List.concat (map sensor_fragments ps).
Proof.
  intros Hne H Hkw. unfold fragments, sensor_update_text.
  rewrite replace_nonempty in * by discriminate.
  change (lit "sensor-update " ++ List.concat (map group_text ps))
    with (lit "sensor-update" ++ sp :: List.concat (map group_text ps)).
  rewrite replace_go_match_app by discriminate.
  rewrite replace_go_nomatch by reflexivity.
  rewrite Hkw, (groups_as_join ps Hne H). cbn [app].
  unfold strip. rewrite strip_by_cons, strip_by_snoc by reflexivity.
  pose proof (all_fragments_solid ps H) as Hs.
  change (strip_by is_space) with strip.
  rewrite (strip_join _ Hs). now apply split_join.
Qed.

(** ** The loop over the fragments *)

Lemma last_char_snoc (s : pystr) (c : Z) : last_char (s ++ [c]) = Return c.
Proof. unfold last_char. now rewrite rev_app_distr. Qed.

Lemma word_last_char (w : pystr) :
  plain_word w = true ->
  exists w' c, w = w' ++ [c] /\ word_char c = true.
Proof.
  intros H. pose proof (plain_word_chars w H) as Hc.
  destruct (exists_last (l := w)) as (w' & c & E).
  - destruct w; [discriminate | discriminate].
  - exists w', c. split; [assumption|].
    rewrite E, forallb_app in Hc. apply andb_true_iff in Hc.
    destruct Hc as [_ Hc]. cbn [forallb] in Hc.
    now rewrite andb_true_r in Hc.
Qed.

Lemma reassemble_inner (ws : list pystr) :
  ws <> [] -> forallb plain_word ws = true ->
  forall (m : pystr) (rest acc : list pystr),
    reassemble (close_quote ws ++ rest) (Some m) acc
    = reassemble rest None
        (acc ++ [strip_chars [sp; dq] (m ++ sp :: join_sp ws ++ [dq])]).
Proof.
  induction ws as [|w ws IH]; intros Hne H m rest acc; [congruence|].
  cbn [forallb] in H. apply andb_true_iff in H. destruct H as [Hw Hr].
  destruct ws as [|w' ws'].
  - cbn [close_quote app reassemble join_sp].
    rewrite last_char_snoc. cbn [bind]. rewrite Z.eqb_refl. reflexivity.
  - change (close_quote (w :: w' :: ws'))
      with (w :: close_quote (w' :: ws')).
    cbn [app reassemble].
    destruct (word_last_char w Hw) as (w0 & c & E & Hc).
    rewrite E at 1. rewrite last_char_snoc. cbn [bind].
    apply word_char_facts in Hc. destruct Hc as (_ & Hq & _).
    rewrite Hq, IH by (discriminate || assumption).
    rewrite join_sp_cons, <- !app_assoc. reflexivity.
Qed.

Lemma strip_chars_name (ws : list pystr) :
  forallb plain_word ws = true ->
  strip_chars [sp; dq] (join_sp ws) = join_sp ws.
Proof.
  intros H. unfold strip_chars. apply strip_by_join.
  rewrite forallb_forall in *. intros w Hw.
  apply word_kept; [apply word_char_not_stripped | now apply H].
Qed.

(** The fragments of a quoted name become one token: the name, its words
    one space apart, without the quotes. *)
Lemma reassemble_name (ws : list pystr) (rest acc : list pystr) :
  ws <> [] -> forallb plain_word ws = true ->
  reassemble (name_fragments ws ++ rest) None acc
  = reassemble rest None (acc ++ [join_sp ws]).
Proof.
  intros Hne H. destruct ws as [|w ws']; [congruence|].
  pose proof (strip_chars_name _ H) as Hstrip.
  cbn [forallb] in H. apply andb_true_iff in H. destruct H as [Hw Hr].
  destruct ws' as [|w' ws''].
  - cbn [name_fragments close_quote app reassemble first_char bind].
    rewrite Z.eqb_refl.
    rewrite app_comm_cons, last_char_snoc. cbn [bind].
    rewrite Z.eqb_refl. cbn [negb].
    unfold strip_chars in *.
    rewrite <- app_comm_cons.
    rewrite strip_by_cons, strip_by_snoc by reflexivity.
    cbn [join_sp] in Hstrip. now rewrite Hstrip.
  - unfold name_fragments.
    change (close_quote ((dq :: w) :: w' :: ws''))
      with ((dq :: w) :: close_quote (w' :: ws'')).
    cbn [app reassemble first_char bind]. rewrite Z.eqb_refl.
    destruct (word_last_char w Hw) as (w0 & c & E & Hc).
    rewrite E at 1. rewrite app_comm_cons, last_char_snoc. cbn [bind].
    apply word_char_facts in Hc. destruct Hc as (_ & Hq & _).
    rewrite Hq. cbn [negb].
    rewrite reassemble_inner by (discriminate || assumption).
    replace ((sp :: dq :: w) ++ sp :: join_sp (w' :: ws'') ++ [dq])
      with (sp :: dq :: join_sp (w :: w' :: ws'') ++ [dq])
      by (rewrite join_sp_cons; cbn [app]; now rewrite <- app_assoc).
    unfold strip_chars in *.
    rewrite !strip_by_cons, strip_by_snoc by reflexivity.
    now rewrite Hstrip.
Qed.

Lemma reassemble_value (v : pystr) (rest acc : list pystr) :
  plain_word v = true ->
  reassemble (v :: rest) None acc = reassemble rest None (acc ++ [v]).
Proof.
  intros H. apply plain_word_inv in H. destruct H as (c & t & -> & Hc & _).
  apply word_char_facts in Hc. destruct Hc as (_ & Hq & _).
  cbn [reassemble first_char bind]. now rewrite Hq.
Qed.

(** The fragments of a well-formed sensor update reassemble into its
    tokens: name, value, name, value. *)
Lemma reassemble_sensors (ps : list sensor) :
  forallb plain_sensor ps = true ->
  forall acc,
    reassemble (List.concat (map sensor_fragments ps)) None acc
    = Return (acc ++ List.concat (map sensor_tokens ps)).
Proof.
  induction ps as [|p ps IH]; intros H acc.
  - cbn [map List.concat reassemble]. now rewrite app_nil_r.
  - cbn [forallb] in H. apply andb_true_iff in H. destruct H as [Hp Hr].
    apply plain_sensor_inv in Hp. destruct Hp as (Hne & Hn & Hv).
    cbn [map List.concat]. unfold sensor_fragments at 1.
    rewrite <- app_assoc, reassemble_name by assumption.
    cbn [app]. rewrite reassemble_value, IH by assumption.
    unfold sensor_tokens at 2, sensor_name. cbn [app].
    now rewrite <- !app_assoc.
Qed.

(** ** The pairing loop on distinct names *)

Lemma pystr_eqb_eq (a b : pystr) : pystr_eqb a b = true <-> a = b.
Proof.
  revert b. induction a as [|x a IH]; intros [|y b]; simpl;
    try (split; [discriminate | congruence]); [tauto|].
  rewrite andb_true_iff, Z.eqb_eq, IH. split; [intros []|intros [=]];
    subst; auto.
Qed.

Lemma pystr_eqb_sym (a b : pystr) : pystr_eqb a b = pystr_eqb b a.
Proof.
  destruct (pystr_eqb a b) eqn:E.
  - apply pystr_eqb_eq in E. subst. symmetry. now apply pystr_eqb_eq.
  - destruct (pystr_eqb b a) eqn:E'; [|reflexivity].
    apply pystr_eqb_eq in E'. subst.
    assert (pystr_eqb a a = true) by now apply pystr_eqb_eq. congruence.
Qed.

Lemma dict_set_fresh (d : pydict) (k v : pystr) :
  existsb (pystr_eqb k) (map fst d) = false ->
  dict_set d k v = d ++ [(k, v)].
Proof.
  induction d as [|[k' v'] d IH]; [reflexivity|].
  cbn [map fst existsb dict_set app]. intros H.
  apply orb_false_iff in H. destruct H as [Hk Hd].
  rewrite pystr_eqb_sym, Hk. f_equal. now apply IH.
Qed.

Lemma pair_loop_sensors (ps : list sensor) :
  forall (done : pydict) (total : nat),
    total = (2 * (List.length done + List.length ps))%nat ->
    distinct (map fst done ++ map sensor_name ps) = true ->
    pair_loop total (List.concat (map sensor_tokens ps)) done
    = Return (done ++ map sensor_entry ps).
Proof.
  induction ps as [|p ps IH]; intros done total Ht Hd.
  - cbn [map List.concat]. rewrite app_nil_r.
    destruct done; cbn [pair_loop];
      (replace (_ <? _)%nat with false; [reflexivity|]);
      symmetry; apply Nat.ltb_ge; simpl in *; lia.
  - cbn [map List.concat sensor_tokens app].
    assert (Hfresh : existsb (pystr_eqb (sensor_name p)) (map fst done)
                     = false
                     /\ distinct (map fst (done ++ [sensor_entry p])
                                  ++ map sensor_name ps) = true).
    { clear IH Ht. induction done as [|[k v] done IHd].
      - cbn [map app distinct] in *. split; [reflexivity | assumption].
      - cbn [map fst app distinct existsb] in *.
        apply andb_true_iff in Hd. destruct Hd as [Hk Hd].
        destruct (IHd Hd) as [Hf Hdd]. rewrite Hdd, andb_true_r.
        rewrite negb_true_iff in Hk. rewrite existsb_app in Hk.
        apply orb_false_iff in Hk. destruct Hk as [Hk1 Hk2].
        cbn [existsb] in Hk2. apply orb_false_iff in Hk2.
        destruct Hk2 as [Hk2 Hk3].
        rewrite (pystr_eqb_sym (sensor_name p) k), Hk2, Hf.
        split; [reflexivity|].
        rewrite map_app, !existsb_app, Hk1. cbn [map existsb fst sensor_entry].
        now rewrite Hk2, Hk3. }
    destruct Hfresh as [Hf Hdd].
    replace (pair_loop total (sensor_name p :: snd p
                              :: List.concat (map sensor_tokens ps)) done)
      with (pair_loop total (List.concat (map sensor_tokens ps))
              (dict_set done (sensor_name p) (snd p))).
    + rewrite dict_set_fresh by assumption.
      change [(sensor_name p, snd p)] with [sensor_entry p].
      rewrite IH; [now rewrite <- app_assoc | | assumption].
      rewrite length_app. simpl in *. lia.
    + destruct done; cbn [pair_loop];
        (replace (_ <? _)%nat with true; [reflexivity|]);
        symmetry; apply Nat.ltb_lt; simpl in *; lia.
Qed.

Lemma sensor_tokens_length (ps : list sensor) :
  List.length (List.concat (map sensor_tokens ps))
  = (2 * List.length ps)%nat.
Proof.
  induction ps as [|p ps IH]; [reflexivity|].
  cbn [map List.concat sensor_tokens app List.length]. lia.
Qed.

Lemma pair_up_sensors (ps : list sensor) :
  distinct (map sensor_name ps) = true ->
  pair_up (List.concat (map sensor_tokens ps))
  = Return (map sensor_entry ps).
Proof.
  intros H. unfold pair_up.
  apply (pair_loop_sensors ps []); [|exact H].
  rewrite sensor_tokens_length. reflexivity.
Qed.

(** ** [_parse_message] on a well-formed sensor update *)

(** A well-formed sensor update with a space after every value, names
    all different and the keyword nowhere in the pairs: the mapping holds
    every pair, in the order of the text, values as strings. *)
Lemma well_formed_sensor_update_parses (ps : list sensor) :
  ps <> [] -> forallb plain_sensor ps = true ->
  distinct (map sensor_name ps) = true ->
  replace (lit "sensor-update") [] (List.concat (map group_text ps))
  = List.concat (map group_text ps) ->
  _parse_message (sensor_update_text ps)
  = Return (Some {| sensor_update := map sensor_entry ps;
                    broadcast := broadcast_names (sensor_update_text ps) |}).
Proof.
  intros Hne Hp Hd Hkw.
  change (sensor_update_text ps)
    with (115 :: lit "ensor-update " ++ List.concat (map group_text ps))
    at 1.
  cbn [_parse_message].
  change (115 :: lit "ensor-update " ++ List.concat (map group_text ps))
    with (sensor_update_text ps).
  rewrite (search_sensor_update_text ps Hne Hp).
  rewrite (fragments_sensor_update_text ps Hne Hp Hkw).
  rewrite (reassemble_sensors ps Hp []). cbn [bind app].
  rewrite (pair_up_sensors ps Hd). reflexivity.
Qed.


Lemma dict_get_sensor (ps : list sensor) (p : sensor) :
  distinct (map sensor_name ps) = true -> In p ps ->
  dict_get (map sensor_entry ps) (sensor_name p) = Some (snd p).
Proof.
  induction ps as [|p0 ps IH]; intros Hd Hin; [contradiction|].
  cbn [map distinct] in Hd. apply andb_true_iff in Hd.
  destruct Hd as [Hf Hd]. apply negb_true_iff in Hf.
  cbn [map dict_get sensor_entry].
  destruct Hin as [<-|Hin].
  - replace (pystr_eqb (sensor_name p0) (sensor_name p0)) with true;
      [reflexivity|].
    symmetry. now apply pystr_eqb_eq.
  - destruct (pystr_eqb (sensor_name p0) (sensor_name p)) eqn:E.
    + exfalso. assert (X : existsb (pystr_eqb (sensor_name p0))
                             (map sensor_name ps) = true).
      { apply existsb_exists. exists (sensor_name p).
        split; [now apply in_map | assumption]. }
      congruence.
    + now apply IH.
Qed.

(** C2, as the code has it: a sensor update in which a space follows
    every value, the last one included, gives the mapping with every pair
    present, in the order of the text and values as strings, and the
    broadcast list that the broadcast pattern finds in the text; this for
    names made of plain words, all different, and pairs in which the
    keyword does not occur.  The pairs of [x] with 5 and of [y] with 10
    give both pairs and no broadcast. *)
Theorem parse_sensor_update (ps : list sensor) :
  ps <> [] -> forallb plain_sensor ps = true ->
  distinct (map sensor_name ps) = true ->
  replace (lit "sensor-update") [] (List.concat (map group_text ps))
  = List.concat (map group_text ps) ->
  exists r,
    _parse_message (sensor_update_text ps) = Return (Some r)
    /\ sensor_update r = map sensor_entry ps
    /\ (forall p, In p ps ->
        dict_get (sensor_update r) (sensor_name p) = Some (snd p))
    /\ broadcast r = broadcast_names (sensor_update_text ps).
Proof.
  intros Hne Hp Hd Hkw. eexists. split; [|split; [|split]].
  - now apply well_formed_sensor_update_parses.
  - reflexivity.
  - intros p Hin. now apply dict_get_sensor.
  - reflexivity.
Qed.

Lemma parse_sensor_update_witness :
  exists r,
    _parse_message (lit "sensor-update " ++ quoted (lit "x") ++ lit " 5 "
                    ++ quoted (lit "y") ++ lit " 10 ")
    = Return (Some r)
    /\ sensor_update r = [(lit "x", lit "5"); (lit "y", lit "10")]
    /\ (forall p, In p [([lit "x"], lit "5"); ([lit "y"], lit "10")] ->
        dict_get (sensor_update r) (sensor_name p) = Some (snd p))
    /\ broadcast r = [].
Proof.
  refine (parse_sensor_update
            [([lit "x"], lit "5"); ([lit "y"], lit "10")] _ _ _ _).
  - discriminate.
  - reflexivity.
  - reflexivity.
  - vm_compute. reflexivity.
Defined.

(** C5, as the code has it: when a space follows the value, a quoted
    name of several words, one space between two of them, is reassembled
    into one key, the quotes stripped; this for plain words and a pair in
    which the keyword does not occur.  The name [my sensor] with the
    value 42 gives the one key [my sensor]. *)
Theorem parse_multi_word_name (words : list pystr) (value : pystr) :
  words <> [] -> forallb plain_word words = true ->
  plain_word value = true ->
  replace (lit "sensor-update") [] (group_text (words, value))
  = group_text (words, value) ->
  exists r,
    _parse_message (lit "sensor-update " ++ quoted (join_sp words)
                    ++ sp :: value ++ [sp])
    = Return (Some r)
    /\ sensor_update r = [(join_sp words, value)].
Proof.
  intros Hne Hw Hv Hkw.
  assert (E : lit "sensor-update " ++ quoted (join_sp words)
                ++ sp :: value ++ [sp]
              = sensor_update_text [(words, value)]).
  { unfold sensor_update_text, group_text, sensor_name.
    cbn [map List.concat fst snd]. now rewrite app_nil_r. }
  rewrite E. eexists. split.
  - apply well_formed_sensor_update_parses.
    + discriminate.
    + cbn [forallb]. unfold plain_sensor. cbn [fst snd].
      rewrite Hv, !andb_true_r. destruct words; [congruence | assumption].
    + reflexivity.
    + cbn [map List.concat]. now rewrite app_nil_r.
  - reflexivity.
Qed.

Lemma parse_multi_word_name_witness :
  exists r,
    _parse_message (lit "sensor-update " ++ quoted (lit "my sensor")
                    ++ lit " 42 ")
    = Return (Some r)
    /\ sensor_update r = [(lit "my sensor", lit "42")].
Proof.
  refine (parse_multi_word_name [lit "my"; lit "sensor"] (lit "42") _ _ _ _).
  - discriminate.
  - reflexivity.
  - reflexivity.
  - vm_compute. reflexivity.
Defined.

(** ** The two sensor examples *)

(** The text of the first example: with a space after every value, the
    last one included, it yields both pairs, values as strings, and no
    broadcast; without the final space the pattern stops before the last
    pair, and only the first is produced. *)
Lemma simple_sensor_update_example :
  _parse_message (lit "sensor-update " ++ quoted (lit "x") ++ lit " 5 "
                  ++ quoted (lit "y") ++ lit " 10 ")
  = Return (Some {| sensor_update := [(lit "x", lit "5"); (lit "y", lit "10")];
                    broadcast := [] |})
  /\ _parse_message (lit "sensor-update " ++ quoted (lit "x") ++ lit " 5 "
                     ++ quoted (lit "y") ++ lit " 10")
     = Return (Some {| sensor_update := [(lit "x", lit "5")];
                       broadcast := [] |}).
Proof. split; vm_compute; reflexivity. Qed.

(** C2 as the specification words it fails: on the text that ends with
    the value, the pair of [y] is not in the mapping. *)
Lemma parse_simple_loses_last_pair :
  exists p,
    _parse_message (lit "sensor-update " ++ quoted (lit "x") ++ lit " 5 "
                    ++ quoted (lit "y") ++ lit " 10")
    = Return (Some p)
    /\ dict_get (sensor_update p) (lit "y") = None
    /\ sensor_update p <> [(lit "x", lit "5"); (lit "y", lit "10")].
Proof.
  eexists. split; [vm_compute; reflexivity|].
  split; [reflexivity | discriminate].
Qed.

(** The text of the second example: with a space after the value, the
    quoted name with a space inside becomes one key, quotes stripped;
    without that space the pattern does not match and the mapping is
    empty. *)
Lemma multi_word_name_example :
  _parse_message (lit "sensor-update " ++ quoted (lit "my sensor")
                  ++ lit " 42 ")
  = Return (Some {| sensor_update := [(lit "my sensor", lit "42")];
                    broadcast := [] |})
  /\ _parse_message (lit "sensor-update " ++ quoted (lit "my sensor")
                     ++ lit " 42")
     = Return (Some {| sensor_update := []; broadcast := [] |}).
Proof. split; vm_compute; reflexivity. Qed.

(** C5 as the specification words it fails: the text that ends with the
    value gives no key at all. *)
Lemma multi_word_name_unmatched_without_space :
  exists p,
    _parse_message (lit "sensor-update " ++ quoted (lit "my sensor")
                    ++ lit " 42")
    = Return (Some p)
    /\ dict_get (sensor_update p) (lit "my sensor") = None
    /\ sensor_update p <> [(lit "my sensor", lit "42")].
Proof.
  eexists. split; [vm_compute; reflexivity|].
  split; [reflexivity | discriminate].
Qed.

(** ** The pairing loop on an odd number of tokens *)

Lemma dict_set_length (d : pydict) (k v : pystr) :
  (List.length (dict_set d k v) <= S (List.length d))%nat.
Proof.
  induction d as [|[k' v'] d IH]; simpl; [lia|].
  destruct (pystr_eqb k' k); simpl; lia.
Qed.

(** With an odd number of tokens left and no more keys than pairs read,
    the loop reaches the last token alone and the read after it fails. *)
Lemma pair_loop_odd (n : nat) :
  forall (total : nat) (rest : list pystr) (sensors : pydict),
    (List.length rest <= n)%nat ->
    Nat.odd (List.length rest) = true ->
    (2 * List.length sensors + List.length rest <= total)%nat ->
    pair_loop total rest sensors = Raise IndexError.
Proof.
  induction n as [|n IH]; intros total rest sensors Hn Hodd Hinv.
  - destruct rest; [discriminate | simpl in Hn; lia].
  - destruct rest as [|name [|value rest']].
    + discriminate.
    + simpl in *.
      replace (_ <? total)%nat with true; [reflexivity|].
      symmetry. apply Nat.ltb_lt. lia.
    + cbn [pair_loop].
      replace (_ <? total)%nat with true
        by (symmetry; apply Nat.ltb_lt; simpl in Hinv; lia).
      apply IH.
      * simpl in Hn. lia.
      * exact Hodd.
      * pose proof (dict_set_length sensors name value).
        simpl in Hinv. lia.
Qed.

Lemma pair_up_odd (sensorlist : list pystr) :
  Nat.odd (List.length sensorlist) = true ->
  pair_up sensorlist = Raise IndexError.
Proof.
  intros H. unfold pair_up.
  apply (pair_loop_odd (List.length sensorlist)); simpl; auto; lia.
Qed.

Lemma search_nil_sensorupdate : search sensorupdate_re [] = None.
Proof. reflexivity. Qed.

(** C6, as the code has it: for every text whose reassembled token list
    has odd length, the parse call fails, with the [IndexError] of the
    read past the last token; the trailing token is not dropped in
    silence, and the code has no parse error of its own. *)
Theorem odd_token_list_raises_IndexError (message m : pystr)
  (sensorlist : list pystr) :
  search sensorupdate_re message = Some m ->
  reassemble (fragments m) None [] = Return sensorlist ->
  Nat.odd (List.length sensorlist) = true ->
  _parse_message message = Raise IndexError.
Proof.
  intros Hs Hr Hodd. unfold _parse_message.
  destruct message as [|c message'].
  - rewrite search_nil_sensorupdate in Hs. discriminate.
  - rewrite Hs, Hr. cbn [bind]. rewrite (pair_up_odd _ Hodd). reflexivity.
Qed.

Lemma odd_token_list_raises_IndexError_witness :
  _parse_message (lit "sensor-update " ++ quoted (lit "a b") ++ lit " c d ")
  = Raise IndexError.
Proof.
  apply (odd_token_list_raises_IndexError
           (lit "sensor-update " ++ quoted (lit "a b") ++ lit " c d ")
           (lit "sensor-update " ++ quoted (lit "a b") ++ lit " c d ")
           [lit "a b"; lit "c"; lit "d"]);
    vm_compute; reflexivity.
Defined.

(** C6 as the specification words it fails: on a text with three
    tokens the error that leaves the call is [IndexError]. *)
Lemma odd_token_list_is_not_a_parse_error :
  exists m,
    search sensorupdate_re
      (lit "sensor-update " ++ quoted (lit "a b") ++ lit " c d ") = Some m
    /\ reassemble (fragments m) None []
       = Return [lit "a b"; lit "c"; lit "d"]
    /\ _parse_message
         (lit "sensor-update " ++ quoted (lit "a b") ++ lit " c d ")
       = Raise IndexError.
Proof.
  eexists. split; [vm_compute; reflexivity|].
  split; vm_compute; reflexivity.
Qed.

(** ** What [receive] and [_send] leave on the connection *)

(** One call of [recv] takes a prefix of what is unread, of at most the
    length asked for, and never touches the writing side. *)
Lemma recv_inv (n : nat) (c c' : connection) (r : outcome bytes) :
  recv n c = (r, c') ->
  outgoing c' = outgoing c /\ send_script c' = send_script c
  /\ match r with
     | Return chunk =>
       incoming c = chunk ++ incoming c' /\ (List.length chunk <= n)%nat
     | Raise e =>
       incoming c' = incoming c
       /\ exists args, e = SocketError args
                       /\ In (RecvFails args) (recv_script c)
     end
  /\ (forall ev, In ev (recv_script c') -> In ev (recv_script c)).
Proof.
  unfold recv. destruct (recv_script c) as [|[k|args] script] eqn:E;
    intros H; injection H as <- <-;
    cbn [incoming recv_script outgoing send_script].
  - repeat split; auto.
    + now rewrite firstn_skipn.
    + rewrite length_firstn. lia.
  - repeat split; auto.
    + now rewrite firstn_skipn.
    + rewrite length_firstn. lia.
    + intros ev Hev. now right.
  - repeat split; auto.
    + exists args. split; [reflexivity | now left].
    + intros ev Hev. now right.
Qed.

(** What the loop returns is what it held with a prefix of the unread
    bytes added, of the announced length exactly; what it raises is the
    [socket.error] of a failed read. *)
Lemma recv_loop_inv (fuel : nat) :
  forall (messlen : Z) (mess : bytes) (c c' : connection)
         (r : outcome bytes),
    Z.of_nat (List.length mess) <= messlen ->
    recv_loop fuel messlen mess c = Some (r, c') ->
    outgoing c' = outgoing c /\ send_script c' = send_script c
    /\ match r with
       | Return mess' =>
         exists rest, mess' = mess ++ rest
                      /\ incoming c = rest ++ incoming c'
                      /\ Z.of_nat (List.length mess') = messlen
       | Raise e =>
         exists args, e = SocketError args
                      /\ In (RecvFails args) (recv_script c)
       end.
Proof.
  induction fuel as [|fuel IH]; intros messlen mess c c' r Hle H.
  - simpl in H. destruct (_ <? _) eqn:E; [discriminate|].
    injection H as <- <-. apply Z.ltb_ge in E.
    repeat split; auto. exists []. rewrite app_nil_r. repeat split; auto. lia.
  - destruct (Z.of_nat (List.length mess) <? messlen) eqn:E.
    + apply Z.ltb_lt in E. rewrite recv_loop_more in H by assumption.
      destruct (recv _ c) as [[chunk|e] c1] eqn:Hr;
        apply recv_inv in Hr; destruct Hr as (Ho & Hs & Hr & Hev).
      * destruct Hr as [Hin Hlen].
        apply IH in H; [|rewrite length_app; lia].
        destruct H as (Ho' & Hs' & H).
        split; [congruence|]. split; [congruence|].
        destruct r as [mess'|e].
        -- destruct H as (rest & -> & Hin' & Hl).
           exists (chunk ++ rest). split; [now rewrite app_assoc|].
           split; [now rewrite Hin, Hin', app_assoc | assumption].
        -- destruct H as (args & -> & Ha). exists args. auto.
      * injection H as <- <-. destruct Hr as (_ & args & -> & Ha).
        repeat split; auto. exists args. auto.
    + rewrite recv_loop_done in H by (apply Z.ltb_ge in E; lia).
      injection H as <- <-. apply Z.ltb_ge in E.
      repeat split; auto. exists []. rewrite app_nil_r.
      repeat split; auto. lia.
Qed.

Lemma struct_unpack_inv (b : bytes) (n : Z) :
  struct_unpack b = Return n -> List.length b = 4%nat /\ 0 <= n.
Proof.
  destruct b as [|b0 [|b1 [|b2 [|b3 [|]]]]]; try discriminate.
  simpl. intros H. injection H as <-. split; [reflexivity|].
  pose proof (byte_val_range b0). pose proof (byte_val_range b1).
  pose proof (byte_val_range b2). pose proof (byte_val_range b3). lia.
Qed.

(** What the body of the [try] returns, and what it raises. *)
Lemma read_frame_inv (fuel : nat) (c c' : connection)
  (r : outcome (option bytes)) :
  read_frame fuel c = Some (r, c') ->
  outgoing c' = outgoing c /\ send_script c' = send_script c
  /\ match r with
     | Return (Some mess) =>
       incoming c = mess ++ incoming c'
       /\ struct_unpack (firstn 4 mess)
          = Return (Z.of_nat (List.length mess) - 4)
     | Return None => True
     | Raise e =>
       e = StructError
       \/ exists args, e = SocketError args
                       /\ In (RecvFails args) (recv_script c)
     end.
Proof.
  unfold read_frame.
  destruct (recv 4 c) as [[mess|e] c1] eqn:Hr;
    apply recv_inv in Hr; destruct Hr as (Ho & Hs & Hr & Hev).
  - destruct Hr as [Hin Hlen].
    destruct mess as [|b0 mess0] eqn:Em.
    { intros H. injection H as <- <-. auto. }
    rewrite <- Em in *.
    destruct (struct_unpack mess) as [n|e] eqn:Hu.
    + destruct (struct_unpack_inv _ _ Hu) as [Hl Hn].
      destruct (recv_loop fuel (n + 4) mess c1) as [[[mess'|e] c2]|] eqn:Hloop;
        [| |discriminate];
        apply recv_loop_inv in Hloop; try lia;
        destruct Hloop as (Ho' & Hs' & Hloop);
        intros H; injection H as <- <-;
        (split; [congruence|]); (split; [congruence|]).
      * destruct Hloop as (rest & -> & Hin' & Hl').
        split.
        -- rewrite Hin, Hin'. now rewrite app_assoc.
        -- rewrite firstn_app, Hl, Nat.sub_diag, firstn_O, app_nil_r.
           rewrite <- Hl, firstn_all, Hu. f_equal. lia.
      * right. destruct Hloop as (args & -> & Ha). exists args. auto.
    + intros H. injection H as <- <-. repeat split; auto. left.
      destruct mess as [|a0 [|a1 [|a2 [|a3 [|]]]]];
        simpl in Hu; congruence.
  - intros H. injection H as <- <-. destruct Hr as (_ & args & -> & Ha).
    repeat split; auto. right. exists args. auto.
Qed.

(** X6: whatever the transport does, the bytes that [receive] returns in
    raw mode are one frame exactly: their first four bytes announce the
    number of bytes that follow them, they are the first bytes that
    were unread, and nothing after them is taken from the stream;
    nothing is written. *)
Theorem receive_raw_is_one_frame (fuel : nat) (c c' : connection)
  (mess : bytes) :
  receive fuel 2 c = Some (Return (RRaw mess), c') ->
  struct_unpack (firstn 4 mess) = Return (Z.of_nat (List.length mess) - 4)
  /\ incoming c = mess ++ incoming c'
  /\ outgoing c' = outgoing c.
Proof.
  unfold receive.
  destruct (read_frame fuel c) as [[[[m|]|e] c1]|] eqn:Hr; try discriminate.
  apply read_frame_inv in Hr. destruct Hr as (Ho & _ & Hin & Hu).
  destruct m as [|b m]; [discriminate|].
  cbn [deliver]. replace (2 =? 0) with false by reflexivity.
  replace (2 =? 1) with false by reflexivity.
  replace (2 =? 2) with true by reflexivity.
  intros H. injection H as <- <-. auto.
Qed.

Lemma receive_raw_is_one_frame_witness :
  struct_unpack (firstn 4 [x00; x00; x00; x02; x68; x69])
  = Return (Z.of_nat (List.length [x00; x00; x00; x02; x68; x69]) - 4)
  /\ incoming (peer_sends [x00; x00; x00; x02; x68; x69; x00; x00]
                 [Deliver 7; Deliver 1])
     = [x00; x00; x00; x02; x68; x69]
       ++ incoming (peer_sends [x00; x00] [])
  /\ outgoing (peer_sends [x00; x00] [])
     = outgoing (peer_sends [x00; x00; x00; x02; x68; x69; x00; x00]
                   [Deliver 7; Deliver 1]).
Proof.
  apply (receive_raw_is_one_frame 3). reflexivity.
Defined.

(** ** The pairing loop on any token list *)

Lemma pair_loop_eq (total : nat) (rest : list pystr) (sensors : pydict) :
  pair_loop total rest sensors
  = if (2 * List.length sensors <? total)%nat then
      match rest with
      | name :: value :: rest' =>
        pair_loop total rest' (dict_set sensors name value)
      | _ => Raise IndexError
      end
    else Return sensors.
Proof. destruct rest; reflexivity. Qed.

Lemma dict_set_present (d : pydict) (k v : pystr) :
  existsb (pystr_eqb k) (map fst d) = true ->
  List.length (dict_set d k v) = List.length d.
Proof.
  induction d as [|[k' v'] d IH]; [discriminate|].
  cbn [map fst existsb dict_set]. rewrite (pystr_eqb_sym k k').
  destruct (pystr_eqb k' k); [reflexivity|].
  cbn [orb List.length]. intros H. now rewrite IH.
Qed.

(** Once the mapping holds fewer keys than pairs were read, the loop
    runs past the end of the list. *)
Lemma pair_loop_behind (n : nat) :
  forall (total : nat) (rest : list pystr) (sensors : pydict),
    (List.length rest <= n)%nat ->
    (2 * List.length sensors + List.length rest < total)%nat ->
    pair_loop total rest sensors = Raise IndexError.
Proof.
  induction n as [|n IH]; intros total rest sensors Hn Hinv;
    rewrite pair_loop_eq;
    (replace (_ <? total)%nat with true
       by (symmetry; apply Nat.ltb_lt; lia)).
  - destruct rest; [reflexivity | simpl in Hn; lia].
  - destruct rest as [|name [|value rest']]; try reflexivity.
    apply IH.
    + simpl in Hn. lia.
    + pose proof (dict_set_length sensors name value).
      simpl in Hinv. lia.
Qed.

Lemma distinct_repeated (k : pystr) (a b : list pystr) :
  existsb (pystr_eqb k) a = true -> distinct (a ++ k :: b) = false.
Proof.
  induction a as [|x a IH]; [discriminate|].
  cbn [existsb app distinct]. intros H.
  destruct (pystr_eqb k x) eqn:E.
  - rewrite existsb_app. cbn [existsb].
    rewrite (pystr_eqb_sym x k), E, orb_true_r. reflexivity.
  - rewrite IH by exact H. apply andb_false_r.
Qed.

Lemma distinct_fresh (k : pystr) (a : list pystr) :
  distinct a = true -> existsb (pystr_eqb k) a = false ->
  distinct (a ++ [k]) = true.
Proof.
  induction a as [|x a IH]; [reflexivity|].
  cbn [existsb app distinct]. intros Hd Hk.
  apply andb_true_iff in Hd. destruct Hd as [Hx Hd].
  apply orb_false_iff in Hk. destruct Hk as [Hkx Hk].
  rewrite IH by assumption. rewrite andb_true_r.
  rewrite existsb_app. cbn [existsb].
  rewrite (pystr_eqb_sym x k), Hkx.
  apply negb_true_iff in Hx. rewrite Hx. reflexivity.
Qed.

(** The loop on any list: the pairs in the order of the list when the
    tokens are even in number and no name is met twice, [IndexError]
    otherwise. *)
Lemma pair_loop_spec (n : nat) :
  forall (rest : list pystr) (done : pydict) (total : nat),
    (List.length rest <= n)%nat ->
    total = (2 * List.length done + List.length rest)%nat ->
    distinct (map fst done) = true ->
    pair_loop total rest done
    = if Nat.even (List.length rest)
         && distinct (map fst done ++ map fst (pairs_of rest))
      then Return (done ++ pairs_of rest)
      else Raise IndexError.
Proof.
  induction n as [|n IH]; intros rest done total Hn Ht Hd;
    rewrite pair_loop_eq.
  - destruct rest; [|simpl in Hn; lia].
    replace (_ <? total)%nat with false
      by (symmetry; apply Nat.ltb_ge; simpl in Ht; lia).
    cbn [List.length Nat.even pairs_of map]. rewrite !app_nil_r, Hd.
    reflexivity.
  - destruct rest as [|name [|value rest']].
    + replace (_ <? total)%nat with false
        by (symmetry; apply Nat.ltb_ge; simpl in Ht; lia).
      cbn [List.length Nat.even pairs_of map]. rewrite !app_nil_r, Hd.
      reflexivity.
    + replace (_ <? total)%nat with true
        by (symmetry; apply Nat.ltb_lt; simpl in Ht; lia).
      reflexivity.
    + replace (_ <? total)%nat with true
        by (symmetry; apply Nat.ltb_lt; simpl in Ht; lia).
      cbn [List.length Nat.even pairs_of map fst].
      destruct (existsb (pystr_eqb name) (map fst done)) eqn:E.
      * rewrite (distinct_repeated _ _ _ E), andb_false_r.
        apply (pair_loop_behind n); [simpl in Hn; lia|].
        rewrite (dict_set_present _ _ _ E). simpl in Ht. lia.
      * rewrite (dict_set_fresh _ _ _ E).
        rewrite (IH rest' (done ++ [(name, value)]) total).
        -- rewrite map_app. cbn [map fst]. rewrite <- !app_assoc.
           reflexivity.
        -- simpl in Hn. lia.
        -- rewrite length_app. simpl in *. lia.
        -- rewrite map_app. cbn [map fst].
           now apply distinct_fresh.
Qed.

Lemma pair_up_spec (sensorlist : list pystr) :
  pair_up sensorlist
  = if Nat.even (List.length sensorlist)
       && distinct (map fst (pairs_of sensorlist))
    then Return (pairs_of sensorlist)
    else Raise IndexError.
Proof.
  unfold pair_up.
  now rewrite (pair_loop_spec (List.length sensorlist) sensorlist []).
Qed.

(** ** What [_parse_message] returns and raises *)

Lemma split_go_nonempty (s : pystr) :
  forall (cur f : pystr), In f (split_go s cur) -> f <> [].
Proof.
  induction s as [|c s IH]; intros cur f; cbn [split_go].
  - destruct cur; [intros [] | intros [<- | []]; discriminate].
  - destruct (is_space c).
    + destruct cur as [|x cur]; [apply IH|].
      intros [<- | H]; [discriminate | now apply IH in H].
    + apply IH.
Qed.

Lemma last_char_nonempty (f : pystr) :
  f <> [] -> exists c, last_char f = Return c.
Proof.
  intros H. unfold last_char. destruct (rev f) as [|c r] eqn:E; [|eauto].
  apply (f_equal (@rev Z)) in E. rewrite rev_involutive in E. simpl in E.
  contradiction.
Qed.

(** The loop over the fragments of [split()] never fails: no fragment
    is empty. *)
Lemma reassemble_returns (frs : list pystr) :
  (forall f, In f frs -> f <> []) ->
  forall (multisense : option pystr) (acc : list pystr),
    exists l, reassemble frs multisense acc = Return l.
Proof.
  induction frs as [|f frs IH]; intros Hne multisense acc.
  - destruct multisense; cbn [reassemble]; eauto.
  - assert (Hf : f <> []) by (apply Hne; now left).
    assert (Hrest : forall g, In g frs -> g <> [])
      by (intros g Hg; apply Hne; now right).
    destruct (last_char_nonempty f Hf) as [l Hl].
    destruct f as [|c f']; [contradiction|].
    destruct multisense as [m|]; cbn [reassemble first_char bind];
      rewrite Hl; cbn [bind].
    + destruct (l =? dq); apply IH; assumption.
    + destruct (c =? dq); [destruct (negb (l =? dq))|]; apply IH; assumption.
Qed.

Lemma reassemble_fragments_returns (m : pystr) :
  exists l, reassemble (fragments m) None [] = Return l.
Proof.
  apply reassemble_returns. intros f. unfold fragments, split.
  apply split_go_nonempty.
Qed.

(** The outcome of [_parse_message] on any text that is not empty, in
    the tokens that the reassembly loop yields. *)
Lemma _parse_message_tokens (message m : pystr) (sensorlist : list pystr) :
  search sensorupdate_re message = Some m ->
  reassemble (fragments m) None [] = Return sensorlist ->
  _parse_message message
  = if Nat.even (List.length sensorlist)
       && distinct (map fst (pairs_of sensorlist))
    then Return (Some {| sensor_update := pairs_of sensorlist;
                         broadcast := broadcast_names message |})
    else Raise IndexError.
Proof.
  intros Hs Hr. unfold _parse_message.
  destruct message as [|c message'].
  - rewrite search_nil_sensorupdate in Hs. discriminate.
  - rewrite Hs, Hr. cbn [bind]. rewrite pair_up_spec.
    destruct (_ && _); reflexivity.
Qed.

(** X1: [_parse_message] returns [None] for the empty text and for no
    other text. *)
Theorem parse_none_iff_empty (message : pystr) :
  _parse_message message = Return None <-> message = [].
Proof.
  split; [|intros ->; reflexivity].
  destruct message as [|c message']; [reflexivity|].
  unfold _parse_message.
  destruct (search sensorupdate_re (c :: message')) as [m|];
    [|discriminate].
  destruct (reassemble (fragments m) None []) as [l|e]; [|discriminate].
  cbn [bind]. destruct (pair_up l); discriminate.
Qed.

(** X2: the only exception that leaves [_parse_message] is [IndexError],
    and it comes from the pairing loop alone: the pattern has matched,
    the reassembly loop has returned its tokens, and they are odd in
    number or a name is met twice among them. *)
Theorem parse_raises_only_IndexError (message : pystr) (e : exn) :
  _parse_message message = Raise e ->
  e = IndexError
  /\ exists m sensorlist,
       search sensorupdate_re message = Some m
       /\ reassemble (fragments m) None [] = Return sensorlist
       /\ Nat.even (List.length sensorlist)
          && distinct (map fst (pairs_of sensorlist)) = false.
Proof.
  destruct message as [|c message']; [discriminate|].
  destruct (search sensorupdate_re (c :: message')) as [m|] eqn:Hs.
  - destruct (reassemble_fragments_returns m) as [l Hl].
    rewrite (_parse_message_tokens _ _ _ Hs Hl).
    destruct (_ && _) eqn:E; [discriminate|].
    intros H. injection H as <-. split; [reflexivity|].
    exists m, l. auto.
  - unfold _parse_message. rewrite Hs. discriminate.
Qed.

Lemma parse_raises_only_IndexError_witness :
  IndexError = IndexError
  /\ exists m sensorlist,
       search sensorupdate_re
         (lit "sensor-update " ++ quoted (lit "x") ++ lit " 1 2 ") = Some m
       /\ reassemble (fragments m) None [] = Return sensorlist
       /\ Nat.even (List.length sensorlist)
          && distinct (map fst (pairs_of sensorlist)) = false.
Proof.
  apply (parse_raises_only_IndexError
           (lit "sensor-update " ++ quoted (lit "x") ++ lit " 1 2 ")).
  vm_compute. reflexivity.
Defined.

(** X3: when the tokens are even in number, the parse succeeds exactly
    when no name is met twice among them, and the mapping is then the
    pairs in the order of the text.  A sensor update that names a
    sensor twice fails with [IndexError]: the mapping holds fewer keys
    than half the tokens, so the loop reads past the last token. *)
Theorem repeated_name_raises_IndexError (message m : pystr)
  (sensorlist : list pystr) :
  search sensorupdate_re message = Some m ->
  reassemble (fragments m) None [] = Return sensorlist ->
  Nat.even (List.length sensorlist) = true ->
  _parse_message message
  = if distinct (map fst (pairs_of sensorlist))
    then Return (Some {| sensor_update := pairs_of sensorlist;
                         broadcast := broadcast_names message |})
    else Raise IndexError.
Proof.
  intros Hs Hr He. now rewrite (_parse_message_tokens _ _ _ Hs Hr), He.
Qed.

Lemma repeated_name_raises_IndexError_witness :
  _parse_message (lit "sensor-update " ++ quoted (lit "x") ++ lit " 1 "
                  ++ quoted (lit "x") ++ lit " 2 ")
  = Raise IndexError.
Proof.
  apply (repeated_name_raises_IndexError
           (lit "sensor-update " ++ quoted (lit "x") ++ lit " 1 "
            ++ quoted (lit "x") ++ lit " 2 ")
           (lit "sensor-update " ++ quoted (lit "x") ++ lit " 1 "
            ++ quoted (lit "x") ++ lit " 2 ")
           [lit "x"; lit "1"; lit "x"; lit "2"]);
    vm_compute; reflexivity.
Defined.

(** ** What [receive] and [_send] raise *)

Lemma parse_raises_IndexError (message : pystr) (e : exn) :
  _parse_message message = Raise e -> e = IndexError.
Proof.
  destruct message as [|c message']; [discriminate|].
  destruct (search sensorupdate_re (c :: message')) as [m|] eqn:Hs.
  - destruct (reassemble_fragments_returns m) as [l Hl].
    rewrite (_parse_message_tokens _ _ _ Hs Hl).
    destruct (_ && _); [discriminate | congruence].
  - unfold _parse_message. rewrite Hs. discriminate.
Qed.

Lemma deliver_raises (noparse : Z) (mess : bytes) (e : exn) :
  deliver noparse mess = Raise e ->
  e = IndexError /\ noparse <> 1 /\ noparse <> 2.
Proof.
  unfold deliver. destruct mess as [|b mess]; [discriminate|].
  destruct (noparse =? 0) eqn:E0.
  - apply Z.eqb_eq in E0. subst.
    destruct (_parse_message _) as [p|e'] eqn:Hp; [discriminate|].
    cbn [bind]. intros H. injection H as <-.
    apply parse_raises_IndexError in Hp. repeat split; auto; lia.
  - destruct (noparse =? 1) eqn:E1; [discriminate|].
    destruct (noparse =? 2) eqn:E2; [discriminate|].
    apply Z.eqb_neq in E1, E2.
    destruct (_parse_message _) as [p|e'] eqn:Hp; [discriminate|].
    cbn [bind]. intros H. injection H as <-.
    apply parse_raises_IndexError in Hp. auto.
Qed.

(** X8: no [socket.error] leaves [receive].  What it raises is
    [ScratchConnectionError] with the error number and the message of a
    read that failed, [ValueError] when the arguments of that error are
    not two, [struct.error], or the [IndexError] of the parser, in the
    parsing modes only. *)
Theorem receive_raises (fuel : nat) (noparse : Z) (c c' : connection)
  (e : exn) :
  receive fuel noparse c = Some (Raise e, c') ->
  (exists errno message,
     e = ScratchConnectionError [errno; message]
     /\ In (RecvFails [errno; message]) (recv_script c))
  \/ (e = ValueError
      /\ exists args, In (RecvFails args) (recv_script c)
                      /\ List.length args <> 2%nat)
  \/ e = StructError
  \/ (e = IndexError /\ noparse <> 1 /\ noparse <> 2).
Proof.
  unfold receive.
  destruct (read_frame fuel c) as [[[[m|]|e0] c1]|] eqn:Hr; try discriminate.
  - intros H. injection H as H <-. apply deliver_raises in H. auto.
  - apply read_frame_inv in Hr. destruct Hr as (_ & _ & [-> | Hr]).
    + intros H. injection H as <- <-. auto.
    + destruct Hr as (args & -> & Ha). intros H. injection H as <- <-.
      destruct args as [|a0 [|a1 [|a2 args]]]; cbn [receive_handler].
      * right. left. split; [reflexivity|]. eexists. split; [eassumption|].
        discriminate.
      * right. left. split; [reflexivity|]. eexists. split; [eassumption|].
        discriminate.
      * left. eauto.
      * right. left. split; [reflexivity|]. eexists. split; [eassumption|].
        discriminate.
Qed.

Lemma receive_raises_witness :
  (exists errno message,
     ScratchConnectionError [AInt 104; AStr (lit "reset")]
     = ScratchConnectionError [errno; message]
     /\ In (RecvFails [errno; message])
           (recv_script
              (peer_sends [x00; x00; x00; x02; x68; x69]
                 [Deliver 4; Deliver 1;
                  RecvFails [AInt 104; AStr (lit "reset")]])))
  \/ (ScratchConnectionError [AInt 104; AStr (lit "reset")] = ValueError
      /\ exists args,
           In (RecvFails args)
              (recv_script
                 (peer_sends [x00; x00; x00; x02; x68; x69]
                    [Deliver 4; Deliver 1;
                     RecvFails [AInt 104; AStr (lit "reset")]]))
           /\ List.length args <> 2%nat)
  \/ ScratchConnectionError [AInt 104; AStr (lit "reset")] = StructError
  \/ (ScratchConnectionError [AInt 104; AStr (lit "reset")] = IndexError
      /\ 0 <> 1 /\ 0 <> 2).
Proof.
  apply (receive_raises 5 0
           (peer_sends [x00; x00; x00; x02; x68; x69]
              [Deliver 4; Deliver 1;
               RecvFails [AInt 104; AStr (lit "reset")]])
           (peer_sends [x69] [])).
  reflexivity.
Defined.

(** X9: [_send] raises before it writes when the text does not encode
    ([UnicodeEncodeError]) or its encoding is [2^32] bytes long or more
    ([struct.error]): the connection is left as it was.  Otherwise it
    raises only when [sendall] fails: a prefix of the frame is written
    then, and the exception is [ScratchConnectionError] with the
    message of the [socket.error] alone, the error number dropped
    ([ValueError] when the arguments of the error are not two).  No
    [socket.error] leaves [_send]. *)
Theorem _send_raises (message : pystr) (c c' : connection) (e : exn) :
  _send message c = (Raise e, c') ->
  (e = UnicodeEncodeError /\ encode message = None /\ c' = c)
  \/ (e = StructError /\ c' = c
      /\ exists payload, encode message = Some payload
                         /\ two32 <= Z.of_nat (List.length payload))
  \/ exists payload data written args script,
       encode message = Some payload
       /\ frame payload = Return data
       /\ send_script c = SendFails written args :: script
       /\ outgoing c' = outgoing c ++ firstn written data
       /\ incoming c' = incoming c
       /\ e = match args with
              | [err; msg] => ScratchConnectionError [msg]
              | _ => ValueError
              end.
Proof.
  unfold _send.
  destruct (encode message) as [payload|] eqn:He.
  2:{ intros H. injection H as <- <-. auto. }
  destruct (frame payload) as [data|e0] eqn:Hfr.
  - unfold sendall.
    destruct (send_script c) as [|[|written args] script] eqn:Hs;
      try discriminate.
    intros H. right. right. exists payload, data, written, args, script.
    destruct args as [|a0 [|a1 [|a2 args]]]; injection H as <- <-;
      repeat split; auto.
  - intros H. injection H as <- <-. right. left.
    unfold frame, struct_pack in Hfr.
    destruct ((0 <=? _) && _) eqn:E; [discriminate|].
    cbn [bind] in Hfr. injection Hfr as <-.
    repeat split; auto. exists payload. split; [reflexivity|].
    apply andb_false_iff in E. destruct E as [E|E].
    + apply Z.leb_gt in E. lia.
    + now apply Z.ltb_ge in E.
Qed.

Lemma _send_raises_witness :
  (ScratchConnectionError [AStr (lit "Broken pipe")] = UnicodeEncodeError
   /\ encode (lit "hi") = None
   /\ {| incoming := []; recv_script := [];
         outgoing := [x00; x00; x00; x02; x68]; send_script := [] |}
      = {| incoming := []; recv_script := []; outgoing := [];
           send_script :=
             [SendFails 5 [AInt 32; AStr (lit "Broken pipe")]] |})
  \/ (ScratchConnectionError [AStr (lit "Broken pipe")] = StructError
      /\ {| incoming := []; recv_script := [];
            outgoing := [x00; x00; x00; x02; x68]; send_script := [] |}
         = {| incoming := []; recv_script := []; outgoing := [];
              send_script :=
                [SendFails 5 [AInt 32; AStr (lit "Broken pipe")]] |}
      /\ exists payload, encode (lit "hi") = Some payload
                         /\ two32 <= Z.of_nat (List.length payload))
  \/ exists payload data written args script,
       encode (lit "hi") = Some payload
       /\ frame payload = Return data
       /\ [SendFails 5 [AInt 32; AStr (lit "Broken pipe")]]
          = SendFails written args :: script
       /\ [x00; x00; x00; x02; x68] = [] ++ firstn written data
       /\ @nil byte = []
       /\ ScratchConnectionError [AStr (lit "Broken pipe")]
          = match args with
            | [err; msg] => ScratchConnectionError [msg]
            | _ => ValueError
            end.
Proof.
  apply (_send_raises (lit "hi")
           {| incoming := []; recv_script := []; outgoing := [];
              send_script :=
                [SendFails 5 [AInt 32; AStr (lit "Broken pipe")]] |}
           {| incoming := []; recv_script := [];
              outgoing := [x00; x00; x00; x02; x68]; send_script := [] |}).
  reflexivity.
Defined.

(** ** The frames of [sensorupdate] and [broadcast] *)

Lemma fold_left_app_flat_map {A : Type} (f : A -> pystr) (l : list A) :
  forall init,
    fold_left (fun message x => message ++ f x) l init
    = init ++ flat_map f l.
Proof.
  induction l as [|x l IH]; intros init; cbn [fold_left flat_map].
  - now rewrite app_nil_r.
  - now rewrite IH, app_assoc.
Qed.

Lemma sensorupdate_sends (d : list (atom * atom)) (c : connection) :
  sensorupdate (PyDict d) c = _send (sensorupdate_message d) c.
Proof.
  unfold sensorupdate, sensorupdate_message. f_equal.
  apply (fold_left_app_flat_map
           (fun kv => [sp] ++ quoted (py_str (fst kv)) ++ [sp]
                      ++ py_str (snd kv))).
Qed.

Lemma broadcast_sends (l : list atom) (c : connection) :
  Scratch.broadcast (inl l) c = _send (broadcast_message l) c.
Proof.
  unfold Scratch.broadcast, broadcast_message. f_equal.
  apply (fold_left_app_flat_map (fun mess => [sp] ++ quoted (py_str mess))).
Qed.

Lemma _send_frame (message : pystr) (c c' : connection) :
  _send message c = (Return tt, c') ->
  exists prefix payload,
    encode message = Some payload
    /\ struct_unpack prefix = Return (Z.of_nat (List.length payload))
    /\ outgoing c' = outgoing c ++ prefix ++ payload
    /\ incoming c' = incoming c.
Proof.
  intros H.
  destruct (_send_inv _ _ _ H) as (payload & data & He & Hfr & Ho & Hi & _).
  destruct (frame_inv _ _ Hfr) as (prefix & Hpk & ->).
  exists prefix, payload. repeat split; auto.
  now apply struct_unpack_pack.
Qed.

(** X10: when [sensorupdate] returns for a mapping, it has written one
    frame after what was written before: a four-byte prefix that holds
    the length of the payload, and the payload, the UTF-8 bytes of the
    keyword followed, for every entry in the order of the mapping, by a
    space, the name between double quotes, a space and the value as it
    is, nothing escaped. *)
Theorem sensorupdate_writes_one_frame (d : list (atom * atom))
  (c c' : connection) :
  sensorupdate (PyDict d) c = (Return tt, c') ->
  exists prefix payload,
    encode (lit "sensor-update"
            ++ flat_map (fun kv => sp :: quoted (py_str (fst kv))
                                      ++ sp :: py_str (snd kv)) d)
    = Some payload
    /\ struct_unpack prefix = Return (Z.of_nat (List.length payload))
    /\ outgoing c' = outgoing c ++ prefix ++ payload
    /\ incoming c' = incoming c.
Proof.
  rewrite sensorupdate_sends. apply _send_frame.
Qed.

Lemma sensorupdate_writes_one_frame_witness :
  exists prefix payload,
    encode (lit "sensor-update"
            ++ flat_map (fun kv => sp :: quoted (py_str (fst kv))
                                      ++ sp :: py_str (snd kv))
                 [(AStr (lit "x"), AInt 5); (AStr (lit "on"), ABool true)])
    = Some payload
    /\ struct_unpack prefix = Return (Z.of_nat (List.length payload))
    /\ outgoing
         (snd (sensorupdate
                 (PyDict [(AStr (lit "x"), AInt 5);
                          (AStr (lit "on"), ABool true)])
                 (peer_sends [] [])))
       = outgoing (peer_sends [] []) ++ prefix ++ payload
    /\ incoming
         (snd (sensorupdate
                 (PyDict [(AStr (lit "x"), AInt 5);
                          (AStr (lit "on"), ABool true)])
                 (peer_sends [] [])))
       = incoming (peer_sends [] []).
Proof.
  apply (sensorupdate_writes_one_frame
           [(AStr (lit "x"), AInt 5); (AStr (lit "on"), ABool true)]
           (peer_sends [] [])).
  reflexivity.
Defined.

(** X12: [broadcast] of a list writes the frame of the keyword followed,
    for every message in the order of the list, by a space and the
    message between double quotes; [broadcast] of a single scalar does
    what [broadcast] of the list that holds it alone does. *)
Theorem broadcast_of_one_message (a : atom) (l : list atom)
  (c : connection) :
  Scratch.broadcast (inr a) c = Scratch.broadcast (inl [a]) c
  /\ Scratch.broadcast (inl l) c
     = _send (lit "broadcast"
              ++ flat_map (fun mess => sp :: quoted (py_str mess)) l) c.
Proof.
  split; [reflexivity | apply broadcast_sends].
Qed.

(** ** [sensorupdate_re] where a group is not closed *)

(** [[^...]*] followed by what matches at none of its stops does not
    match. *)
Lemma star_loop_notset_none (cs : list Z) (k : pystr -> option pystr)
  (rest : pystr) :
  match rest with [] => true | q :: _ => mem q cs end = true ->
  forall (t : pystr) (n : nat),
    (forall t1 t2, t = t1 ++ t2 -> k (t2 ++ rest) = None) ->
    star_loop (rmatch (RNotSet cs)) k n (t ++ rest) = None.
Proof.
  intros Hrest. induction t as [|c t IH]; intros n Hk.
  - cbn [app]. destruct n as [|n]; cbn [star_loop].
    + apply (Hk [] []). reflexivity.
    + replace (rmatch (RNotSet cs) rest _) with (@None pystr).
      * apply (Hk [] []). reflexivity.
      * destruct rest as [|q rest']; [reflexivity|].
        now rewrite rmatch_notset, Hrest.
  - destruct n as [|n]; cbn [app star_loop].
    + apply (Hk [] (c :: t)). reflexivity.
    + rewrite rmatch_notset.
      assert (E : star_loop (rmatch (RNotSet cs)) k n (t ++ rest) = None).
      { apply IH. intros t1 t2 ->. apply (Hk (c :: t1) t2). reflexivity. }
      rewrite E.
      assert (Hc : k (c :: t ++ rest) = None)
        by (apply (Hk [] (c :: t)); reflexivity).
      destruct (mem c cs); [assumption|].
      destruct (_ <? _)%nat; assumption.
Qed.

Lemma rmatch_star_notset_none (cs : list Z) (k : pystr -> option pystr)
  (t rest : pystr) :
  match rest with [] => true | q :: _ => mem q cs end = true ->
  (forall t1 t2, t = t1 ++ t2 -> k (t2 ++ rest) = None) ->
  rmatch (RStar (RNotSet cs)) (t ++ rest) k = None.
Proof. intros. cbn [rmatch]. now apply star_loop_notset_none. Qed.

Lemma forallb_app_inv {A : Type} (f : A -> bool) (t t1 t2 : list A) :
  forallb f t = true -> t = t1 ++ t2 -> forallb f t2 = true.
Proof.
  intros H ->. rewrite forallb_app in H. now apply andb_true_iff in H.
Qed.

Lemma rmatch_dot_cons (c : Z) (s : pystr) (k : pystr -> option pystr) :
  rmatch RDot (c :: s) k = if c =? nl then None else k s.
Proof. reflexivity. Qed.

Lemma not_quote (a : Z) : negb (mem a [dq]) = true -> (dq =? a) = false.
Proof.
  intros H. apply negb_true_iff in H. unfold mem in H. cbn [existsb] in H.
  rewrite orb_false_r in H. now rewrite Z.eqb_sym.
Qed.

(** A quoted name and a value that ends the text, or that the space
    does not follow: the group does not match. *)
Lemma name_value_unclosed (c d : Z) (nt vt : pystr)
  (k : pystr -> option pystr) :
  forallb (fun a => negb (mem a [dq])) nt = true ->
  (d =? dq) = false ->
  forallb (fun a => negb (mem a [dq]) && negb (a =? sp)) vt = true ->
  rmatch name_value_re (dq :: c :: nt ++ dq :: sp :: d :: vt) k = None.
Proof.
  intros Hnt Hd Hvt.
  unfold name_value_re. cbn [rseq].
  rewrite rmatch_group, rmatch_seq, rmatch_group, rmatch_seq, rmatch_group.
  rewrite rmatch_lit_cons, Z.eqb_refl, rmatch_seq, rmatch_dot_cons.
  destruct (c =? nl); [reflexivity|].
  rewrite rmatch_seq.
  apply rmatch_star_notset_none; [reflexivity|].
  intros t1 t2 Ht. cbv beta. rewrite rmatch_group.
  destruct t2 as [|a t2].
  - cbn [app]. rewrite rmatch_lit_cons, Z.eqb_refl.
    rewrite rmatch_seq, rmatch_set_cons, mem_sp_sp, Z.eqb_refl.
    rewrite rmatch_seq, rmatch_group, rmatch_alt, rmatch_lit_cons.
    rewrite (Z.eqb_sym dq d), Hd, rmatch_empty.
    rewrite rmatch_seq, rmatch_group, rmatch_seq, rmatch_dot_cons.
    destruct (d =? nl); [reflexivity|].
    replace vt with (vt ++ []) by apply app_nil_r.
    apply rmatch_star_notset_none; [reflexivity|].
    intros v1 v2 Hv. cbv beta.
    rewrite rmatch_seq, rmatch_group, rmatch_alt, rmatch_empty.
    destruct v2 as [|b v2]; [reflexivity|].
    pose proof (forallb_app_inv _ _ _ _ Hvt Hv) as Hb.
    cbn [forallb] in Hb. apply andb_true_iff in Hb. destruct Hb as [Hb _].
    apply andb_true_iff in Hb. destruct Hb as [Hq Hs].
    apply not_quote in Hq. apply negb_true_iff in Hs.
    cbn [app].
    now rewrite rmatch_lit_cons, Hq, rmatch_set_cons, mem_sp_sp, Hs.
  - pose proof (forallb_app_inv _ _ _ _ Hnt Ht) as Ha.
    cbn [forallb] in Ha. apply andb_true_iff in Ha. destruct Ha as [Ha _].
    apply not_quote in Ha.
    cbn [app]. now rewrite rmatch_lit_cons, Ha.
Qed.

(** A quoted name that ends the text: the group does not match. *)
Lemma name_value_lone_name (name : pystr) (k : pystr -> option pystr) :
  mem dq name = false -> rmatch name_value_re (quoted name) k = None.
Proof.
  intros Hn. unfold quoted, name_value_re. cbn [rseq].
  rewrite rmatch_group, rmatch_seq, rmatch_group, rmatch_seq, rmatch_group.
  rewrite rmatch_lit_cons, Z.eqb_refl, rmatch_seq.
  destruct name as [|c nt]; [reflexivity|].
  apply mem_cons_false in Hn. destruct Hn as [_ Hn].
  apply forallb_not_quote in Hn.
  cbn [app]. rewrite rmatch_dot_cons.
  destruct (c =? nl); [reflexivity|].
  rewrite rmatch_seq.
  apply rmatch_star_notset_none; [reflexivity|].
  intros t1 t2 Ht. cbv beta. rewrite rmatch_group.
  destruct t2 as [|a t2].
  - cbn [app]. rewrite rmatch_lit_cons, Z.eqb_refl. reflexivity.
  - pose proof (forallb_app_inv _ _ _ _ Hn Ht) as Ha.
    cbn [forallb] in Ha. apply andb_true_iff in Ha. destruct Ha as [Ha _].
    apply not_quote in Ha.
    cbn [app]. now rewrite rmatch_lit_cons, Ha.
Qed.

(** A text that does not start with a quote, and a text whose only
    quote is its first character: the group does not match. *)
Lemma name_value_not_opened (s : pystr) (k : pystr -> option pystr) :
  match s with [] => true | a :: _ => negb (a =? dq) end = true ->
  rmatch name_value_re s k = None.
Proof.
  intros H. unfold name_value_re. cbn [rseq].
  rewrite rmatch_group, rmatch_seq, rmatch_group, rmatch_seq, rmatch_group.
  destruct s as [|a s]; [reflexivity|].
  apply negb_true_iff in H.
  now rewrite rmatch_lit_cons, (Z.eqb_sym dq a), H.
Qed.

Lemma name_value_one_quote (b : pystr) (k : pystr -> option pystr) :
  mem dq b = false -> rmatch name_value_re (dq :: b) k = None.
Proof.
  intros Hb. unfold name_value_re. cbn [rseq].
  rewrite rmatch_group, rmatch_seq, rmatch_group, rmatch_seq, rmatch_group.
  rewrite rmatch_lit_cons, Z.eqb_refl, rmatch_seq.
  destruct b as [|c nt]; [reflexivity|].
  apply mem_cons_false in Hb. destruct Hb as [_ Hb].
  apply forallb_not_quote in Hb.
  rewrite rmatch_dot_cons. destruct (c =? nl); [reflexivity|].
  rewrite rmatch_seq. replace nt with (nt ++ []) by apply app_nil_r.
  apply rmatch_star_notset_none; [reflexivity|].
  intros t1 t2 Ht. cbv beta. rewrite rmatch_group, app_nil_r.
  destruct t2 as [|a t2]; [reflexivity|].
  pose proof (forallb_app_inv _ _ _ _ Hb Ht) as Ha.
  cbn [forallb] in Ha. apply andb_true_iff in Ha. destruct Ha as [Ha _].
  apply not_quote in Ha. now rewrite rmatch_lit_cons, Ha.
Qed.

Lemma first_quote (a a' b b' : pystr) :
  mem dq a = false -> mem dq a' = false ->
  a ++ dq :: b = a' ++ dq :: b' -> a = a' /\ b = b'.
Proof.
  revert a'. induction a as [|x a IH]; intros [|x' a'] Ha Ha' E;
    cbn [app] in E.
  - injection E as <-. auto.
  - injection E as <- _. apply mem_cons_false in Ha'.
    destruct Ha' as [Hx _]. now rewrite Z.eqb_refl in Hx.
  - injection E as -> _. apply mem_cons_false in Ha.
    destruct Ha as [Hx _]. now rewrite Z.eqb_refl in Hx.
  - injection E as <- E. apply mem_cons_false in Ha, Ha'.
    destruct (IH a' (proj2 Ha) (proj2 Ha') E) as [-> ->]. auto.
Qed.

(** [sensorupdate_re] needs two quotes after its keyword. *)
Lemma match_sensorupdate_after_keyword (s : pystr) :
  (forall r, s = lit "sensor-update " ++ r ->
             forall k, rmatch name_value_re r k = None) ->
  match_here sensorupdate_re s = None.
Proof.
  intros H. unfold match_here, sensorupdate_re, RPlus. cbn [rseq].
  rewrite rmatch_seq, rmatch_lit_eq.
  destruct (strip_prefix (lit "sensor-update") s) as [r|] eqn:E;
    [|reflexivity].
  apply strip_prefix_app in E. subst s.
  rewrite rmatch_seq. destruct r as [|a r]; [reflexivity|].
  rewrite rmatch_set_cons, mem_sp_sp.
  destruct (a =? sp) eqn:Ea; [|reflexivity].
  apply Z.eqb_eq in Ea. subst a. rewrite rmatch_seq.
  apply H. reflexivity.
Qed.

Lemma match_sensorupdate_one_quote (u w : pystr) :
  mem dq u = false -> mem dq w = false ->
  match_here sensorupdate_re (u ++ dq :: w) = None.
Proof.
  intros Hu Hw. apply match_sensorupdate_after_keyword. intros r E k.
  destruct r as [|q r]; [now apply name_value_not_opened|].
  destruct (q =? dq) eqn:Eq.
  - apply Z.eqb_eq in Eq. subst q.
    apply (first_quote u (lit "sensor-update ") w r Hu eq_refl) in E.
    destruct E as [_ <-]. now apply name_value_one_quote.
  - apply name_value_not_opened. now rewrite Eq.
Qed.

Lemma match_sensorupdate_no_quote (w : pystr) :
  mem dq w = false -> match_here sensorupdate_re w = None.
Proof.
  intros Hw. apply match_sensorupdate_after_keyword. intros r -> k.
  rewrite mem_app in Hw. apply orb_false_iff in Hw. destruct Hw as [_ Hw].
  apply name_value_not_opened. destruct r as [|q r]; [reflexivity|].
  apply mem_cons_false in Hw. destruct Hw as [Hq _].
  now rewrite Z.eqb_sym, Hq.
Qed.

Lemma search_no_quote (w : pystr) :
  mem dq w = false -> search sensorupdate_re w = None.
Proof.
  induction w as [|c w IH]; intros H; [reflexivity|].
  rewrite search_skip by now apply match_sensorupdate_no_quote.
  apply IH. now apply mem_cons_false in H.
Qed.

(** A text with one quote holds no sensor update. *)
Lemma search_one_quote (u w : pystr) :
  mem dq u = false -> mem dq w = false ->
  search sensorupdate_re (u ++ dq :: w) = None.
Proof.
  induction u as [|c u IH]; intros Hu Hw; cbn [app].
  - rewrite search_skip by apply (match_sensorupdate_one_quote [] w Hu Hw).
    now apply search_no_quote.
  - rewrite search_skip
      by apply (match_sensorupdate_one_quote (c :: u) w Hu Hw).
    apply IH; [|assumption]. now apply mem_cons_false in Hu.
Qed.

(** ** What the parser reads of the text that [sensorupdate] writes *)

Lemma word_char_value (a : Z) :
  word_char a = true -> negb (mem a [dq]) && negb (a =? sp) = true.
Proof.
  intros H. apply word_char_facts in H. destruct H as (_ & Hq & Hs & _).
  unfold mem. cbn [existsb]. now rewrite Hq, Hs.
Qed.

Lemma unclosed_text_shape (p : sensor) :
  plain_sensor p = true ->
  exists c nt d vt,
    unclosed_text p = dq :: c :: nt ++ dq :: sp :: d :: vt
    /\ (c =? sp) = false /\ (c =? dq) = false
    /\ forallb (fun a => negb (mem a [dq])) nt = true
    /\ (d =? dq) = false
    /\ forallb (fun a => negb (mem a [dq]) && negb (a =? sp)) vt = true.
Proof.
  intros H. apply plain_sensor_inv in H. destruct H as (Hne & Hn & Hv).
  destruct (name_head _ Hne Hn) as (c & nt & En & Hc).
  pose proof (no_quote_name _ Hn) as Hq. unfold sensor_name in *.
  rewrite En in Hq. cbn [forallb] in Hq. apply andb_true_iff in Hq.
  destruct Hq as [_ Hq].
  destruct (plain_word_inv _ Hv) as (d & vt & Ev & Hd & Hvt).
  apply word_char_facts in Hc, Hd.
  destruct Hc as (_ & Hcq & Hcs & _). destruct Hd as (_ & Hdq & _).
  exists c, nt, d, vt. unfold unclosed_text, quoted, sensor_name.
  rewrite En, Ev. cbn [app]. rewrite <- app_assoc. cbn [app].
  repeat split; auto.
  rewrite forallb_forall in *. intros a Ha. now apply word_char_value, Hvt.
Qed.

Lemma unclosed_unmatched (p : sensor) (k : pystr -> option pystr) :
  plain_sensor p = true -> rmatch name_value_re (unclosed_text p) k = None.
Proof.
  intros H. destruct (unclosed_text_shape p H)
    as (c & nt & d & vt & -> & _ & _ & Hnt & Hd & Hvt).
  now apply name_value_unclosed.
Qed.

Lemma unclosed_boundary (p : sensor) :
  plain_sensor p = true -> group_boundary (unclosed_text p) = true.
Proof.
  intros H. destruct (unclosed_text_shape p H)
    as (c & nt & d & vt & -> & Hc & _).
  cbn [group_boundary]. now rewrite Z.eqb_refl, Hc.
Qed.

Lemma groups_boundary_app (ps : list sensor) (tail : pystr) :
  forallb plain_sensor ps = true -> group_boundary tail = true ->
  group_boundary (List.concat (map group_text ps) ++ tail) = true.
Proof.
  destruct ps as [|p ps]; [auto|]. cbn [forallb map List.concat].
  intros H _. apply andb_true_iff in H. destruct H as [Hp _].
  destruct (group_text_shape p Hp) as (c & nt & d & vt & -> & _ & Hc & _).
  cbn [app group_boundary]. now rewrite Z.eqb_refl, Hc.
Qed.

(** The repetition takes the well-formed groups one after the other and
    then does on [tail] what it does there alone. *)
Lemma star_groups_then (tail x : pystr) (m : nat) :
  group_boundary tail = true ->
  (forall n, (m <= n)%nat ->
     star_loop (rmatch name_value_re) (fun rest => Some rest) n tail
     = Some x) ->
  forall ps, forallb plain_sensor ps = true ->
  forall n, (List.length ps + m <= n)%nat ->
    star_loop (rmatch name_value_re) (fun rest => Some rest) n
              (List.concat (map group_text ps) ++ tail) = Some x.
Proof.
  intros Hb Htail. induction ps as [|p ps IH]; intros H n Hn.
  - apply Htail. simpl in Hn. lia.
  - destruct n as [|n]; [simpl in Hn; lia|].
    cbn [forallb] in H. apply andb_true_iff in H. destruct H as [Hp Hps].
    cbn [map List.concat star_loop]. rewrite <- app_assoc.
    rewrite (name_value_match_group p _ _ x Hp
               (groups_boundary_app ps tail Hps Hb)).
    + reflexivity.
    + replace (_ <? _)%nat with true.
      * apply IH; [assumption | simpl in Hn; lia].
      * symmetry. apply Nat.ltb_lt. rewrite (length_app (group_text p)).
        pose proof (group_text_length p). lia.
Qed.

Lemma matched_app (a rest : pystr) : matched (a ++ rest) rest = a.
Proof.
  unfold matched. rewrite length_app.
  replace (List.length a + List.length rest - List.length rest)%nat
    with (List.length a) by lia.
  rewrite firstn_app, Nat.sub_diag, firstn_O, app_nil_r. apply firstn_all.
Qed.

(** The pattern on well-formed groups followed by [tail]: the groups
    are taken and [tail] is dealt with by the repetition. *)
Lemma match_groups_then (ps : list sensor) (tail x : pystr) (m : nat) :
  ps <> [] -> forallb plain_sensor ps = true ->
  group_boundary tail = true ->
  (forall n, (m <= n)%nat ->
     star_loop (rmatch name_value_re) (fun rest => Some rest) n tail
     = Some x) ->
  (m <= List.length tail)%nat ->
  match_here sensorupdate_re (sensor_update_text ps ++ tail) = Some x.
Proof.
  intros Hne H Hb Htail Hm.
  unfold match_here, sensorupdate_re, sensor_update_text, RPlus.
  cbn [rseq].
  change (lit "sensor-update " ++ List.concat (map group_text ps))
    with (lit "sensor-update" ++ sp :: List.concat (map group_text ps)).
  rewrite <- app_assoc. cbn [app].
  rewrite rmatch_seq, rmatch_lit, rmatch_seq, rmatch_set by reflexivity.
  rewrite rmatch_seq.
  destruct ps as [|p ps]; [congruence|].
  cbn [forallb] in H. apply andb_true_iff in H. destruct H as [Hp Hps].
  cbn [map List.concat]. rewrite <- app_assoc.
  apply name_value_match_group;
    [assumption | now apply groups_boundary_app |].
  cbn [rmatch]. apply (star_groups_then tail x m); auto.
  rewrite length_app. pose proof (groups_length ps). lia.
Qed.

Lemma star_unclosed (p : sensor) (n : nat) :
  plain_sensor p = true ->
  star_loop (rmatch name_value_re) (fun rest => Some rest) n
            (unclosed_text p) = Some (unclosed_text p).
Proof.
  intros H. destruct n as [|n]; cbn [star_loop]; [reflexivity|].
  now rewrite unclosed_unmatched.
Qed.

Lemma sensors_message_shape (ps : list sensor) (p : sensor) :
  sensors_message (ps ++ [p]) = sensor_update_text ps ++ unclosed_text p.
Proof.
  unfold sensors_message, sensor_update_text.
  change (lit "sensor-update " ++ List.concat (map group_text ps))
    with (lit "sensor-update" ++ sp :: List.concat (map group_text ps)).
  rewrite <- app_assoc. f_equal. cbn [app].
  induction ps as [|q ps IH].
  - cbn [app flat_map map List.concat]. now rewrite app_nil_r.
  - cbn [app flat_map map List.concat]. rewrite IH.
    unfold group_text. cbn [app]. rewrite <- !app_assoc. cbn [app].
    rewrite <- !app_assoc. reflexivity.
Qed.

Lemma not_quote_mem (t : pystr) :
  forallb (fun a => negb (mem a [dq])) t = true -> mem dq t = false.
Proof.
  induction t as [|a t IH]; [reflexivity|]. cbn [forallb]. intros H.
  apply andb_true_iff in H. destruct H as [Ha Ht]. apply not_quote in Ha.
  unfold mem in *. cbn [existsb]. now rewrite Ha, IH.
Qed.

Lemma value_no_quote (t : pystr) :
  forallb (fun a => negb (mem a [dq]) && negb (a =? sp)) t = true ->
  mem dq t = false.
Proof.
  intros H. apply not_quote_mem. rewrite forallb_forall in *.
  intros a Ha. apply H in Ha. now apply andb_true_iff in Ha.
Qed.

(** The pattern stops before the last pair of what [sensorupdate]
    writes. *)
Lemma search_sensors_message (ps : list sensor) (p : sensor) :
  forallb plain_sensor (ps ++ [p]) = true ->
  search sensorupdate_re (sensors_message (ps ++ [p]))
  = match ps with
    | [] => None
    | _ => Some (sensor_update_text ps)
    end.
Proof.
  intros H. rewrite forallb_app in H. apply andb_true_iff in H.
  destruct H as [Hps Hp]. cbn [forallb] in Hp. rewrite andb_true_r in Hp.
  rewrite sensors_message_shape.
  destruct ps as [|q ps'] eqn:E.
  - assert (H0 : match_here sensorupdate_re
                   (sensor_update_text [] ++ unclosed_text p) = None).
    { apply match_sensorupdate_after_keyword. intros r Er k.
      unfold sensor_update_text in Er. cbn [map List.concat] in Er.
      rewrite app_nil_r in Er.
      apply app_inv_head in Er. subst r. now apply unclosed_unmatched. }
    destruct (unclosed_text_shape p Hp)
      as (c & nt & d & vt & Et & _ & Hcq & Hnt & Hd & Hvt).
    unfold sensor_update_text in *. cbn [map List.concat] in *.
    rewrite app_nil_r in *.
    change (lit "sensor-update " ++ unclosed_text p)
      with (115 :: 101 :: 110 :: 115 :: 111 :: 114 :: 45 :: 117 :: 112
            :: 100 :: 97 :: 116 :: 101 :: 32 :: unclosed_text p) in *.
    rewrite search_skip by exact H0. rewrite Et.
    rewrite !search_skip by reflexivity.
    change (c :: nt ++ dq :: sp :: d :: vt)
      with ((c :: nt) ++ dq :: sp :: d :: vt).
    apply search_one_quote.
    + unfold mem in *. cbn [existsb]. rewrite Z.eqb_sym, Hcq.
      now apply not_quote_mem.
    + unfold mem in *. cbn [existsb]. rewrite (Z.eqb_sym dq d), Hd.
      now apply value_no_quote.
  - rewrite <- E in *.
    rewrite (search_here _ _ (unclosed_text p)).
    + rewrite matched_app. now rewrite E.
    + apply (match_groups_then ps _ _ 0);
        [subst; discriminate | assumption | now apply unclosed_boundary
        | intros n _; now apply star_unclosed | lia].
Qed.

Lemma _parse_message_eq (message : pystr) :
  message <> [] ->
  _parse_message message
  = (sensors <-
       match search sensorupdate_re message with
       | Some m =>
         sensorlist <- reassemble (fragments m) None [] ;;
         pair_up sensorlist
       | None => Return []
       end ;;
     Return (Some {| sensor_update := sensors;
                     broadcast := broadcast_names message |})).
Proof. destruct message; [congruence | reflexivity]. Qed.

Lemma parse_sensors_message (ps : list sensor) (p : sensor) :
  forallb plain_sensor (ps ++ [p]) = true ->
  distinct (map sensor_name ps) = true ->
  replace (lit "sensor-update") [] (List.concat (map group_text ps))
  = List.concat (map group_text ps) ->
  _parse_message (sensors_message (ps ++ [p]))
  = Return (Some {| sensor_update := map sensor_entry ps;
                    broadcast :=
                      broadcast_names (sensors_message (ps ++ [p])) |}).
Proof.
  intros H Hd Hkw.
  rewrite _parse_message_eq by discriminate.
  rewrite (search_sensors_message ps p H).
  destruct ps as [|q ps'] eqn:E; [reflexivity|]. rewrite <- E in *.
  rewrite forallb_app in H. apply andb_true_iff in H. destruct H as [Hps _].
  assert (Hne : ps <> []) by (subst; discriminate).
  rewrite (fragments_sensor_update_text ps Hne Hps Hkw).
  rewrite (reassemble_sensors ps Hps []). cbn [bind app].
  rewrite (pair_up_sensors ps Hd). reflexivity.
Qed.

Lemma flat_map_of_map {A B C : Type} (f : B -> list C) (g : A -> B)
  (l : list A) :
  flat_map f (map g l) = flat_map (fun x => f (g x)) l.
Proof.
  induction l as [|x l IH]; [reflexivity|]. cbn [map flat_map].
  now rewrite IH.
Qed.

Lemma sensorupdate_message_sensors (d : list (atom * atom))
  (ps : list sensor) :
  map (fun kv => (py_str (fst kv), py_str (snd kv))) d = map sensor_entry ps ->
  sensorupdate_message d = sensors_message ps.
Proof.
  intros H. unfold sensorupdate_message, sensors_message. f_equal.
  change (fun p : sensor => sp :: quoted (sensor_name p) ++ sp :: snd p)
    with (fun p : sensor =>
            (fun e : pystr * pystr => sp :: quoted (fst e) ++ sp :: snd e)
              (sensor_entry p)).
  rewrite <- (flat_map_of_map
                (fun e : pystr * pystr => sp :: quoted (fst e) ++ sp :: snd e)
                sensor_entry).
  rewrite <- H, flat_map_of_map. reflexivity.
Qed.

(** X11: the parser does not read back the last pair of what
    [sensorupdate] writes.  For a mapping whose names are words joined
    by single spaces and whose values are words, all as text without
    quote or white space, [sensorupdate] sends the keyword and the pairs
    with no space after the last value; [_parse_message] on that text
    returns the mapping of all the pairs but the last (none for a
    mapping of one entry), the names before it being all different and
    the keyword not occurring in them. *)
Theorem sensorupdate_text_loses_last_pair (d : list (atom * atom))
  (ps : list sensor) (p : sensor) (c : connection) :
  map (fun kv => (py_str (fst kv), py_str (snd kv))) d
  = map sensor_entry (ps ++ [p]) ->
  forallb plain_sensor (ps ++ [p]) = true ->
  distinct (map sensor_name ps) = true ->
  replace (lit "sensor-update") [] (List.concat (map group_text ps))
  = List.concat (map group_text ps) ->
  sensorupdate (PyDict d) c = _send (sensorupdate_message d) c
  /\ _parse_message (sensorupdate_message d)
     = Return (Some {| sensor_update := map sensor_entry ps;
                       broadcast :=
                         broadcast_names (sensorupdate_message d) |}).
Proof.
  intros Hd Hp Hdis Hkw. split; [apply sensorupdate_sends|].
  rewrite (sensorupdate_message_sensors d _ Hd).
  now apply parse_sensors_message.
Qed.

Lemma sensorupdate_text_loses_last_pair_witness :
  sensorupdate (PyDict [(AStr (lit "x"), AInt 5)]) (peer_sends [] [])
  = _send (lit "sensor-update " ++ quoted (lit "x") ++ lit " 5")
      (peer_sends [] [])
  /\ _parse_message (lit "sensor-update " ++ quoted (lit "x") ++ lit " 5")
     = Return (Some {| sensor_update := []; broadcast := [] |}).
Proof.
  apply (sensorupdate_text_loses_last_pair
           [(AStr (lit "x"), AInt 5)] [] ([lit "x"], lit "5")
           (peer_sends [] []));
    vm_compute; reflexivity.
Defined.

(** ** A sensor update followed by a broadcast *)

(** The fragments of a matched text whose groups are fragments joined
    by single spaces, when the keyword does not occur in them. *)
Lemma fragments_joined (frs : list pystr) :
  forallb solid frs = true ->
  replace (lit "sensor-update") [] (join_sp frs ++ [sp])
  = join_sp frs ++ [sp] ->
  fragments (lit "sensor-update " ++ join_sp frs ++ [sp]) = frs.
Proof.
  intros Hs Hkw. unfold fragments.
  rewrite replace_nonempty in * by discriminate.
  change (lit "sensor-update " ++ join_sp frs ++ [sp])
    with (lit "sensor-update" ++ sp :: join_sp frs ++ [sp]).
  rewrite replace_go_match_app by discriminate.
  rewrite replace_go_nomatch by reflexivity.
  rewrite Hkw. cbn [app].
  unfold strip. rewrite strip_by_cons, strip_by_snoc by reflexivity.
  change (strip_by is_space) with strip.
  rewrite (strip_join _ Hs). now apply split_join.
Qed.

Lemma reassemble_sensors_then (ps : list sensor) (rest : list pystr) :
  forallb plain_sensor ps = true ->
  forall acc,
    reassemble (List.concat (map sensor_fragments ps) ++ rest) None acc
    = reassemble rest None (acc ++ List.concat (map sensor_tokens ps)).
Proof.
  induction ps as [|p ps IH]; intros H acc.
  - cbn [map List.concat app]. now rewrite app_nil_r.
  - cbn [forallb] in H. apply andb_true_iff in H. destruct H as [Hp Hr].
    apply plain_sensor_inv in Hp. destruct Hp as (Hne & Hn & Hv).
    cbn [map List.concat]. unfold sensor_fragments at 1.
    rewrite <- !app_assoc, reassemble_name by assumption.
    cbn [app]. rewrite reassemble_value, IH by assumption.
    unfold sensor_tokens at 2, sensor_name. cbn [app].
    now rewrite <- !app_assoc.
Qed.

Lemma star_lone_name (name : pystr) (n : nat) :
  mem dq name = false ->
  star_loop (rmatch name_value_re) (fun rest => Some rest) n (quoted name)
  = Some (quoted name).
Proof.
  intros H. destruct n as [|n]; cbn [star_loop]; [reflexivity|].
  now rewrite name_value_lone_name.
Qed.

(** The last group before a broadcast takes the keyword of the
    broadcast into its value and stops before the quoted name. *)
Lemma group_broadcast_match (p : sensor) (name : pystr)
  (k : pystr -> option pystr) (x : pystr) :
  plain_sensor p = true -> plain_name name = true ->
  match name with [] => false | c :: _ => negb (c =? sp) end = true ->
  k (quoted name) = Some x ->
  rmatch name_value_re (group_text p ++ lit "broadcast " ++ quoted name) k
  = Some x.
Proof.
  intros Hp Hn Hc Hk.
  destruct (group_text_shape p Hp)
    as (c & nt & d & vt & -> & Hcn & _ & Hnt & Hd & Hdn & Hvt).
  replace ((dq :: c :: nt ++ dq :: sp :: d :: vt ++ [sp])
           ++ lit "broadcast " ++ quoted name)
    with (dq :: c :: nt ++ dq :: sp :: d :: (vt ++ sp :: lit "broadcast")
          ++ sp :: quoted name).
  2:{ cbn [app]. rewrite <- !app_assoc. cbn [app].
      rewrite <- !app_assoc. reflexivity. }
  apply name_value_match; auto.
  - rewrite forallb_app, Hvt. reflexivity.
  - destruct name as [|c' name']; [discriminate|].
    unfold quoted. cbn [app group_boundary]. now rewrite Z.eqb_refl.
Qed.

Lemma group_broadcast_boundary (p : sensor) (tail : pystr) :
  plain_sensor p = true -> group_boundary (group_text p ++ tail) = true.
Proof.
  intros Hp.
  destruct (group_text_shape p Hp) as (c & nt & d & vt & -> & _ & Hc & _).
  cbn [app group_boundary]. now rewrite Z.eqb_refl, Hc.
Qed.

Lemma star_group_broadcast (p : sensor) (name : pystr) (n : nat) :
  plain_sensor p = true -> plain_name name = true ->
  match name with [] => false | c :: _ => negb (c =? sp) end = true ->
  (1 <= n)%nat ->
  star_loop (rmatch name_value_re) (fun rest => Some rest) n
            (group_text p ++ lit "broadcast " ++ quoted name)
  = Some (quoted name).
Proof.
  intros Hp Hn Hc Hle. destruct n as [|n]; [lia|].
  cbn [star_loop].
  rewrite (group_broadcast_match p name _ (quoted name)); auto.
  replace (_ <? _)%nat with true.
  - apply star_lone_name. now apply plain_name_no_quote.
  - symmetry. apply Nat.ltb_lt. rewrite !length_app.
    pose proof (group_text_length p). lia.
Qed.

Lemma sensors_split_last (ps : list sensor) :
  ps <> [] -> exists ps' p, ps = ps' ++ [p].
Proof.
  intros H. destruct (exists_last H) as (ps' & p & E). eauto.
Qed.

(** The pattern on a sensor update that a broadcast follows: the match
    ends before the quoted name of the broadcast. *)
Lemma match_sensor_update_broadcast (ps : list sensor) (name : pystr) :
  ps <> [] -> forallb plain_sensor ps = true ->
  plain_name name = true ->
  match name with [] => false | c :: _ => negb (c =? sp) end = true ->
  match_here sensorupdate_re
    (sensor_update_text ps ++ lit "broadcast " ++ quoted name)
  = Some (quoted name).
Proof.
  intros Hne Hps Hn Hc.
  destruct (sensors_split_last ps Hne) as (ps' & p & ->).
  rewrite forallb_app in Hps. apply andb_true_iff in Hps.
  destruct Hps as [Hps' Hp]. cbn [forallb] in Hp.
  rewrite andb_true_r in Hp.
  destruct ps' as [|q ps''] eqn:E.
  - unfold match_here, sensorupdate_re, sensor_update_text, RPlus.
    cbn [rseq]. cbn [app map List.concat]. rewrite app_nil_r.
    change (lit "sensor-update " ++ group_text p)
      with (lit "sensor-update" ++ sp :: group_text p).
    rewrite <- app_assoc. cbn [app].
    rewrite rmatch_seq, rmatch_lit, rmatch_seq, rmatch_set by reflexivity.
    rewrite rmatch_seq.
    apply group_broadcast_match; auto.
    cbn [rmatch]. apply star_lone_name. now apply plain_name_no_quote.
  - rewrite <- E in *.
    assert (Hne' : ps' <> []) by (subst; discriminate).
    unfold sensor_update_text. rewrite map_app, concat_app.
    cbn [map List.concat]. rewrite app_nil_r.
    rewrite (app_assoc (lit "sensor-update ")).
    change (lit "sensor-update " ++ List.concat (map group_text ps'))
      with (sensor_update_text ps').
    rewrite <- app_assoc.
    apply (match_groups_then ps' _ _ 1); auto.
    + now apply group_broadcast_boundary.
    + intros n Hle. now apply star_group_broadcast.
    + rewrite length_app. pose proof (group_text_length p). lia.
Qed.

Lemma plain_word_broadcast : plain_word (lit "broadcast") = true.
Proof. reflexivity. Qed.

(** X5: a frame that holds a sensor update and then a broadcast is not
    parsed: the value of the last sensor takes the keyword of the
    broadcast with it, the tokens are odd in number and the pairing loop
    raises [IndexError].  For names made of words and values that are
    words, without quote or white space, and a broadcast name that does
    not start with a space. *)
Theorem sensor_update_then_broadcast_raises (ps : list sensor)
  (name : pystr) :
  ps <> [] -> forallb plain_sensor ps = true ->
  plain_name name = true ->
  match name with [] => false | c :: _ => negb (c =? sp) end = true ->
  replace (lit "sensor-update") []
    (List.concat (map group_text ps) ++ lit "broadcast ")
  = List.concat (map group_text ps) ++ lit "broadcast " ->
  _parse_message (sensor_update_text ps ++ lit "broadcast " ++ quoted name)
  = Raise IndexError.
Proof.
  intros Hne Hps Hn Hc Hkw.
  pose proof (match_sensor_update_broadcast ps name Hne Hps Hn Hc) as Hm.
  apply search_here in Hm.
  rewrite app_assoc, matched_app in Hm.
  rewrite <- app_assoc in Hm.
  set (frs := List.concat (map sensor_fragments ps) ++ [lit "broadcast"]).
  assert (Hj : List.concat (map group_text ps) ++ lit "broadcast "
               = join_sp frs ++ [sp]).
  { unfold frs. rewrite (groups_as_join ps Hne Hps).
    rewrite join_sp_app.
    - rewrite <- !app_assoc. reflexivity.
    - destruct ps as [|p ps']; [congruence|]. cbn [map List.concat].
      pose proof (sensor_fragments_nonempty p).
      destruct (sensor_fragments p); [congruence | discriminate].
    - discriminate. }
  assert (Hsolid : forallb solid frs = true).
  { unfold frs. rewrite forallb_app, (all_fragments_solid ps Hps).
    reflexivity. }
  assert (Hf : fragments (sensor_update_text ps ++ lit "broadcast ") = frs).
  { unfold sensor_update_text. rewrite <- app_assoc, Hj.
    apply fragments_joined; [assumption|]. now rewrite <- Hj. }
  assert (Hr : reassemble frs None []
               = Return (List.concat (map sensor_tokens ps)
                         ++ [lit "broadcast"])).
  { unfold frs. rewrite (reassemble_sensors_then ps _ Hps []).
    now rewrite reassemble_value by apply plain_word_broadcast. }
  rewrite <- Hf in Hr.
  rewrite (_parse_message_tokens _ _ _ Hm Hr).
  rewrite length_app, sensor_tokens_length. cbn [List.length].
  replace (Nat.even (2 * List.length ps + 1)) with false; [reflexivity|].
  symmetry. rewrite Nat.add_1_r, Nat.even_succ, <- Nat.negb_even.
  now rewrite Nat.even_mul.
Qed.

Lemma sensor_update_then_broadcast_raises_witness :
  _parse_message (lit "sensor-update " ++ quoted (lit "x") ++ lit " 1 "
                  ++ lit "broadcast " ++ quoted (lit "go"))
  = Raise IndexError.
Proof.
  apply (sensor_update_then_broadcast_raises
           [([lit "x"], lit "1")] (lit "go"));
    try discriminate; vm_compute; reflexivity.
Defined.

(** ** What the parser reads of the text that [broadcast] writes *)

Lemma replace_go_length (old : pystr) (s : pystr) :
  forall skip,
    (List.length (replace_go old [] skip s) <= List.length s)%nat.
Proof.
  induction s as [|c s IH]; intros skip; [simpl; lia|].
  cbn [replace_go]. destruct skip as [|k].
  - destruct (strip_prefix old (c :: s)).
    + cbn [app List.length]. specialize (IH (Nat.pred (List.length old))).
      lia.
    + cbn [List.length]. specialize (IH O). lia.
  - cbn [List.length]. specialize (IH k). lia.
Qed.

(** A text that [replace] leaves as it is does not hold the keyword. *)
Lemma replace_id_inv (old : pystr) (c : Z) (s : pystr) :
  replace_go old [] O (c :: s) = c :: s ->
  strip_prefix old (c :: s) = None /\ replace_go old [] O s = s.
Proof.
  cbn [replace_go]. destruct (strip_prefix old (c :: s)) as [r|].
  - cbn [app]. intros H. apply (f_equal (@List.length Z)) in H.
    pose proof (replace_go_length old s (Nat.pred (List.length old))).
    cbn [List.length] in H. lia.
  - intros H. injection H as H. auto.
Qed.

Lemma search_no_keyword (s : pystr) :
  replace (lit "sensor-update") [] s = s ->
  search sensorupdate_re s = None.
Proof.
  rewrite replace_nonempty by discriminate.
  induction s as [|c s IH]; intros H; [reflexivity|].
  apply replace_id_inv in H. destruct H as [Hp Hs].
  rewrite search_skip; [now apply IH|].
  unfold match_here, sensorupdate_re. cbn [rseq].
  now rewrite rmatch_seq, rmatch_lit_eq, Hp.
Qed.

Lemma findall_no_keyword (s : pystr) :
  replace (lit "broadcast") [] s = s ->
  findall_go broadcast_re O s = [].
Proof.
  rewrite replace_nonempty by discriminate.
  induction s as [|c s IH]; intros H; [reflexivity|].
  apply replace_id_inv in H. destruct H as [Hp Hs].
  rewrite findall_go_nomatch; [now apply IH|].
  unfold match_here, broadcast_re. cbn [rseq].
  now rewrite rmatch_seq, rmatch_lit_eq, Hp.
Qed.

Lemma broadcast_message_cons (a : atom) (l : list atom) :
  broadcast_message (a :: l)
  = (lit "broadcast " ++ quoted (py_str a))
    ++ flat_map (fun mess => sp :: quoted (py_str mess)) l.
Proof.
  unfold broadcast_message. cbn [flat_map].
  change (lit "broadcast " ++ quoted (py_str a))
    with (lit "broadcast" ++ sp :: quoted (py_str a)).
  rewrite <- !app_assoc. reflexivity.
Qed.

(** X13: of the messages that [broadcast] writes in one frame the parser
    reads back the first alone: the pattern asks for the keyword before
    every quoted name and [broadcast] writes it once.  For a first
    message that is not empty and holds no quote, and when the keywords
    occur nowhere else in the text. *)
Theorem broadcast_text_keeps_first_name (a : atom) (l : list atom)
  (c : connection) :
  plain_name (py_str a) = true ->
  replace (lit "sensor-update") [] (broadcast_message (a :: l))
  = broadcast_message (a :: l) ->
  replace (lit "broadcast") []
    (flat_map (fun mess => sp :: quoted (py_str mess)) l)
  = flat_map (fun mess => sp :: quoted (py_str mess)) l ->
  Scratch.broadcast (inl (a :: l)) c = _send (broadcast_message (a :: l)) c
  /\ _parse_message (broadcast_message (a :: l))
     = Return (Some {| sensor_update := [];
                       broadcast :=
                         [strip_chars [dq; sp]
                            (replace (lit "broadcast") [] (py_str a))] |}).
Proof.
  intros Hn Hs Hb. split; [apply broadcast_sends|].
  rewrite _parse_message_eq by discriminate.
  rewrite (search_no_keyword _ Hs). cbn [bind].
  unfold broadcast_names, findall.
  rewrite broadcast_message_cons.
  rewrite (findall_go_match_app broadcast_re _
             (lit "broadcast " ++ quoted (py_str a))
             (flat_map (fun mess => sp :: quoted (py_str mess)) l)).
  - rewrite (findall_no_keyword _ Hb). cbn [map].
    now rewrite event_name_broadcast.
  - reflexivity.
  - discriminate.
  - change (lit "broadcast " ++ quoted (py_str a))
      with (lit "broadcast" ++ sp :: quoted (py_str a)).
    rewrite <- app_assoc. cbn [app].
    apply (match_broadcast (py_str a) _ Hn).
Qed.

Lemma broadcast_text_keeps_first_name_witness :
  Scratch.broadcast (inl [AStr (lit "go"); AStr (lit "stop")])
    (peer_sends [] [])
  = _send (lit "broadcast " ++ quoted (lit "go") ++ sp :: quoted (lit "stop"))
      (peer_sends [] [])
  /\ _parse_message
       (lit "broadcast " ++ quoted (lit "go") ++ sp :: quoted (lit "stop"))
     = Return (Some {| sensor_update := []; broadcast := [lit "go"] |}).
Proof.
  apply (broadcast_text_keeps_first_name
           (AStr (lit "go")) [AStr (lit "stop")] (peer_sends [] []));
    vm_compute; reflexivity.
Defined.

(** ** From [broadcast] to [receive]: one name over the wire *)

Lemma wire_char_range (c : Z) :
  wire_char c = true -> 32 <= c <= 126 /\ c <> 39 /\ c <> 92.
Proof.
  unfold wire_char. intros H.
  apply andb_true_iff in H. destruct H as [H H92].
  apply andb_true_iff in H. destruct H as [H H39].
  apply andb_true_iff in H. destruct H as [Hlo Hhi].
  apply Z.leb_le in Hlo, Hhi.
  apply negb_true_iff, Z.eqb_neq in H39, H92. auto.
Qed.

Lemma encode_wire (s : pystr) :
  forallb wire_char s = true -> encode s = Some (map byte_of s).
Proof.
  induction s as [|c s IH]; [reflexivity|]. cbn [forallb]. intros H.
  apply andb_true_iff in H. destruct H as [Hc Hs].
  apply wire_char_range in Hc.
  cbn [encode map]. rewrite (IH Hs). unfold utf8_char.
  replace (c <? 0) with false by (symmetry; apply Z.ltb_ge; lia).
  replace (c <? 128) with true by (symmetry; apply Z.ltb_lt; lia).
  reflexivity.
Qed.

Lemma repr_byte_wire (c : Z) :
  wire_char c = true -> repr_byte 39 (byte_of c) = [c].
Proof.
  intros H. apply wire_char_range in H. destruct H as (Hr & H39 & H92).
  unfold repr_byte. rewrite byte_val_of by lia.
  replace (c =? 39) with false by (symmetry; apply Z.eqb_neq; lia).
  replace (c =? 92) with false by (symmetry; apply Z.eqb_neq; lia).
  replace (c =? 9) with false by (symmetry; apply Z.eqb_neq; lia).
  replace (c =? 10) with false by (symmetry; apply Z.eqb_neq; lia).
  replace (c =? 13) with false by (symmetry; apply Z.eqb_neq; lia).
  replace (c <? 32) with false by (symmetry; apply Z.ltb_ge; lia).
  replace (127 <=? c) with false by (symmetry; apply Z.leb_gt; lia).
  reflexivity.
Qed.

Lemma repr_wire (s : pystr) :
  forallb wire_char s = true ->
  flat_map (repr_byte 39) (map byte_of s) = s.
Proof.
  induction s as [|c s IH]; [reflexivity|]. cbn [forallb]. intros H.
  apply andb_true_iff in H. destruct H as [Hc Hs].
  cbn [map flat_map]. now rewrite (repr_byte_wire c Hc), (IH Hs).
Qed.

(** [repr] keeps the apostrophe as its quote when the bytes hold a
    double quote. *)
Lemma repr_quote_with_dq (b : bytes) :
  existsb (fun x => byte_val x =? 34) b = true -> repr_quote b = 39.
Proof.
  intros H. unfold repr_quote. rewrite H. cbn [negb].
  now rewrite andb_false_r.
Qed.

(** The frame of a payload shorter than 256 bytes. *)
Lemma frame_short (payload : bytes) :
  Z.of_nat (List.length payload) < 256 ->
  frame payload
  = Return ([x00; x00; x00; byte_of (Z.of_nat (List.length payload))]
            ++ payload).
Proof.
  intros H. unfold frame, struct_pack.
  set (n := Z.of_nat (List.length payload)) in *.
  assert (Hn : 0 <= n) by (unfold n; lia).
  replace ((0 <=? n) && (n <? two32)) with true.
  2:{ symmetry. apply andb_true_iff. split;
        [apply Z.leb_le | apply Z.ltb_lt]; unfold two32; lia. }
  cbn [bind].
  replace (n / 16777216) with 0 by div_lia.
  replace ((n / 65536) mod 256) with 0 by div_lia.
  replace ((n / 256) mod 256) with 0 by div_lia.
  replace (n mod 256) with n by div_lia.
  reflexivity.
Qed.

(** Where no match of the two patterns starts: before a character that
    is not the second character of the keyword, or at a character that
    is not its first. *)
Lemma sensorupdate_head (c c' : Z) (s : pystr) :
  (c =? 115) && (c' =? 101) = false ->
  match_here sensorupdate_re (c :: c' :: s) = None.
Proof.
  intros H. unfold match_here, sensorupdate_re. cbn [rseq].
  rewrite rmatch_seq, rmatch_lit_eq.
  change (lit "sensor-update") with (115 :: 101 :: lit "nsor-update").
  cbn [strip_prefix]. rewrite (Z.eqb_sym 115 c), (Z.eqb_sym 101 c').
  destruct (c =? 115); [|reflexivity].
  destruct (c' =? 101); [discriminate | reflexivity].
Qed.

Lemma broadcast_head (c c' : Z) (s : pystr) :
  (c =? 98) && (c' =? 114) = false ->
  match_here broadcast_re (c :: c' :: s) = None.
Proof.
  intros H. unfold match_here, broadcast_re. cbn [rseq].
  rewrite rmatch_seq, rmatch_lit_eq.
  change (lit "broadcast") with (98 :: 114 :: lit "oadcast").
  cbn [strip_prefix]. rewrite (Z.eqb_sym 98 c), (Z.eqb_sym 114 c').
  destruct (c =? 98); [|reflexivity].
  destruct (c' =? 114); [discriminate | reflexivity].
Qed.

Lemma hex_digit_not_keyword (n : Z) :
  0 <= n < 16 ->
  (hex_digit n =? 115) = false /\ (hex_digit n =? 114) = false.
Proof.
  intros H. unfold hex_digit.
  destruct (n <? 10) eqn:E; split; apply Z.eqb_neq;
    [apply Z.ltb_lt in E | apply Z.ltb_lt in E
     | apply Z.ltb_ge in E | apply Z.ltb_ge in E]; lia.
Qed.

(** What [repr] writes for one byte, as the five shapes it has. *)
Lemma repr_byte_shape (q : Z) (x : byte) :
  (exists v, repr_byte q x = [92; v])
  \/ (exists h1 h2,
        repr_byte q x = [92; 120; h1; h2]
        /\ (h1 =? 115) = false /\ (h2 =? 114) = false)
  \/ (exists v, repr_byte q x = [v]).
Proof.
  unfold repr_byte. pose proof (byte_val_range x) as Hr.
  destruct ((byte_val x =? q) || (byte_val x =? 92)); [left; eauto|].
  destruct (byte_val x =? 9); [left; eauto|].
  destruct (byte_val x =? 10); [left; eauto|].
  destruct (byte_val x =? 13); [left; eauto|].
  destruct ((byte_val x <? 32) || (127 <=? byte_val x)).
  - right. left. do 2 eexists. split; [reflexivity|].
    split; apply hex_digit_not_keyword; div_lia.
  - right. right. eauto.
Qed.

(** No match of [sensorupdate_re] starts in what [repr] writes for a
    byte that stands before a character other than [e], and no match of
    [broadcast_re] before a character other than [r]. *)
Lemma search_skip_repr_byte (q : Z) (x : byte) (c : Z) (s : pystr) :
  (c =? 101) = false ->
  search sensorupdate_re (repr_byte q x ++ c :: s)
  = search sensorupdate_re (c :: s).
Proof.
  intros Hc.
  destruct (repr_byte_shape q x)
    as [[v ->] | [(h1 & h2 & -> & H1 & H2) | [v ->]]]; cbn [app].
  - rewrite search_skip by (apply sensorupdate_head; reflexivity).
    rewrite search_skip
      by (apply sensorupdate_head; rewrite Hc; apply andb_false_r).
    reflexivity.
  - rewrite search_skip by (apply sensorupdate_head; reflexivity).
    rewrite search_skip by (apply sensorupdate_head; reflexivity).
    rewrite search_skip by (apply sensorupdate_head; now rewrite H1).
    rewrite search_skip
      by (apply sensorupdate_head; rewrite Hc; apply andb_false_r).
    reflexivity.
  - rewrite search_skip
      by (apply sensorupdate_head; rewrite Hc; apply andb_false_r).
    reflexivity.
Qed.

Lemma findall_skip_repr_byte (q : Z) (x : byte) (c : Z) (s : pystr) :
  (c =? 114) = false ->
  findall_go broadcast_re O (repr_byte q x ++ c :: s)
  = findall_go broadcast_re O (c :: s).
Proof.
  intros Hc.
  destruct (repr_byte_shape q x)
    as [[v ->] | [(h1 & h2 & -> & H1 & H2) | [v ->]]]; cbn [app].
  - rewrite findall_go_nomatch by (apply broadcast_head; reflexivity).
    rewrite findall_go_nomatch
      by (apply broadcast_head; rewrite Hc; apply andb_false_r).
    reflexivity.
  - rewrite findall_go_nomatch by (apply broadcast_head; reflexivity).
    rewrite findall_go_nomatch by (apply broadcast_head; reflexivity).
    rewrite findall_go_nomatch
      by (apply broadcast_head; rewrite H2; apply andb_false_r).
    rewrite findall_go_nomatch
      by (apply broadcast_head; rewrite Hc; apply andb_false_r).
    reflexivity.
  - rewrite findall_go_nomatch
      by (apply broadcast_head; rewrite Hc; apply andb_false_r).
    reflexivity.
Qed.

(** The text that [repr] gives for the frame of one broadcast: no
    sensor update is found in it and one broadcast is. *)
Lemma parse_repr_broadcast (x : byte) (name : pystr) :
  plain_name name = true ->
  _parse_message
    (98 :: 39 :: 92 :: 120 :: 48 :: 48 :: 92 :: 120 :: 48 :: 48
     :: 92 :: 120 :: 48 :: 48
     :: repr_byte 39 x ++ (lit "broadcast " ++ quoted name) ++ [39])
  = Return (Some {| sensor_update := [];
                    broadcast :=
                      [strip_chars [dq; sp]
                         (replace (lit "broadcast") [] name)] |}).
Proof.
  intros Hn. pose proof (plain_name_no_quote _ Hn) as Hq.
  rewrite _parse_message_eq by discriminate.
  replace (search sensorupdate_re _) with (@None pystr).
  2:{ symmetry. rewrite !search_skip by reflexivity.
      change ((lit "broadcast " ++ quoted name) ++ [39])
        with (98 :: 114 :: 111 :: 97 :: 100 :: 99 :: 97 :: 115 :: 116
              :: 32 :: 34 :: (name ++ [dq]) ++ [39]).
      rewrite search_skip_repr_byte by reflexivity.
      rewrite !search_skip by reflexivity.
      rewrite <- app_assoc. cbn [app].
      now apply search_one_quote. }
  cbn [bind]. unfold broadcast_names, findall.
  rewrite !findall_go_nomatch by reflexivity.
  change ((lit "broadcast " ++ quoted name) ++ [39])
    with (98 :: (lit "roadcast " ++ quoted name) ++ [39]).
  rewrite findall_skip_repr_byte by reflexivity.
  change (98 :: (lit "roadcast " ++ quoted name) ++ [39])
    with ((lit "broadcast " ++ quoted name) ++ [39]).
  rewrite (findall_go_match_app broadcast_re _
             (lit "broadcast " ++ quoted name) [39]).
  - cbn [findall_go map]. replace (match_here broadcast_re [39]) with (@None pystr) by reflexivity.
    cbn [map]. now rewrite event_name_broadcast.
  - reflexivity.
  - discriminate.
  - change (lit "broadcast " ++ quoted name)
      with (lit "broadcast" ++ sp :: quoted name).
    rewrite <- app_assoc. cbn [app].
    apply (match_broadcast name _ Hn).
Qed.

Lemma repr_short_frame (b : byte) (payload : bytes) :
  repr_quote ([x00; x00; x00; b] ++ payload) = 39 ->
  repr ([x00; x00; x00; b] ++ payload)
  = 98 :: 39 :: 92 :: 120 :: 48 :: 48 :: 92 :: 120 :: 48 :: 48
    :: 92 :: 120 :: 48 :: 48
    :: repr_byte 39 b ++ flat_map (repr_byte 39) payload ++ [39].
Proof.
  intros Hq. unfold repr. rewrite Hq. cbn [app flat_map].
  change (repr_byte 39 x00) with [92; 120; 48; 48]. cbn [app].
  now rewrite <- app_assoc.
Qed.

Lemma broadcast_text_wire (name : pystr) :
  forallb wire_char name = true ->
  forallb wire_char (lit "broadcast " ++ quoted name) = true.
Proof.
  intros H. unfold quoted. rewrite forallb_app. cbn [forallb].
  rewrite forallb_app, H. reflexivity.
Qed.

Lemma deliver_parse (mess : bytes) :
  mess <> [] ->
  deliver 0 mess = (p <- _parse_message (repr mess) ;; Return (RParsed p)).
Proof. intros H. destruct mess; [congruence | reflexivity]. Qed.

(** X14: a broadcast sent by one [Scratch] object is what the other one
    receives.  [broadcast] of a scalar whose text is a name of printable
    ASCII characters without quote, apostrophe or backslash, short
    enough for the length to fit one byte, writes a frame that
    [receive], in its parsing mode, returns as the structure with no
    sensor and with that name alone in the broadcast list (the keyword
    taken out of the name and spaces stripped at its ends, as the parser
    does), when the first read hands over the prefix and no read
    fails. *)
Theorem broadcast_is_received (a : atom) (c0 c : connection)
  (script : list recv_event) (fuel : nat) :
  plain_name (py_str a) = true ->
  forallb wire_char (py_str a) = true ->
  (List.length (py_str a) < 244)%nat ->
  outgoing c0 = [] ->
  Scratch.broadcast (inr a) c0 = (Return tt, c) ->
  prefix_at_once script = true ->
  all_deliver script = true ->
  (List.length (py_str a) + 12 <= fuel)%nat ->
  exists c',
    receive fuel 0 (loopback c script)
    = Some (Return
              (RParsed
                 (Some {| sensor_update := [];
                          broadcast :=
                            [strip_chars [dq; sp]
                               (replace (lit "broadcast") []
                                  (py_str a))] |})), c')
    /\ incoming c' = [].
Proof.
  set (name := py_str a). intros Hn Hw Hlen Hout Hsend Hp Hs Hf.
  cbn [Scratch.broadcast] in Hsend. fold name in Hsend.
  destruct (_send_inv _ _ _ Hsend)
    as (payload & data & He & Hfr & Ho & _).
  rewrite (encode_wire _ (broadcast_text_wire name Hw)) in He.
  apply Some_eq in He. subst payload.
  assert (Hl : List.length (map byte_of (lit "broadcast " ++ quoted name))
               = (List.length name + 12)%nat).
  { rewrite length_map, length_app. unfold quoted.
    change (List.length (lit "broadcast ")) with 10%nat.
    cbn [List.length]. rewrite length_app. cbn [List.length]. lia. }
  rewrite frame_short in Hfr by lia.
  assert (Hd : data
               = [x00; x00; x00;
                  byte_of (Z.of_nat
                    (List.length
                       (map byte_of (lit "broadcast " ++ quoted name))))]
                 ++ map byte_of (lit "broadcast " ++ quoted name))
    by congruence.
  clear Hfr.
  rewrite Hout in Ho. cbn [app] in Ho.
  assert (Hshort : Z.of_nat (List.length
                       (map byte_of (lit "broadcast " ++ quoted name)))
                   < 256) by lia.
  destruct (read_frame_complete fuel (loopback c script)
              (map byte_of (lit "broadcast " ++ quoted name)) _ []
              (frame_short _ Hshort) Hp Hs)
    as (c' & Hr & Hi & _).
  { cbn [loopback peer_sends incoming]. now rewrite Ho, app_nil_r. }
  { lia. }
  exists c'. split; [|exact Hi].
  unfold receive. rewrite Hr.
  rewrite deliver_parse by discriminate.
  rewrite repr_short_frame.
  - rewrite (repr_wire _ (broadcast_text_wire name Hw)).
    now rewrite (parse_repr_broadcast _ name Hn).
  - apply repr_quote_with_dq. rewrite existsb_app. apply orb_true_iff.
    right. unfold quoted. rewrite map_app, existsb_app.
    apply orb_true_iff. right. reflexivity.
Qed.

Lemma broadcast_is_received_witness :
  exists c',
    receive 14 0
      (loopback (snd (Scratch.broadcast (inr (AStr (lit "go")))
                        (peer_sends [] [])))
                [Deliver 4; Deliver 1])
    = Some (Return
              (RParsed
                 (Some {| sensor_update := [];
                          broadcast := [lit "go"] |})), c')
    /\ incoming c' = [].
Proof.
  apply (broadcast_is_received (AStr (lit "go")) (peer_sends [] []));
    try reflexivity.
  simpl. lia.
Defined.

(** ** From the wire to the mapping: a sensor update in [receive] *)

(** [[^...]*] gives back what it took after the character [b] when what
    follows matches before [b] and nowhere after it. *)
Lemma star_loop_notset_backoff_far (cs : list Z) (b : Z)
  (junk : pystr) (k : pystr -> option pystr) (x : pystr) :
  mem b cs = false ->
  (forall j1 j2, junk = j1 ++ j2 -> k j2 = None) ->
  k (b :: junk) = Some x ->
  forall (t : pystr) (n : nat),
    forallb (fun c => negb (mem c cs)) t = true ->
    (List.length t <= n)%nat ->
    star_loop (rmatch (RNotSet cs)) k n (t ++ b :: junk) = Some x.
Proof.
  intros Hb Hj Hk. induction t as [|c t IH]; intros n Ht Hn.
  - destruct n as [|n]; cbn [app star_loop]; [assumption|].
    rewrite rmatch_notset, Hb.
    replace (_ <? _)%nat with true
      by (symmetry; apply Nat.ltb_lt; simpl; lia).
    replace junk with (junk ++ []) at 1 by apply app_nil_r.
    rewrite star_loop_notset_none; [assumption | reflexivity |].
    intros t1 t2 E. rewrite app_nil_r. now apply (Hj t1 t2).
  - destruct n as [|n]; [simpl in Hn; lia|].
    cbn [forallb] in Ht. apply andb_true_iff in Ht. destruct Ht as [Hc Ht].
    apply negb_true_iff in Hc.
    cbn [app star_loop]. rewrite rmatch_notset, Hc.
    replace (_ <? _)%nat with true
      by (symmetry; apply Nat.ltb_lt; simpl; lia).
    rewrite IH; [reflexivity | assumption | simpl in Hn; lia].
Qed.

(** A group that is followed, to the end of the text, by characters
    that are neither the quote nor the space. *)
Lemma name_value_match_junk (c d : Z) (nt vt junk : pystr)
  (k : pystr -> option pystr) (x : pystr) :
  (c =? nl) = false ->
  forallb (fun a => negb (mem a [dq])) nt = true ->
  (d =? dq) = false -> (d =? nl) = false ->
  forallb (fun a => negb (mem a [dq])) vt = true ->
  forallb (fun a => negb (mem a [dq]) && negb (a =? sp)) junk = true ->
  k junk = Some x ->
  rmatch name_value_re
    (dq :: c :: nt ++ dq :: sp :: d :: vt ++ sp :: junk) k = Some x.
Proof.
  intros Hc Hnt Hd Hdn Hvt Hj Hk.
  unfold name_value_re. cbn [rseq].
  rewrite rmatch_group, rmatch_seq, rmatch_group, rmatch_seq, rmatch_group.
  rewrite rmatch_lit_cons, Z.eqb_refl, rmatch_seq, rmatch_dot by assumption.
  rewrite rmatch_seq.
  apply rmatch_star_notset; [reflexivity | | assumption].
  rewrite rmatch_group, rmatch_lit_cons, Z.eqb_refl.
  rewrite rmatch_seq, rmatch_set_cons. cbn [mem existsb orb].
  rewrite Z.eqb_refl. cbn [orb].
  rewrite rmatch_seq, rmatch_group, rmatch_alt, rmatch_lit_cons.
  rewrite (Z.eqb_sym dq d), Hd, rmatch_empty.
  rewrite rmatch_seq, rmatch_group, rmatch_seq, rmatch_dot by assumption.
  cbn [rmatch]. apply star_loop_notset_backoff_far.
  - reflexivity.
  - intros j1 j2 E. destruct j2 as [|a j2]; [reflexivity|].
    pose proof (forallb_app_inv _ _ _ _ Hj E) as Ha.
    cbn [forallb] in Ha. apply andb_true_iff in Ha. destruct Ha as [Ha _].
    apply andb_true_iff in Ha. destruct Ha as [Hq Hs].
    apply not_quote in Hq. apply negb_true_iff in Hs.
    cbn [strip_prefix]. rewrite Hq.
    cbn [mem existsb]. now rewrite Hs.
  - cbn [strip_prefix]. replace (dq =? sp) with false by reflexivity.
    cbn [mem existsb]. rewrite Z.eqb_refl. cbn [orb]. assumption.
  - assumption.
  - rewrite length_app. cbn [List.length]. lia.
Qed.

Lemma group_match_junk (p : sensor) (junk : pystr)
  (k : pystr -> option pystr) (x : pystr) :
  plain_sensor p = true ->
  forallb (fun a => negb (mem a [dq]) && negb (a =? sp)) junk = true ->
  k junk = Some x ->
  rmatch name_value_re (group_text p ++ junk) k = Some x.
Proof.
  intros Hp Hj Hk.
  destruct (group_text_shape p Hp)
    as (c & nt & d & vt & -> & Hc & _ & Hnt & Hd & Hdn & Hvt).
  replace ((dq :: c :: nt ++ dq :: sp :: d :: vt ++ [sp]) ++ junk)
    with (dq :: c :: nt ++ dq :: sp :: d :: vt ++ sp :: junk).
  - now apply name_value_match_junk.
  - cbn [app]. rewrite <- app_assoc. cbn [app].
    rewrite <- app_assoc. reflexivity.
Qed.

Lemma star_junk (junk : pystr) (n : nat) :
  forallb (fun a => negb (mem a [dq]) && negb (a =? sp)) junk = true ->
  star_loop (rmatch name_value_re) (fun rest => Some rest) n junk
  = Some junk.
Proof.
  intros Hj. destruct n as [|n]; cbn [star_loop]; [reflexivity|].
  rewrite name_value_not_opened; [reflexivity|].
  destruct junk as [|a junk]; [reflexivity|].
  cbn [forallb] in Hj. apply andb_true_iff in Hj. destruct Hj as [Ha _].
  apply andb_true_iff in Ha. destruct Ha as [Hq _].
  apply not_quote in Hq. now rewrite Z.eqb_sym, Hq.
Qed.

Lemma star_group_junk (p : sensor) (junk : pystr) (n : nat) :
  plain_sensor p = true ->
  forallb (fun a => negb (mem a [dq]) && negb (a =? sp)) junk = true ->
  (1 <= n)%nat ->
  star_loop (rmatch name_value_re) (fun rest => Some rest) n
            (group_text p ++ junk) = Some junk.
Proof.
  intros Hp Hj Hle. destruct n as [|n]; [lia|]. cbn [star_loop].
  rewrite (group_match_junk p junk _ junk); auto.
  replace (_ <? _)%nat with true.
  - now apply star_junk.
  - symmetry. apply Nat.ltb_lt. rewrite length_app.
    pose proof (group_text_length p). lia.
Qed.

(** The pattern takes a well-formed sensor update whole when what
    follows it, to the end of the text, holds neither quote nor
    space. *)
Lemma match_sensor_update_junk (ps : list sensor) (junk : pystr) :
  ps <> [] -> forallb plain_sensor ps = true ->
  forallb (fun a => negb (mem a [dq]) && negb (a =? sp)) junk = true ->
  match_here sensorupdate_re (sensor_update_text ps ++ junk) = Some junk.
Proof.
  intros Hne Hps Hj.
  destruct (sensors_split_last ps Hne) as (ps' & p & ->).
  rewrite forallb_app in Hps. apply andb_true_iff in Hps.
  destruct Hps as [Hps' Hp]. cbn [forallb] in Hp.
  rewrite andb_true_r in Hp.
  destruct ps' as [|q ps''] eqn:E.
  - unfold match_here, sensorupdate_re, sensor_update_text, RPlus.
    cbn [rseq]. cbn [app map List.concat]. rewrite app_nil_r.
    change (lit "sensor-update " ++ group_text p)
      with (lit "sensor-update" ++ sp :: group_text p).
    rewrite <- app_assoc. cbn [app].
    rewrite rmatch_seq, rmatch_lit, rmatch_seq, rmatch_set by reflexivity.
    rewrite rmatch_seq.
    apply group_match_junk; auto.
    cbn [rmatch]. now apply star_junk.
  - rewrite <- E in *.
    assert (Hne' : ps' <> []) by (subst; discriminate).
    unfold sensor_update_text. rewrite map_app, concat_app.
    cbn [map List.concat]. rewrite app_nil_r.
    rewrite (app_assoc (lit "sensor-update ")).
    change (lit "sensor-update " ++ List.concat (map group_text ps'))
      with (sensor_update_text ps').
    rewrite <- app_assoc.
    apply (match_groups_then ps' _ _ 1); auto.
    + now apply group_broadcast_boundary.
    + intros n Hle. now apply star_group_junk.
    + rewrite length_app. pose proof (group_text_length p). lia.
Qed.

(** The text that [repr] gives for the frame of a well-formed sensor
    update: the pattern finds the sensor update whole. *)
Lemma parse_repr_sensor_update (x : byte) (ps : list sensor) :
  ps <> [] -> forallb plain_sensor ps = true ->
  distinct (map sensor_name ps) = true ->
  replace (lit "sensor-update") [] (List.concat (map group_text ps))
  = List.concat (map group_text ps) ->
  forall text,
    text = 98 :: 39 :: 92 :: 120 :: 48 :: 48 :: 92 :: 120 :: 48 :: 48
           :: 92 :: 120 :: 48 :: 48
           :: repr_byte 39 x ++ sensor_update_text ps ++ [39] ->
    _parse_message text
    = Return (Some {| sensor_update := map sensor_entry ps;
                      broadcast := broadcast_names text |}).
Proof.
  intros Hne Hps Hd Hkw text Et.
  rewrite _parse_message_eq by (subst; discriminate).
  replace (search sensorupdate_re text)
    with (Some (sensor_update_text ps)).
  - rewrite (fragments_sensor_update_text ps Hne Hps Hkw).
    rewrite (reassemble_sensors ps Hps []). cbn [bind app].
    rewrite (pair_up_sensors ps Hd). reflexivity.
  - symmetry. subst text. rewrite !search_skip by reflexivity.
    change (sensor_update_text ps ++ [39])
      with (115 :: (lit "ensor-update " ++ List.concat (map group_text ps))
                   ++ [39]).
    rewrite search_skip_repr_byte by reflexivity.
    change (115 :: (lit "ensor-update " ++ List.concat (map group_text ps))
                   ++ [39])
      with (sensor_update_text ps ++ [39]).
    rewrite (search_here _ _ [39]).
    + now rewrite matched_app.
    + now apply match_sensor_update_junk.
Qed.

Lemma repr_quote_sensor_update (b : bytes) (ps : list sensor) :
  ps <> [] ->
  repr_quote (b ++ map byte_of (sensor_update_text ps)) = 39.
Proof.
  intros Hne. apply repr_quote_with_dq. rewrite existsb_app.
  apply orb_true_iff. right.
  destruct ps as [|p ps]; [congruence|].
  unfold sensor_update_text, group_text, quoted. cbn [map List.concat].
  rewrite map_app, existsb_app. apply orb_true_iff. right. reflexivity.
Qed.

(** X15: a well-formed sensor update is received whole.  When the unread
    bytes are the frame of a sensor update with a space after every
    value (names made of words, values that are words, of printable
    ASCII characters without quote, apostrophe or backslash, names all
    different, the keyword in none of them, fewer than 256 bytes in
    all), [receive] in its parsing mode returns the structure whose
    sensor mapping holds every pair, in the order of the text, when the
    first read hands over the prefix and no read fails. *)
Theorem sensor_update_is_received (ps : list sensor) (payload data : bytes)
  (script : list recv_event) (fuel : nat) :
  ps <> [] -> forallb plain_sensor ps = true ->
  distinct (map sensor_name ps) = true ->
  replace (lit "sensor-update") [] (List.concat (map group_text ps))
  = List.concat (map group_text ps) ->
  forallb wire_char (sensor_update_text ps) = true ->
  encode (sensor_update_text ps) = Some payload ->
  Z.of_nat (List.length payload) < 256 ->
  frame payload = Return data ->
  prefix_at_once script = true ->
  all_deliver script = true ->
  (List.length payload <= fuel)%nat ->
  exists c',
    receive fuel 0 (peer_sends data script)
    = Some (Return
              (RParsed
                 (Some {| sensor_update := map sensor_entry ps;
                          broadcast := broadcast_names (repr data) |})),
            c')
    /\ incoming c' = [].
Proof.
  intros Hne Hps Hd Hkw Hw He Hlen Hfr Hp Hs Hf.
  rewrite (encode_wire _ Hw) in He. apply Some_eq in He. subst payload.
  destruct (read_frame_complete fuel (peer_sends data script) _ data []
              Hfr Hp Hs)
    as (c' & Hr & Hi & _).
  { cbn [peer_sends incoming]. now rewrite app_nil_r. }
  { assumption. }
  exists c'. split; [|exact Hi].
  unfold receive. rewrite Hr.
  rewrite frame_short in Hfr by assumption.
  assert (Ed : data
               = [x00; x00; x00;
                  byte_of (Z.of_nat
                    (List.length (map byte_of (sensor_update_text ps))))]
                 ++ map byte_of (sensor_update_text ps)) by congruence.
  clear Hfr. rewrite deliver_parse by (subst; discriminate).
  rewrite (parse_repr_sensor_update
             (byte_of (Z.of_nat
                (List.length (map byte_of (sensor_update_text ps)))))
             ps Hne Hps Hd Hkw (repr data)); [reflexivity|].
  rewrite Ed, repr_short_frame by now apply repr_quote_sensor_update.
  now rewrite (repr_wire _ Hw).
Qed.

Lemma sensor_update_is_received_witness :
  exists c',
    receive 27 0
      (peer_sends
         ([x00; x00; x00; x1b]
          ++ map byte_of (lit "sensor-update " ++ quoted (lit "x")
                          ++ lit " 5 " ++ quoted (lit "y") ++ lit " 10 "))
         [Deliver 4; Deliver 3])
    = Some (Return
              (RParsed
                 (Some {| sensor_update :=
                            [(lit "x", lit "5"); (lit "y", lit "10")];
                          broadcast := [] |})),
            c')
    /\ incoming c' = [].
Proof.
  apply (sensor_update_is_received
           [([lit "x"], lit "5"); ([lit "y"], lit "10")]
           (map byte_of (lit "sensor-update " ++ quoted (lit "x")
                         ++ lit " 5 " ++ quoted (lit "y") ++ lit " 10 ")));
    try discriminate; try reflexivity; vm_compute; reflexivity.
Defined.

(** ** Two frames, one after the other *)








(** ** A broadcast followed by a sensor update *)

(** After a quote and a space, the keyword of a sensor update and the
    quote of its first name do not make a group. *)
Lemma name_value_before_update (ps : list sensor)
  (k : pystr -> option pystr) :
  ps <> [] -> forallb plain_sensor ps = true ->
  rmatch name_value_re (dq :: sp :: sensor_update_text ps) k = None.
Proof.
  intros Hne Hps. destruct ps as [|p ps]; [congruence|].
  cbn [forallb] in Hps. apply andb_true_iff in Hps. destruct Hps as [Hp _].
  destruct (group_text_shape p Hp) as (c & nt & d & vt & E & _ & Hc & _).
  unfold sensor_update_text. cbn [map List.concat]. rewrite E.
  unfold name_value_re. cbn [rseq].
  rewrite rmatch_group, rmatch_seq, rmatch_group, rmatch_seq, rmatch_group.
  rewrite rmatch_lit_cons, Z.eqb_refl, rmatch_seq, rmatch_dot by reflexivity.
  rewrite rmatch_seq. cbn [app].
  apply rmatch_star_notset_none; [reflexivity|].
  intros t1 t2 Et. cbv beta. rewrite rmatch_group.
  destruct t2 as [|a t2].
  - cbn [app]. rewrite rmatch_lit_cons, Z.eqb_refl.
    now rewrite rmatch_seq, rmatch_set_cons, mem_sp_sp, Hc.
  - assert (Ha : negb (mem a [dq]) = true).
    { assert (H : forallb (fun a => negb (mem a [dq]))
                    (lit "sensor-update ") = true) by reflexivity.
      pose proof (forallb_app_inv _ _ _ _ H Et) as H'.
      cbn [forallb] in H'. now apply andb_true_iff in H'. }
    apply not_quote in Ha. cbn [app]. now rewrite rmatch_lit_cons, Ha.
Qed.

Lemma search_through_name (name : pystr) (ps : list sensor) :
  ps <> [] -> forallb plain_sensor ps = true ->
  mem dq name = false ->
  search sensorupdate_re (name ++ dq :: sp :: sensor_update_text ps)
  = search sensorupdate_re (dq :: sp :: sensor_update_text ps).
Proof.
  intros Hne Hps. induction name as [|c name IH]; intros Hq; [reflexivity|].
  cbn [app]. rewrite search_skip.
  - apply IH. now apply mem_cons_false in Hq.
  - apply match_sensorupdate_after_keyword. intros r E k.
    destruct r as [|q r]; [now apply name_value_not_opened|].
    destruct (q =? dq) eqn:Eq.
    + apply Z.eqb_eq in Eq. subst q.
      apply (first_quote (c :: name) (lit "sensor-update ") _ r Hq eq_refl)
        in E.
      destruct E as [_ <-]. now apply name_value_before_update.
    + apply name_value_not_opened. now rewrite Eq.
Qed.

(** X17: a frame that holds a broadcast and then a sensor update is
    parsed into both: the broadcast list holds the name and the mapping
    every pair.  With X5 this makes the order matter in a frame that
    holds the two.  For a broadcast name without quote, a well-formed
    sensor update with a space after every value, names all different,
    and the keywords occurring nowhere else in the sensor update. *)
Theorem broadcast_then_sensor_update_parses (name : pystr)
  (ps : list sensor) :
  plain_name name = true ->
  ps <> [] -> forallb plain_sensor ps = true ->
  distinct (map sensor_name ps) = true ->
  replace (lit "sensor-update") [] (List.concat (map group_text ps))
  = List.concat (map group_text ps) ->
  replace (lit "broadcast") [] (sensor_update_text ps)
  = sensor_update_text ps ->
  _parse_message
    (lit "broadcast " ++ quoted name ++ sp :: sensor_update_text ps)
  = Return (Some {| sensor_update := map sensor_entry ps;
                    broadcast :=
                      [strip_chars [dq; sp]
                         (replace (lit "broadcast") [] name)] |}).
Proof.
  intros Hn Hne Hps Hd Hkw Hb.
  pose proof (plain_name_no_quote _ Hn) as Hq.
  rewrite _parse_message_eq by discriminate.
  replace (search sensorupdate_re _) with (Some (sensor_update_text ps)).
  2:{ symmetry. unfold quoted. cbn [app]. rewrite <- app_assoc.
      cbn [app].
      change (lit "broadcast "
              ++ dq :: name ++ dq :: sp :: sensor_update_text ps)
        with (98 :: 114 :: 111 :: 97 :: 100 :: 99 :: 97 :: 115 :: 116 :: 32
              :: 34 :: name ++ dq :: sp :: sensor_update_text ps).
      rewrite !search_skip by reflexivity.
      rewrite (search_through_name name ps Hne Hps Hq).
      rewrite !search_skip by reflexivity.
      now apply search_sensor_update_text. }
  rewrite (fragments_sensor_update_text ps Hne Hps Hkw).
  rewrite (reassemble_sensors ps Hps []). cbn [bind app].
  rewrite (pair_up_sensors ps Hd). cbn [bind].
  unfold broadcast_names, findall.
  rewrite (findall_go_match_app broadcast_re _
             (lit "broadcast " ++ quoted name)
             (sp :: sensor_update_text ps)).
  - rewrite findall_go_nomatch by reflexivity.
    rewrite (findall_no_keyword _ Hb). cbn [map].
    now rewrite event_name_broadcast.
  - now rewrite <- app_assoc.
  - discriminate.
  - change (lit "broadcast " ++ quoted name ++ sp :: sensor_update_text ps)
      with (lit "broadcast" ++ sp :: quoted name
            ++ sp :: sensor_update_text ps).
    apply (match_broadcast name _ Hn).
Qed.

Lemma broadcast_then_sensor_update_parses_witness :
  _parse_message (lit "broadcast " ++ quoted (lit "go")
                  ++ lit " sensor-update " ++ quoted (lit "x") ++ lit " 1 ")
  = Return (Some {| sensor_update := [(lit "x", lit "1")];
                    broadcast := [lit "go"] |}).
Proof.
  apply (broadcast_then_sensor_update_parses (lit "go")
           [([lit "x"], lit "1")]);
    try discriminate; vm_compute; reflexivity.
Defined.
